(** * Bowie Phone audio analysis: DTMF detection core

    A shallow embedding of the detection logic of
    [logs/analyze_audio.py] (the parameter-sweep script) and
    [tools/analyze_audio/analyze_audio.py] (the report generator), with the
    properties of the design document stated and settled against it.

    Numeric idealisation: Python/NumPy floats are read as exact numbers.
    The Goertzel filter needs [cos], [sin] and [sqrt] and is embedded over
    the reals; everything downstream of the filter bank only compares,
    multiplies and divides magnitudes that are already stored in the
    per-window records, and is embedded over the rationals so that it
    evaluates. *)

From Stdlib Require Import ZArith List Bool Lia.
From Stdlib Require Import Reals Lra.
From Stdlib Require Import QArith Qround.
From Stdlib Require Lqa.
From Stdlib Require Import String Ascii.
Import ListNotations.

(* ====================================================================== *)
(** * The Goertzel filter *)
(* ====================================================================== *)

Module Goertzel.

Local Open Scope R_scope.

(** [k = int(0.5 + (n * target_freq) / sample_rate)].
    The argument of [int] is the rational
    [(sample_rate + 2*n*target_freq) / (2*sample_rate)]; Python's [int]
    truncates towards zero, which is [Z.quot]. *)
Definition bin_index (n target_freq sample_rate : Z) : Z :=
  Z.quot (sample_rate + 2 * (n * target_freq)) (2 * sample_rate).

(** One pass of the loop body
    [q0 = coeff * q1 - q2 + sample; q2 = q1; q1 = q0];
    the state carried between iterations is [(q1, q2)]. *)
Definition goertzel_step (coeff : R) (q : R * R) (sample : R) : R * R :=
  let q0 := coeff * fst q - snd q + sample in
  (q0, fst q).

Definition goertzel_loop (coeff : R) (samples : list R) : R * R :=
  fold_left (goertzel_step coeff) samples (0, 0).

(** [goertzel(samples, target_freq, sample_rate)].  [None] stands for the
    [ZeroDivisionError] of [/ sample_rate] and of [/ n]. *)
Definition goertzel (samples : list R) (target_freq sample_rate : Z)
  : option R :=
  let n := Z.of_nat (List.length samples) in
  if (sample_rate =? 0)%Z then None
  else
    let k := bin_index n target_freq sample_rate in
    if (n =? 0)%Z then None
    else
      let omega := (2 * PI * IZR k) / IZR n in
      let coeff := 2 * cos omega in
      let q := goertzel_loop coeff samples in
      let real := fst q - snd q * cos omega in
      let imag := snd q * sin omega in
      Some (sqrt (real * real + imag * imag)).

(** ** The algorithm as the design document words it *)

(** [k] is [x] rounded to the nearest integer, halves rounding up. *)
Definition rounds_to (x : R) (k : Z) : Prop :=
  IZR k - / 2 <= x < IZR k + / 2.

(** "Run the second-order recursion q0 = c*q1 - q2 + sample; q2 = q1;
    q1 = q0 once per sample", from the given [q1], [q2]. *)
Fixpoint spec_recursion (c : R) (samples : list R) (q1 q2 : R) : R * R :=
  match samples with
  | [] => (q1, q2)
  | sample :: rest =>
      let q0 := c * q1 - q2 + sample in
      spec_recursion c rest q0 q1
  end.

Definition spec_magnitude (omega : R) (q : R * R) : R :=
  let real := fst q - snd q * cos omega in
  let imag := snd q * sin omega in
  sqrt (real * real + imag * imag).

End Goertzel.

(* ====================================================================== *)
(** * Python and NumPy primitives used by the scripts *)
(* ====================================================================== *)

Module Py.

Definition Qlt_bool (a b : Q) : bool := negb (Qle_bool b a).

(** Builtin [max(a, b)] and [min(a, b)] on two numbers: the first argument
    is kept unless the second is strictly larger (smaller). *)
Definition max2 (a b : Q) : Q := if Qlt_bool a b then b else a.
Definition min2 (a b : Q) : Q := if Qlt_bool b a then b else a.

(** [range(start, stop, step)]; [None] is the [ValueError] of a zero step.
    The length is CPython's: [(stop - start - 1) // step + 1] for an
    ascending non-empty range, and symmetrically for a descending one. *)
Definition range_len (start stop step : Z) : nat :=
  if (0 <? step)%Z then
    (if (start <? stop)%Z then Z.to_nat ((stop - start - 1) / step + 1) else O)
  else
    (if (stop <? start)%Z then Z.to_nat ((start - stop - 1) / (- step) + 1)
     else O).

Definition range (start stop step : Z) : option (list Z) :=
  if (step =? 0)%Z then None
  else Some (map (fun j => (start + Z.of_nat j * step)%Z)
                 (seq 0 (range_len start stop step))).

(** Slice bound normalisation of [a[lo:hi]] on a sequence of length [n]. *)
Definition clamp_index (n idx : Z) : Z :=
  if (idx <? 0)%Z then Z.max 0 (idx + n) else Z.min idx n.

Definition slice {A} (a : list A) (lo hi : Z) : list A :=
  let n := Z.of_nat (List.length a) in
  let l := clamp_index n lo in
  let h := clamp_index n hi in
  firstn (Z.to_nat (h - l)) (skipn (Z.to_nat l) a).

(** [np.argmax]: index of the first occurrence of the maximum;
    [None] is the [ValueError] on an empty sequence. *)
Fixpoint argmax_from (best : Q) (best_i : nat) (i : nat) (l : list Q) : nat :=
  match l with
  | [] => best_i
  | x :: rest =>
      if Qlt_bool best x then argmax_from x i (S i) rest
      else argmax_from best best_i (S i) rest
  end.

Definition argmax (l : list Q) : option nat :=
  match l with
  | [] => None
  | x :: rest => Some (argmax_from x O 1%nat rest)
  end.

(** Builtin [max(iterable, key=...)]: the first element whose key is
    maximal; [None] is the [ValueError] on an empty iterable. *)
Fixpoint max_by_from {A} (key : A -> Q) (best : A) (l : list A) : A :=
  match l with
  | [] => best
  | x :: rest =>
      if Qlt_bool (key best) (key x) then max_by_from key x rest
      else max_by_from key best rest
  end.

Definition max_by {A} (key : A -> Q) (l : list A) : option A :=
  match l with
  | [] => None
  | x :: rest => Some (max_by_from key x rest)
  end.

(** Builtin [max(list)] on numbers. *)
Definition max_list (l : list Q) : option Q := max_by (fun x => x) l.

(** [collections.Counter(values)]: keys in first-insertion order with their
    counts. *)
Fixpoint counter_add (k : Z) (c : list (Z * nat)) : list (Z * nat) :=
  match c with
  | [] => [(k, 1%nat)]
  | (k', n) :: rest =>
      if (k' =? k)%Z then (k', S n) :: rest else (k', n) :: counter_add k rest
  end.

Definition Counter (values : list Z) : list (Z * nat) :=
  fold_left (fun c k => counter_add k c) values [].

(** [Counter.most_common(1)[0]]: [most_common(1)] is
    [max(items, key=count)], the first item of maximal count in insertion
    order; [None] is the [IndexError] of [[0]] on an empty counter. *)
Fixpoint most_common_from (best : Z * nat) (c : list (Z * nat)) : Z * nat :=
  match c with
  | [] => best
  | x :: rest =>
      if (snd best <? snd x)%nat then most_common_from x rest
      else most_common_from best rest
  end.

Definition most_common1 (c : list (Z * nat)) : option (Z * nat) :=
  match c with
  | [] => None
  | x :: rest => Some (most_common_from x rest)
  end.

(** Sorting, as [np.percentile] does internally. *)
Fixpoint insert_sorted (x : Q) (l : list Q) : list Q :=
  match l with
  | [] => [x]
  | y :: rest => if Qle_bool x y then x :: l else y :: insert_sorted x rest
  end.

Definition sort (l : list Q) : list Q := fold_right insert_sorted [] l.

(** [np.percentile(a, p)] with the default linear interpolation: on the
    sorted data the virtual index is [(n - 1) * p / 100]; the result
    interpolates between its two neighbours.  [None] on empty data. *)
Definition percentile (a : list Q) (p : Q) : option Q :=
  match a with
  | [] => None
  | _ =>
      let s := sort a in
      let n := List.length s in
      let vi := (inject_Z (Z.of_nat n - 1) * p / 100)%Q in
      let lo := Qfloor vi in
      let hi := Z.min (lo + 1) (Z.of_nat n - 1) in
      let gamma := (vi - inject_Z lo)%Q in
      let a_lo := nth (Z.to_nat lo) s 0%Q in
      let a_hi := nth (Z.to_nat hi) s 0%Q in
      Some (Qred (a_lo + gamma * (a_hi - a_lo))%Q)
  end.

(** Division of two [np.float64] values: a zero divisor does not raise, it
    yields [inf] or [nan], written [None] here. *)
Definition np_div (a b : Q) : option Q :=
  if Qeq_bool b 0 then None else Some (a / b)%Q.

(** [x < limit] for such a quotient.  The scripts only divide a
    non-negative numerator, so a non-finite quotient is [+inf] or [nan] and
    every comparison [< limit] with it is false. *)
Definition np_lt (x : option Q) (limit : Q) : bool :=
  match x with
  | None => false
  | Some q => Qlt_bool q limit
  end.

(** Truthiness of a value that is [None] or a string. *)
Definition truthy (d : option string) : bool :=
  match d with
  | None => false
  | Some s => negb (String.eqb s EmptyString)
  end.

(** Error propagation: [None] is a raised exception. *)

Definition bind {A B} (x : option A) (f : A -> option B) : option B :=
  match x with
  | Some a => f a
  | None => None
  end.

Notation "x <- e ;; k" := (bind e (fun x => k))
  (at level 61, e at next level, right associativity).

Fixpoint map_opt {A B} (f : A -> option B) (l : list A) : option (list B) :=
  match l with
  | [] => Some []
  | a :: rest =>
      b <- f a ;;
      bs <- map_opt f rest ;;
      Some (b :: bs)
  end.

(** [int(x)] on a float: truncation towards zero. *)
Definition int_of (x : Q) : Z :=
  if Qle_bool 0 x then Qfloor x else Qceiling x.

(** [np.max] of an integer array; [None] is the [ValueError] on an empty
    array. *)
Definition np_max (a : list Z) : option Z :=
  match a with
  | [] => None
  | x :: rest => Some (fold_left Z.max rest x)
  end.

(** [np.abs] on an [int16] value: the most negative value wraps to itself. *)
Definition abs16 (x : Z) : Z :=
  if (x =? -32768)%Z then x else Z.abs x.

(** [a != b] on values that are [None] or strings. *)
Definition opt_string_eqb (a b : option string) : bool :=
  match a, b with
  | None, None => true
  | Some x, Some y => String.eqb x y
  | _, _ => false
  end.

End Py.

(* ====================================================================== *)
(** * DTMF constants *)
(* ====================================================================== *)

Module Dtmf.

Definition DTMF_LOW : list Z := [697; 770; 852; 941]%Z.
Definition DTMF_HIGH : list Z := [1209; 1336; 1477; 1633]%Z.

Definition DTMF_MAP : list ((Z * Z) * string) :=
  [ ((697, 1209), "1"); ((697, 1336), "2"); ((697, 1477), "3"); ((697, 1633), "A");
    ((770, 1209), "4"); ((770, 1336), "5"); ((770, 1477), "6"); ((770, 1633), "B");
    ((852, 1209), "7"); ((852, 1336), "8"); ((852, 1477), "9"); ((852, 1633), "C");
    ((941, 1209), "*"); ((941, 1336), "0"); ((941, 1477), "#"); ((941, 1633), "D")
  ]%Z%string.

(** [d.get(key)] on a dict with pair keys. *)
Fixpoint dict_get (d : list ((Z * Z) * string)) (key : Z * Z) : option string :=
  match d with
  | [] => None
  | (k, v) :: rest =>
      if ((fst k =? fst key) && (snd k =? snd key))%Z then Some v
      else dict_get rest key
  end.

(** [d.get(key, default)]. *)
Definition dict_get_default (d : list ((Z * Z) * string)) (key : Z * Z)
  (default : string) : string :=
  match dict_get d key with
  | Some v => v
  | None => default
  end.

End Dtmf.

(* ====================================================================== *)
(** * logs/analyze_audio.py *)
(* ====================================================================== *)

Module Logs.

Import Py Dtmf.
Local Open Scope Q_scope.

Definition rate : Z := 11025.

Definition low_freqs : list Z := [697; 770; 852; 941]%Z.
Definition high_freqs : list Z := [1209; 1336; 1477; 1633]%Z.
Definition dtmf_map : list ((Z * Z) * string) := DTMF_MAP.

(** The magnitudes of one band and its strongest entry:
    [mags = [goertzel(samples, f, rate) for f in freqs]],
    [idx = np.argmax(mags)], [mag = mags[idx]]. *)
Record Band := mkBand {
  band_idx : nat;
  band_mag : Q
}.

Section WithGoertzel.

(** [goertzel(samples, f, sample_rate)] as a rational magnitude; [None]
    where the filter raises. *)
Variable goertzel : list Z -> Z -> Z -> option Q.

Definition best_of_band (samples : list Z) (freqs : list Z)
  (sample_rate : Z) : option Band :=
  mags <- map_opt (fun f => goertzel samples f sample_rate) freqs ;;
  idx <- argmax mags ;;
  mag <- nth_error mags idx ;;
  Some {| band_idx := idx; band_mag := mag |}.

(** ** [detect_dtmf_digit] *)

Record Detected := mkDetected {
  d_digit : option string;
  d_low_freq : option Z;
  d_high_freq : option Z;
  d_low_mag : Q;
  d_high_mag : Q
}.

(** [low_mag > threshold and high_mag > threshold] *)
Definition passes_threshold (threshold low_mag high_mag : Q) : bool :=
  Qlt_bool threshold low_mag && Qlt_bool threshold high_mag.

(** [ratio = max(low_mag, high_mag) / min(low_mag, high_mag)] *)
Definition ratio_of (low_mag high_mag : Q) : option Q :=
  np_div (max2 low_mag high_mag) (min2 low_mag high_mag).

(** The decision made once the band winners and the threshold are known. *)
Definition decide (threshold twist_ratio : Q) (low high : Band)
  : option Detected :=
  let low_mag := band_mag low in
  let high_mag := band_mag high in
  if passes_threshold threshold low_mag high_mag then
    let ratio := ratio_of low_mag high_mag in
    if np_lt ratio twist_ratio then
      lf <- nth_error low_freqs (band_idx low) ;;
      hf <- nth_error high_freqs (band_idx high) ;;
      Some {| d_digit := dict_get dtmf_map (lf, hf);
              d_low_freq := Some lf; d_high_freq := Some hf;
              d_low_mag := low_mag; d_high_mag := high_mag |}
    else
      Some {| d_digit := None; d_low_freq := None; d_high_freq := None;
              d_low_mag := low_mag; d_high_mag := high_mag |}
  else
    Some {| d_digit := None; d_low_freq := None; d_high_freq := None;
            d_low_mag := low_mag; d_high_mag := high_mag |}.

(** [threshold = np.max(samples) * 0.1] *)
Definition detect_threshold (samples : list Z) : option Q :=
  peak <- np_max samples ;;
  Some (inject_Z peak * (1 # 10)).

Definition detect_dtmf_digit (samples : list Z) (sample_rate : Z)
  : option Detected :=
  low <- best_of_band samples low_freqs sample_rate ;;
  high <- best_of_band samples high_freqs sample_rate ;;
  threshold <- detect_threshold samples ;;
  let twist_ratio := 4 in
  decide threshold twist_ratio low high.

(** ** Parameter sweep: the per-window classification *)

Record Params := mkParams {
  window_ms : Z;
  threshold_pct : Z;
  twist_ratio : Q;
  overlap : Q
}.

(** [int(window_ms * rate / 1000)] *)
Definition window_samples (p : Params) : Z :=
  Z.quot (window_ms p * rate) 1000.

(** [int(window_samples * (1 - overlap))] *)
Definition hop_samples (p : Params) : Z :=
  int_of (inject_Z (window_samples p) * (1 - overlap p)).

Record DigitInfo := mkInfo {
  info_low_freq : Z;
  info_high_freq : Z;
  info_low_mag : Q;
  info_high_mag : Q;
  info_threshold : Q;
  info_peak_amp : Z;
  info_twist : option Q
}.

(** [peak_amp = np.max(np.abs(window))] *)
Definition sweep_peak_amp (window : list Z) : option Z :=
  np_max (map abs16 window).

(** [threshold = peak_amp * (threshold_pct / 100)] *)
Definition sweep_threshold (p : Params) (peak_amp : Z) : Q :=
  inject_Z peak_amp * (inject_Z (threshold_pct p) / 100).

(** What one iteration computes before the event bookkeeping: the digit
    (or [None]) and, when the twist ratio was computed and accepted, the
    values that would be stored in [digit_info]. *)
Definition classify_window (p : Params) (window : list Z)
  : option (option string * option DigitInfo) :=
  low <- best_of_band window low_freqs rate ;;
  high <- best_of_band window high_freqs rate ;;
  peak_amp <- sweep_peak_amp window ;;
  let threshold := sweep_threshold p peak_amp in
  let low_mag := band_mag low in
  let high_mag := band_mag high in
  if passes_threshold threshold low_mag high_mag then
    let ratio := ratio_of low_mag high_mag in
    if np_lt ratio (twist_ratio p) then
      lf <- nth_error low_freqs (band_idx low) ;;
      hf <- nth_error high_freqs (band_idx high) ;;
      Some (dict_get dtmf_map (lf, hf),
            Some {| info_low_freq := lf; info_high_freq := hf;
                    info_low_mag := low_mag; info_high_mag := high_mag;
                    info_threshold := threshold; info_peak_amp := peak_amp;
                    info_twist := ratio |})
    else Some (None, None)
  else Some (None, None).

End WithGoertzel.

(** ** Parameter sweep: the digit event bookkeeping *)

(** [(digit, start_seconds, duration_ms, digit_info)] *)
Record Event := mkEvent {
  ev_digit : string;
  ev_start : Q;
  ev_duration_ms : Q;
  ev_info : option DigitInfo
}.

Record AsmState := mkAsm {
  detected_digits : list Event;
  last_digit : option string;
  digit_start : option Z;
  digit_info : option DigitInfo
}.

Definition asm_init : AsmState :=
  {| detected_digits := []; last_digit := None; digit_start := None;
     digit_info := None |}.

(** [duration_ms = (now - digit_start) / rate * 1000;
     detected_digits.append((last_digit, digit_start/rate, duration_ms,
     digit_info))], reached only under [if last_digit:]. *)
Definition emit (rate : Z) (st : AsmState) (now : Z) : list Event :=
  match last_digit st, digit_start st with
  | Some d, Some s =>
      detected_digits st ++
      [ {| ev_digit := d;
           ev_start := inject_Z s / inject_Z rate;
           ev_duration_ms := inject_Z (now - s) / inject_Z rate * 1000;
           ev_info := digit_info st |} ]
  | _, _ => detected_digits st
  end.

(** One classified window: its offset [i], its digit and its info. *)
Definition Classified : Type := Z * option string * option DigitInfo.

(** The [if digit: ... else: ...] block of one iteration. *)
Definition asm_step (rate : Z) (st : AsmState) (w : Classified) : AsmState :=
  let '(i, digit, info) := w in
  if truthy digit then
    if negb (opt_string_eqb digit (last_digit st)) then
      {| detected_digits :=
           if truthy (last_digit st) then emit rate st i
           else detected_digits st;
         last_digit := digit;
         digit_start := Some i;
         digit_info := info |}
    else st
  else
    if truthy (last_digit st) then
      {| detected_digits := emit rate st i;
         last_digit := None;
         digit_start := digit_start st;
         digit_info := digit_info st |}
    else st.

(** The loop followed by the closing [if last_digit:] that uses
    [len(data)]. *)
Definition assemble (rate len : Z) (ws : list Classified) : list Event :=
  let st := fold_left (asm_step rate) ws asm_init in
  if truthy (last_digit st) then emit rate st len else detected_digits st.

(** One run of the sweep for a parameter set. *)
Definition sweep (goertzel : list Z -> Z -> Z -> option Q)
  (data : list Z) (p : Params) : option (list Event) :=
  let len := Z.of_nat (List.length data) in
  let ws := window_samples p in
  offsets <- range 0 (len - ws) (hop_samples p) ;;
  classified <-
    map_opt (fun i =>
               c <- classify_window goertzel p (slice data i (i + ws)) ;;
               Some (i, fst c, snd c)) offsets ;;
  Some (assemble rate len classified).

(** [''.join([d[0] for d in detected_digits])] *)
Definition sequence (events : list Event) : string :=
  fold_right String.append EmptyString (map ev_digit events).

End Logs.

(* ====================================================================== *)
(** * tools/analyze_audio/analyze_audio.py *)
(* ====================================================================== *)

Module Tools.

Import Py Dtmf.
Local Open Scope Q_scope.

(** One entry of the [windows] list (the fields the detection reads). *)
Record Window := mkWindow {
  time : Q;
  rms : Q;
  rms_db : Q;
  low_peak_mag : Q;
  high_peak_mag : Q;
  goertzel_low : list Q;
  goertzel_high : list Q
}.

(** The float computations made on one chunk: RMS, its dBFS value, the FFT
    band peaks, and [goertzel(chunk, f, rate)] for a frequency [f]. *)
Record ChunkMeasures := mkMeasures {
  m_rms : Q;
  m_rms_db : Q;
  m_low_peak_mag : Q;
  m_high_peak_mag : Q;
  m_goertzel : Z -> Q
}.

(** ** Per-window analysis loop *)

(** The loop header [for i in range(0, len(data) - window_n, hop_n)]. *)
Definition window_offsets (len window_n hop_n : Z) : option (list Z) :=
  range 0 (len - window_n) hop_n.

(** [chunk = data[i:i + window_n]]. *)
Definition chunk_at (data : list Z) (window_n i : Z) : list Z :=
  slice data i (i + window_n).

(** [t_center = (i + window_n // 2) / rate]; [None] is the
    [ZeroDivisionError] of a zero rate. *)
Definition t_center (rate window_n i : Z) : option Q :=
  if (rate =? 0)%Z then None
  else Some (inject_Z (i + window_n / 2) / inject_Z rate).

Section PerWindow.

Variable measure : list Z -> ChunkMeasures.

Definition make_window (data : list Z) (rate window_n i : Z)
  : option Window :=
  let chunk := chunk_at data window_n i in
  match t_center rate window_n i with
  | None => None
  | Some t =>
      let m := measure chunk in
      Some {| time := t;
              rms := m_rms m;
              rms_db := m_rms_db m;
              low_peak_mag := m_low_peak_mag m;
              high_peak_mag := m_high_peak_mag m;
              goertzel_low := map (m_goertzel m) DTMF_LOW;
              goertzel_high := map (m_goertzel m) DTMF_HIGH |}
  end.

Fixpoint collect_windows (data : list Z) (rate window_n : Z)
  (offsets : list Z) : option (list Window) :=
  match offsets with
  | [] => Some []
  | i :: rest =>
      match make_window data rate window_n i with
      | None => None
      | Some w =>
          match collect_windows data rate window_n rest with
          | None => None
          | Some ws => Some (w :: ws)
          end
      end
  end.

Definition analyse_windows (data : list Z) (rate window_n hop_n : Z)
  : option (list Window) :=
  match window_offsets (Z.of_nat (List.length data)) window_n hop_n with
  | None => None
  | Some offsets => collect_windows data rate window_n offsets
  end.

End PerWindow.

(** The script's own settings. *)
Definition rate : Z := 22050.
Definition window_ms : Z := 250.
Definition window_n : Z := Z.quot (window_ms * rate) 1000.
Definition hop_n : Z := (window_n / 2)%Z.

(** ** Energy gate *)

Definition energy_threshold_db : Q := - (20).

(** [w['rms_db'] >= energy_threshold_db]. *)
Definition is_active (w : Window) : bool :=
  Qle_bool energy_threshold_db (rms_db w).

Definition active_windows (windows : list Window) : list Window :=
  filter is_active windows.

(** [w['rms_db'] < energy_threshold_db]. *)
Definition noise_windows (windows : list Window) : list Window :=
  filter (fun w => Qlt_bool (rms_db w) energy_threshold_db) windows.

(** ** Tone regions *)

Record SegState := mkSeg {
  in_region : bool;
  region_start : option Q;
  tone_regions_acc : list (Q * Q)
}.

Definition seg_init : SegState :=
  {| in_region := false; region_start := None; tone_regions_acc := [] |}.

(** [tone_regions.append((region_start, t))].  [region_start] is [None]
    only before the first region opens, when nothing is appended. *)
Definition append_region (st : SegState) (t : Q) : list (Q * Q) :=
  match region_start st with
  | Some s => tone_regions_acc st ++ [(s, t)]
  | None => tone_regions_acc st
  end.

(** Body of [for w in windows]. *)
Definition seg_step (st : SegState) (w : Window) : SegState :=
  if is_active w then
    if negb (in_region st) then
      {| in_region := true; region_start := Some (time w);
         tone_regions_acc := tone_regions_acc st |}
    else st
  else
    if in_region st then
      {| in_region := false; region_start := region_start st;
         tone_regions_acc := append_region st (time w) |}
    else st.

Definition seg_scan (windows : list Window) : SegState :=
  fold_left seg_step windows seg_init.

(** The whole block; the trailing [if in_region:] reads [windows[-1]]. *)
Definition tone_regions (windows : list Window) : list (Q * Q) :=
  let st := seg_scan windows in
  if in_region st then
    match List.last (map Some windows) None with
    | Some w_last => append_region st (time w_last)
    | None => tone_regions_acc st
    end
  else tone_regions_acc st.

(** [r_start <= w['time'] <= r_end]. *)
Definition in_span (r : Q * Q) (w : Window) : bool :=
  Qle_bool (fst r) (time w) && Qle_bool (time w) (snd r).

(** ** Representative windows *)

Definition region_members (windows : list Window) (r : Q * Q) : list Window :=
  filter (in_span r) windows.

Fixpoint representative_windows_of (windows : list Window)
  (regions : list (Q * Q)) : list Window :=
  match regions with
  | [] => []
  | r :: rest =>
      match max_by rms (region_members windows r) with
      | Some w => w :: representative_windows_of windows rest
      | None => representative_windows_of windows rest
      end
  end.

Definition representative_windows (windows : list Window) : list Window :=
  representative_windows_of windows (tone_regions windows).

(** ** Per-window detail table

    Only the Goertzel columns and the two twist ratios are kept; the
    columns that snap the FFT peaks to the nearest DTMF frequency are
    diagnostic and feed no decision. *)

(** [freqs[int(np.argmax(mags))]] and [mags[...]]; [None] is the
    [ValueError] of an empty [mags] or the [IndexError] of the lookup. *)
Definition winner_freq (freqs : list Z) (mags : list Q) : option Z :=
  i <- argmax mags ;; nth_error freqs i.

Definition winner_mag (mags : list Q) : option Q :=
  i <- argmax mags ;; nth_error mags i.

Definition epsilon : Q := 1 # 10000000000.

(** [max(a, b) / max(min(a, b), 1e-10)]. *)
Definition guarded_twist (a b : Q) : option Q :=
  np_div (max2 a b) (max2 (min2 a b) epsilon).

Record WindowRow := mkRow {
  row_time : Q;
  row_g_low_freq : Z;
  row_g_low_mag : Q;
  row_g_high_freq : Z;
  row_g_high_mag : Q;
  row_g_digit : string;
  row_fft_twist : option Q;
  row_g_twist : option Q
}.

Definition window_row (w : Window) : option WindowRow :=
  g_low_freq <- winner_freq DTMF_LOW (goertzel_low w) ;;
  g_high_freq <- winner_freq DTMF_HIGH (goertzel_high w) ;;
  g_low_mag <- winner_mag (goertzel_low w) ;;
  g_high_mag <- winner_mag (goertzel_high w) ;;
  let goertzel_digit :=
    dict_get_default DTMF_MAP (g_low_freq, g_high_freq) "?" in
  let fft_twist := guarded_twist (low_peak_mag w) (high_peak_mag w) in
  let g_twist := guarded_twist g_low_mag g_high_mag in
  Some {| row_time := time w;
          row_g_low_freq := g_low_freq; row_g_low_mag := g_low_mag;
          row_g_high_freq := g_high_freq; row_g_high_mag := g_high_mag;
          row_g_digit := goertzel_digit;
          row_fft_twist := fft_twist; row_g_twist := g_twist |}.

(** Windows under the gate are skipped ([continue]). *)
Definition window_table (windows : list Window) : option (list WindowRow) :=
  map_opt window_row (filter is_active windows).

(** ** Tone region analysis (Goertzel consensus)

    The FFT-peak consensus and the averaged FFT magnitudes of a region are
    report columns; [g_digit], the digit the gated detection uses, is
    computed from the Goertzel winners alone. *)

Record RegionRow := mkRegion {
  region : nat;
  r_start : Q;
  r_end : Q;
  duration : Q;
  num_windows : nat;
  g_low_freq : Z;
  g_low_count : nat;
  g_high_freq : Z;
  g_high_count : nat;
  g_digit : string
}.

(** [[w for w in windows if r_start <= w['time'] <= r_end
        and w['rms_db'] >= energy_threshold_db]]. *)
Definition region_wins (windows : list Window) (r : Q * Q) : list Window :=
  filter (fun w => in_span r w && is_active w) windows.

(** The consensus of one band over the region's windows:
    [Counter([...]).most_common(1)[0]]. *)
Definition band_consensus (freqs : list Z) (band : Window -> list Q)
  (wins : list Window) : option (Z * nat) :=
  vals <- map_opt (fun w => winner_freq freqs (band w)) wins ;;
  most_common1 (Counter vals).

(** One iteration of [for idx, (r_start, r_end) in enumerate(tone_regions)];
    the inner [None] is the [continue] of an empty region. *)
Definition analyse_region (windows : list Window) (idx : nat) (r : Q * Q)
  : option (option RegionRow) :=
  let wins := region_wins windows r in
  match wins with
  | [] => Some None
  | _ =>
      g_low_consensus <- band_consensus DTMF_LOW goertzel_low wins ;;
      g_high_consensus <- band_consensus DTMF_HIGH goertzel_high wins ;;
      let digit :=
        dict_get_default DTMF_MAP
          (fst g_low_consensus, fst g_high_consensus) "?" in
      Some (Some {| region := S idx;
                    r_start := fst r; r_end := snd r;
                    duration := snd r - fst r;
                    num_windows := List.length wins;
                    g_low_freq := fst g_low_consensus;
                    g_low_count := snd g_low_consensus;
                    g_high_freq := fst g_high_consensus;
                    g_high_count := snd g_high_consensus;
                    g_digit := digit |})
  end.

Fixpoint analyse_regions (windows : list Window) (idx : nat)
  (regions : list (Q * Q)) : option (list RegionRow) :=
  match regions with
  | [] => Some []
  | r :: rest =>
      row <- analyse_region windows idx r ;;
      rows <- analyse_regions windows (S idx) rest ;;
      Some (match row with Some x => x :: rows | None => rows end)
  end.

Definition tone_region_analysis (windows : list Window)
  : option (list RegionRow) :=
  analyse_regions windows O (tone_regions windows).

(** ** Energy-gated detection *)

(** [max(max(w['goertzel_low']), max(w['goertzel_high']))]. *)
Definition window_goertzel_max (w : Window) : option Q :=
  l <- max_list (goertzel_low w) ;;
  h <- max_list (goertzel_high w) ;;
  Some (max2 l h).

Definition noise_floor_g (windows : list Window) : option Q :=
  match noise_windows windows with
  | [] => Some 1000
  | nw =>
      noise_goertzel_mags <- map_opt window_goertzel_max nw ;;
      percentile noise_goertzel_mags 95
  end.

Definition abs_goertzel_threshold (windows : list Window) : option Q :=
  f <- noise_floor_g windows ;; Some (f * 10).

Record Detection := mkDetection {
  det_digit : string;
  det_start_time : Q;
  det_end_time : Q;
  det_duration : Q
}.

Definition gated_detections (windows : list Window)
  : option (list Detection) :=
  rows <- tone_region_analysis windows ;;
  Some (map (fun tr => {| det_digit := g_digit tr;
                          det_start_time := r_start tr;
                          det_end_time := r_end tr;
                          det_duration := duration tr |}) rows).

Definition gated_sequence (windows : list Window) : option string :=
  ds <- gated_detections windows ;;
  Some (fold_right String.append EmptyString (map det_digit ds)).

End Tools.

(* ====================================================================== *)
(** * The design document's state machines, in its own words *)
(* ====================================================================== *)

Module Design.

Local Open Scope Q_scope.

(** Region segmenter: two states; the window stream is seen as pairs
    (gate active?, timestamp). *)
Inductive SegmenterState :=
| OUTSIDE
| INSIDE_REGION (start : Q).

(** [last_t] is the timestamp of the last window seen so far.
    - [OUTSIDE --(active)--> INSIDE_REGION], recording the region start;
    - [INSIDE_REGION --(active)--> INSIDE_REGION];
    - [INSIDE_REGION --(not active)--> OUTSIDE], closing the region at the
      current window's timestamp;
    - at the end of the stream an open region closes at the last window's
      timestamp. *)
Fixpoint segment (st : SegmenterState) (last_t : option Q)
  (stream : list (bool * Q)) : list (Q * Q) :=
  match stream with
  | [] =>
      match st, last_t with
      | INSIDE_REGION s, Some t => [(s, t)]
      | _, _ => []
      end
  | (active, t) :: rest =>
      match st with
      | OUTSIDE =>
          if active then segment (INSIDE_REGION t) (Some t) rest
          else segment OUTSIDE (Some t) rest
      | INSIDE_REGION s =>
          if active then segment (INSIDE_REGION s) (Some t) rest
          else (s, t) :: segment OUTSIDE (Some t) rest
      end
  end.

(** Majority vote "with ties broken by the earliest-occurring value": the
    first entry of the list whose number of occurrences is the largest. *)
Definition votes (x : Z) (l : list Z) : nat := count_occ Z.eq_dec l x.

Definition most_votes (l : list Z) : nat :=
  list_max (map (fun y => votes y l) l).

Definition majority_vote (l : list Z) : option Z :=
  find (fun k => (votes k l =? most_votes l)%nat) l.

(** The same vote over decoded digits. *)
Definition svotes (x : string) (l : list string) : nat :=
  count_occ string_dec l x.

Definition majority_digit (l : list string) : option string :=
  find (fun k => (svotes k l =? list_max (map (fun y => svotes y l) l))%nat) l.

(** DigitDecoder: a digit is emitted only if the gate is active, both best
    magnitudes reach the absolute threshold, the twist ratio is below the
    limit and the frequency pair is a key of the table. *)
Definition decode (gate_active : bool) (absolute_threshold twist_limit : Q)
  (low_f high_f : Z) (low_m high_m : Q) : option string :=
  if gate_active
     && Qle_bool absolute_threshold low_m
     && Qle_bool absolute_threshold high_m
     && Py.np_lt (Py.np_div (Py.max2 low_m high_m) (Py.min2 low_m high_m))
                 twist_limit
  then Dtmf.dict_get Dtmf.DTMF_MAP (low_f, high_f)
  else None.

(** The start time of the window at sample offset [i]. *)
Definition window_start_time (rate i : Z) : Q :=
  inject_Z i / inject_Z rate.

End Design.

(* ====================================================================== *)
(** * Auxiliary notions used in the proofs *)
(* ====================================================================== *)

Module Aux.

Import Py Design.

(** The values of a list in order of first occurrence. *)
Fixpoint firsts (l : list Z) : list Z :=
  match l with
  | [] => []
  | x :: rest => x :: filter (fun y => negb (y =? x)%Z) (firsts rest)
  end.

Definition keys (c : list (Z * nat)) : list Z := map fst c.

Definition notin (ks : list Z) (y : Z) : bool :=
  negb (existsb (Z.eqb y) ks).

(** Counts of [c] raised by the occurrences in [l]. *)
Definition bump (l : list Z) (c : list (Z * nat)) : list (Z * nat) :=
  map (fun kn => (fst kn, (snd kn + votes (fst kn) l)%nat)) c.

Definition tally (l : list Z) (k : Z) : Z * nat := (k, votes k l).

(** A window record as the per-window loop builds it: four magnitudes per
    band. *)
Definition well_formed (w : Tools.Window) : Prop :=
  List.length (Tools.goertzel_low w) = 4%nat /\
  List.length (Tools.goertzel_high w) = 4%nat.

(** What it means for a region row to carry a decoded digit. *)
Definition decoded (lf hf : Z) (digit : string) : Prop :=
  In lf Dtmf.DTMF_LOW /\ In hf Dtmf.DTMF_HIGH /\
  Dtmf.dict_get Dtmf.DTMF_MAP (lf, hf) = Some digit /\
  digit <> "?"%string.

(** The winners of one band over a list of windows. *)
Definition band_winners (freqs : list Z) (band : Tools.Window -> list Q)
  (wins : list Tools.Window) : option (list Z) :=
  map_opt (fun w => Tools.winner_freq freqs (band w)) wins.

Definition has_active (windows : list Tools.Window) (r : Q * Q) : bool :=
  match Tools.region_wins windows r with
  | [] => false
  | _ => true
  end.

(** An active window at time [t] whose filter bank peaks at the [lo]-th
    low tone and the [hi]-th high tone. *)
Definition one_hot (i : nat) : list Q :=
  map (fun j => if Nat.eqb i j then 100%Q else 1%Q) (seq 0 4).

Definition tone_window (t : Q) (energy : Q) (lo hi : nat) : Tools.Window :=
  {| Tools.time := t; Tools.rms := energy; Tools.rms_db := 0%Q;
     Tools.low_peak_mag := 100%Q; Tools.high_peak_mag := 100%Q;
     Tools.goertzel_low := one_hot lo; Tools.goertzel_high := one_hot hi |}.

(** Five active windows decoding 1, 1, 2, 5, 8. *)
Definition split_vote_windows : list Tools.Window :=
  [ tone_window 1 10 0 0; tone_window 2 10 0 0; tone_window 3 10 0 1;
    tone_window 4 10 1 1; tone_window 5 10 2 1 ].

(** A filter bank that answers the same magnitude for every frequency. *)
Definition flat_goertzel (m : Q) : list Z -> Z -> Z -> option Q :=
  fun _ _ _ => Some m.

(** The twist ratio is accepted: it is finite and below the limit. *)
Definition twist_ok (low_mag high_mag limit : Q) : Prop :=
  exists q, Logs.ratio_of low_mag high_mag = Some q /\ (q < limit)%Q.

(** Invariant of the event bookkeeping: an open event has a start. *)
Definition asm_inv (st : Logs.AsmState) : Prop :=
  Logs.last_digit st = None \/
  (truthy (Logs.last_digit st) = true /\
   exists s, Logs.digit_start st = Some s).

(** A classified digit is [None] or a non-empty string. *)
Definition digit_ok (d : option string) : Prop :=
  d = None \/ truthy d = true.

(** The event closed at sample [now] for digit [d] opened at sample [s]. *)
Definition closed_event (rate : Z) (d : string) (s now : Z)
  (info : option Logs.DigitInfo) : Logs.Event :=
  {| Logs.ev_digit := d;
     Logs.ev_start := (inject_Z s / inject_Z rate)%Q;
     Logs.ev_duration_ms := (inject_Z (now - s) / inject_Z rate * 1000)%Q;
     Logs.ev_info := info |}.

(** Four negative samples whose alternating sums cancel. *)
Definition zero_divisor_window : list Z := [-4; -11; -10; -3]%Z.

(** A filter bank that answers [lo] for the four low frequencies and [hi]
    for the four high ones. *)
Definition band_goertzel (lo hi : Q) : list Z -> Z -> Z -> option Q :=
  fun _ f _ => Some (if (f <? 1000)%Z then lo else hi).

(** Three tone windows followed by two quiet ones. *)
Definition quiet_window (t : Q) : Tools.Window :=
  {| Tools.time := t; Tools.rms := 1%Q; Tools.rms_db := (- (40))%Q;
     Tools.low_peak_mag := 1%Q; Tools.high_peak_mag := 1%Q;
     Tools.goertzel_low := [3; 5; 2; 4]%Q;
     Tools.goertzel_high := [1; 2; 7; 6]%Q |}.

Definition tone_then_quiet : list Tools.Window :=
  [ tone_window 1 10 3 1; tone_window 2 10 3 1; tone_window 3 10 3 1;
    quiet_window 4; quiet_window 5 ].

End Aux.

Module SegAux.

Import Py Design Tools.
Local Open Scope Q_scope.

(** The closing [if in_region:] of the segmenter, on a scan state. *)
Definition finish (st : SegState) (last_w : option Window) : list (Q * Q) :=
  if in_region st then
    match last_w with
    | Some w => append_region st (time w)
    | None => tone_regions_acc st
    end
  else tone_regions_acc st.

Definition view (w : Window) : bool * Q := (is_active w, time w).

(** The two program variables [in_region], [region_start] against the
    two-state machine. *)
Inductive seg_rel : SegState -> SegmenterState -> Prop :=
| rel_outside st : in_region st = false -> seg_rel st OUTSIDE
| rel_inside st s :
    in_region st = true -> region_start st = Some s ->
    seg_rel st (INSIDE_REGION s).

(** A stand-in for the float measurements of a chunk, for the examples
    of statements that do not depend on them (offsets, chunks and
    timestamps): the same values for every chunk. *)
Definition loud_measure (chunk : list Z) : ChunkMeasures :=
  {| m_rms := 32768; m_rms_db := 0;
     m_low_peak_mag := 1; m_high_peak_mag := 1;
     m_goertzel := fun _ => 1 |}.

(** What the per-window loop measures on a chunk of two samples that both
    sit at -32768, at 8000 samples per second.  The RMS is exactly 32768.
    Its dBFS value [20 * log10(32768 / 32768 + 1e-15)] is irrational: it
    lies between 0 and 1e-14, far above the -20 dB gate, and is held here
    as 0.  The two-point FFT has the frequencies 0 and 4000 Hz only, so
    no bin falls in either band and both peak magnitudes keep their
    initial 0.0.  Every DTMF frequency falls in bin
    [int(0.5 + 2 * f / 8000) = 0], where the filter returns the absolute
    value of the sum of the samples, 65536. *)
Definition full_scale_measure (chunk : list Z) : ChunkMeasures :=
  {| m_rms := 32768; m_rms_db := 0;
     m_low_peak_mag := 0; m_high_peak_mag := 0;
     m_goertzel := fun _ => 65536 |}.

(** A recording of four samples stuck at full negative scale. *)
Definition full_scale_recording : list Z :=
  [-32768; -32768; -32768; -32768]%Z.

End SegAux.

(* ====================================================================== *)
(** * The discrete Fourier transform, for comparison with the filter *)
(* ====================================================================== *)

Module Dft.

Local Open Scope R_scope.

(** [sum_j x_j * cos (omega * (k + j))] and the same with [sin]. *)
Fixpoint cos_sum (omega k : R) (samples : list R) : R :=
  match samples with
  | [] => 0
  | x :: rest => x * cos (omega * k) + cos_sum omega (k + 1) rest
  end.

Fixpoint sin_sum (omega k : R) (samples : list R) : R :=
  match samples with
  | [] => 0
  | x :: rest => x * sin (omega * k) + sin_sum omega (k + 1) rest
  end.

(** Magnitude of [sum_j x_j * exp (- i * omega * j)]. *)
Definition dft_magnitude (omega : R) (samples : list R) : R :=
  sqrt (cos_sum omega 0 samples * cos_sum omega 0 samples
        + sin_sum omega 0 samples * sin_sum omega 0 samples).

(** The same sums with the phase counted back from the last sample. *)
Fixpoint rev_cos_sum (omega : R) (samples : list R) : R :=
  match samples with
  | [] => 0
  | x :: rest =>
      x * cos (omega * INR (List.length rest)) + rev_cos_sum omega rest
  end.

Fixpoint rev_sin_sum (omega : R) (samples : list R) : R :=
  match samples with
  | [] => 0
  | x :: rest =>
      x * sin (omega * INR (List.length rest)) + rev_sin_sum omega rest
  end.

End Dft.

(* ====================================================================== *)
(** * Notions used to state the region and event invariants *)
(* ====================================================================== *)

Module Order.

Local Open Scope Q_scope.

(** Timestamps in strictly increasing order. *)
Fixpoint increasing (ts : list Q) : Prop :=
  match ts with
  | [] => True
  | t :: rest => (forall u, In u rest -> t < u) /\ increasing rest
  end.

(** Regions one after the other: each starts strictly after the previous
    one ended (after [prev] for the first) and does not end before it
    starts. *)
Fixpoint chain (prev : option Q) (regions : list (Q * Q)) : Prop :=
  match regions with
  | [] => True
  | r :: rest =>
      match prev with Some p => p < fst r | None => True end /\
      fst r <= snd r /\
      chain (Some (snd r)) rest
  end.

(** Every timestamp of [ts] lies strictly after [bound]. *)
Definition above (bound : option Q) (ts : list Q) : Prop :=
  match bound with
  | Some b => forall t, In t ts -> b < t
  | None => True
  end.

End Order.

(* ====================================================================== *)
(** * tools/analyze_audio/analyze_audio.py: statistics, plots' slices and
      diagnostics *)
(* ====================================================================== *)

Module Report.

Import Py Dtmf Tools.
Local Open Scope Q_scope.

(** [np.min] of an integer array; [None] is the [ValueError] on an empty
    array. *)
Definition np_min (a : list Z) : option Z :=
  match a with
  | [] => None
  | x :: rest => Some (fold_left Z.min rest x)
  end.

(** Builtin [min(list)] on numbers: the first minimal element. *)
Fixpoint min_from (best : Q) (l : list Q) : Q :=
  match l with
  | [] => best
  | x :: rest =>
      if Qlt_bool x best then min_from x rest else min_from best rest
  end.

Definition min_list (l : list Q) : option Q :=
  match l with
  | [] => None
  | x :: rest => Some (min_from x rest)
  end.

(** ** Basic statistics *)

(** [min_val = int(np.min(data))], [max_val = int(np.max(data))],
    [peak_amplitude = int(max(abs(min_val), abs(max_val)))]: the absolute
    values are taken on Python integers. *)
Definition peak_amplitude (data : list Z) : option Z :=
  min_val <- np_min data ;;
  max_val <- np_max data ;;
  Some (Z.max (Z.abs min_val) (Z.abs max_val)).

(** [clipped = int(np.sum(np.abs(data) > 32000))]: the absolute value is
    taken on the [int16] array. *)
Definition clipped (data : list Z) : Z :=
  Z.of_nat (List.length (filter (fun x => (32000 <? abs16 x)%Z) data)).

(** ** Waveform plots, one per second *)

(** [num_seconds = int(np.ceil(len(data) / rate))] *)
Definition num_seconds (len rate : Z) : Z :=
  Qceiling (inject_Z len / inject_Z rate).

(** [data[s0:s1]] with [s0 = sec * rate] and
    [s1 = min((sec + 1) * rate, len(data))]. *)
Definition waveform_slice (data : list Z) (rate sec : Z) : list Z :=
  let s0 := (sec * rate)%Z in
  let s1 := Z.min ((sec + 1) * rate) (Z.of_nat (List.length data)) in
  slice data s0 s1.

(** The slices plotted by [for sec in range(num_seconds)]. *)
Definition waveform_slices (data : list Z) (rate : Z)
  : option (list (list Z)) :=
  secs <- range 0 (num_seconds (Z.of_nat (List.length data)) rate) 1 ;;
  Some (map (waveform_slice data rate) secs).

(** ** Spectrum plots of the representative windows *)

(** [sample_start = int((rep_w['time'] - window_ms / 2000) * rate)]
    followed by [sample_start = max(0, sample_start)]. *)
Definition spectrum_sample_start (t : Q) : Z :=
  Z.max 0 (int_of ((t - inject_Z window_ms / 2000) * inject_Z rate)).

(** ** Diagnostics: Goertzel signal-to-noise *)

(** [float('inf')] beside the finite ratios. *)
Inductive Ratio :=
| Finite (q : Q)
| Infinite.

Record Snr := mkSnr {
  noise_goertzel_max : Q;
  active_goertzel_min : Q;
  snr_ratio : Ratio
}.

(** The block under [if noise_windows:]; the inner [None] means that no
    entry is appended. *)
Definition snr_diagnostic (windows : list Window) : option (option Snr) :=
  match noise_windows windows with
  | [] => Some None
  | nw =>
      noise_mags <- map_opt window_goertzel_max nw ;;
      noise_g_max <- max_list noise_mags ;;
      match active_windows windows with
      | [] =>
          Some (Some {| noise_goertzel_max := noise_g_max;
                        active_goertzel_min := 0;
                        snr_ratio := Finite 0 |})
      | aw =>
          active_mags <- map_opt window_goertzel_max aw ;;
          active_g_min <- min_list active_mags ;;
          let ratio :=
            if Qlt_bool 0 noise_g_max
            then Finite (active_g_min / noise_g_max)
            else Infinite in
          Some (Some {| noise_goertzel_max := noise_g_max;
                        active_goertzel_min := active_g_min;
                        snr_ratio := ratio |})
      end
  end.

(** ** Goertzel heatmap *)

(** One column of [goertzel_matrix]: for [k in range(4)] the rows [k] and
    [k + 4] take [w['goertzel_low'][k]] and [w['goertzel_high'][k]];
    [None] is the [IndexError] of a missing entry. *)
Definition heatmap_column (w : Window) : option (list Q) :=
  lows <- map_opt (nth_error (goertzel_low w)) (seq 0 4) ;;
  highs <- map_opt (nth_error (goertzel_high w)) (seq 0 4) ;;
  Some (lows ++ highs).

Definition goertzel_matrix (windows : list Window) : option (list (list Q)) :=
  map_opt heatmap_column windows.

(** [half_step = (times_arr[1] - times_arr[0]) / 2 if len(times_arr) > 1
    else 0.0625] *)
Definition half_step (times : list Q) : Q :=
  match times with
  | t0 :: t1 :: _ => (t1 - t0) / 2
  | _ => 1 # 16
  end.

(** [time_edges = np.concatenate([times_arr - half_step,
    [times_arr[-1] + half_step]])]; [None] is the [IndexError] of
    [times_arr[-1]] on an empty array. *)
Definition time_edges (times : list Q) : option (list Q) :=
  let h := half_step times in
  t_last <- List.last (map Some times) None ;;
  Some (map (fun t => t - h) times ++ [t_last + h]).

Definition heatmap_data (windows : list Window)
  : option (list (list Q) * list Q) :=
  matrix <- goertzel_matrix windows ;;
  edges <- time_edges (map time windows) ;;
  Some (matrix, edges).

(** ** From the window list to the gated sequence *)

(** The data the script derives from [windows], in the order in which it
    runs: the heatmap's matrix and time edges, the detail table, the
    region analysis, the gated detections and the gated sequence.  An
    exception in one stage ends the script, so the later ones are not
    computed. *)
Definition detection_report (windows : list Window)
  : option (list WindowRow * list RegionRow * list Detection * string) :=
  heatmap <- heatmap_data windows ;;
  table <- window_table windows ;;
  rows <- tone_region_analysis windows ;;
  detections <- gated_detections windows ;;
  sequence <- gated_sequence windows ;;
  Some (table, rows, detections, sequence).

End Report.

(* ====================================================================== *)
(** * Notions used to state the digit event invariants *)
(* ====================================================================== *)

Module Spans.

Import Py.

(** An event in sample units: digit, first sample, end sample, info. *)
Definition Span : Type := (string * Z * Z * option Logs.DigitInfo)%type.

Definition span_digit (sp : Span) : string := fst (fst (fst sp)).
Definition span_start (sp : Span) : Z := snd (fst (fst sp)).
Definition span_end (sp : Span) : Z := snd (fst sp).
Definition span_info (sp : Span) : option Logs.DigitInfo := snd sp.

(** The event the sweep stores for a span. *)
Definition span_event (rate : Z) (sp : Span) : Logs.Event :=
  Aux.closed_event rate (span_digit sp) (span_start sp) (span_end sp)
    (span_info sp).

(** [sp] may follow [p]: it does not start before [p] ended, and if it
    starts exactly there its digit is another one. *)
Definition follows (p sp : Span) : Prop :=
  (span_end p <= span_start sp)%Z /\
  (span_end p = span_start sp -> span_digit p <> span_digit sp).

Definition follows_opt (prev : option Span) (sp : Span) : Prop :=
  match prev with
  | Some p => follows p sp
  | None => True
  end.

(** Spans in time order, each non-empty and ending by [bound]. *)
Fixpoint span_chain (prev : option Span) (bound : Z) (spans : list Span)
  : Prop :=
  match spans with
  | [] => True
  | sp :: rest =>
      follows_opt prev sp /\
      (span_start sp < span_end sp)%Z /\
      (span_end sp <= bound)%Z /\
      span_chain (Some sp) bound rest
  end.

(** Sample offsets in strictly increasing order. *)
Fixpoint ascending (l : list Z) : Prop :=
  match l with
  | [] => True
  | x :: rest => (forall y, In y rest -> (x < y)%Z) /\ ascending rest
  end.

Definition offset_of (w : Logs.Classified) : Z := fst (fst w).
Definition digit_of (w : Logs.Classified) : option string := snd (fst w).

(** The bookkeeping state after the windows [seen], all at offsets up to
    [b], described by the spans of the events emitted so far. *)
Definition asm_spans (rate : Z) (st : Logs.AsmState) (spans : list Span)
  (seen : list Logs.Classified) (b : Z) : Prop :=
  Logs.detected_digits st = map (span_event rate) spans /\
  span_chain None b spans /\
  (Logs.last_digit st = None \/
   exists d s,
     Logs.last_digit st = Some d /\ truthy (Some d) = true /\
     Logs.digit_start st = Some s /\ (s <= b)%Z /\
     In (s, Some d, Logs.digit_info st) seen /\
     follows_opt (List.last (map Some spans) None)
                 (d, s, (s + 1)%Z, Logs.digit_info st)) /\
  (forall sp, In sp spans ->
     In (span_start sp, Some (span_digit sp), span_info sp) seen) /\
  (forall i d info, In (i, Some d, info) seen -> truthy (Some d) = true ->
     (exists sp, In sp spans /\ span_digit sp = d /\
                 (span_start sp <= i < span_end sp)%Z) \/
     (Logs.last_digit st = Some d /\
      exists s, Logs.digit_start st = Some s /\ (s <= i)%Z)) /\
  (forall w, In w seen -> (offset_of w <= b)%Z).

(** Six classified windows decoding none, 1, 1, none, 4, 7, and the
    sweep's first parameter set. *)
Definition demo_run : list Logs.Classified :=
  [ (0, None, None); (100, Some "1", None); (200, Some "1", None);
    (300, None, None); (400, Some "4", None);
    (500, Some "7", None) ]%Z%string.

Definition demo_params : Logs.Params :=
  {| Logs.window_ms := 100; Logs.threshold_pct := 10;
     Logs.twist_ratio := 4%Q; Logs.overlap := (1 # 2)%Q |}.

End Spans.

(* ====================================================================== *)
(** * Properties of the Goertzel filter *)
(* ====================================================================== *)

Module GoertzelFacts.

Import Goertzel Dtmf Aux.
Local Open Scope R_scope.


Lemma fold_step_is_recursion c samples q1 q2 :
  fold_left (goertzel_step c) samples (q1, q2) = spec_recursion c samples q1 q2.
Proof.
  revert q1 q2.
  induction samples as [|s rest IH]; intros q1 q2; simpl.
  - reflexivity.
  - unfold goertzel_step at 2. simpl. apply IH.
Qed.

Lemma bin_index_rounds (n f Fs : Z) :
  (0 <= n)%Z -> (0 < f)%Z -> (0 < Fs)%Z ->
  rounds_to (IZR n * IZR f / IZR Fs) (bin_index n f Fs).
Proof.
  intros Hn Hf HFs.
  unfold bin_index, rounds_to.
  set (a := (Fs + 2 * (n * f))%Z).
  set (b := (2 * Fs)%Z).
  assert (Ha : (0 <= a)%Z) by (unfold a; nia).
  assert (Hb : (0 < b)%Z) by (unfold b; lia).
  rewrite Z.quot_div_nonneg by lia.
  pose proof (Z.mul_div_le a b Hb) as Hlo.
  pose proof (Z.mul_succ_div_gt a b Hb) as Hhi.
  set (k := (a / b)%Z) in *.
  assert (HFsR : 0 < IZR Fs) by (apply IZR_lt; exact HFs).
  apply IZR_le in Hlo. apply IZR_lt in Hhi.
  unfold a, b in Hlo, Hhi.
  rewrite ?mult_IZR, ?plus_IZR, ?mult_IZR, ?succ_IZR in Hlo, Hhi.
  rewrite ?mult_IZR in Hlo, Hhi.
  assert (Hx : IZR n * IZR f / IZR Fs * IZR Fs = IZR n * IZR f)
    by (field; lra).
  set (x := IZR n * IZR f / IZR Fs) in *.
  rewrite succ_IZR in Hhi.
  clearbody x k.
  split.
  - apply Rmult_le_reg_r with (r := IZR Fs); [exact HFsR|].
    rewrite Hx. lra.
  - apply Rmult_lt_reg_r with (r := IZR Fs); [exact HFsR|].
    rewrite Hx. lra.
Qed.

(** The recursion is linear in the samples. *)
Lemma spec_recursion_scale (a c : R) samples q1 q2 :
  spec_recursion c (map (Rmult a) samples) (a * q1) (a * q2)
  = (a * fst (spec_recursion c samples q1 q2),
     a * snd (spec_recursion c samples q1 q2)).
Proof.
  revert q1 q2.
  induction samples as [|s rest IH]; intros q1 q2; simpl.
  - reflexivity.
  - replace (c * (a * q1) - a * q2 + a * s) with (a * (c * q1 - q2 + s))
      by ring.
    apply IH.
Qed.

Lemma spec_magnitude_scale (a omega : R) (q : R * R) :
  0 <= a ->
  spec_magnitude omega (a * fst q, a * snd q) = a * spec_magnitude omega q.
Proof.
  intros Ha. unfold spec_magnitude. simpl.
  set (re := fst q - snd q * cos omega).
  set (im := snd q * sin omega).
  replace ((a * fst q - a * snd q * cos omega) *
           (a * fst q - a * snd q * cos omega) +
           a * snd q * sin omega * (a * snd q * sin omega))
    with ((a * a) * (re * re + im * im)) by (unfold re, im; ring).
  rewrite sqrt_mult_alt by nra.
  rewrite sqrt_square by exact Ha.
  reflexivity.
Qed.

Lemma goertzel_unfold (samples : list R) (f Fs : Z) :
  (1 <= List.length samples)%nat -> Fs <> 0%Z ->
  let N := Z.of_nat (List.length samples) in
  let omega := 2 * PI * IZR (bin_index N f Fs) / IZR N in
  goertzel samples f Fs
  = Some (spec_magnitude omega (spec_recursion (2 * cos omega) samples 0 0)).
Proof.
  intros Hlen HFs N omega.
  unfold goertzel.
  destruct (Z.eqb_spec Fs 0) as [E|_]; [contradiction|].
  destruct (Z.eqb_spec (Z.of_nat (List.length samples)) 0) as [E|_]; [lia|].
  unfold goertzel_loop. rewrite fold_step_is_recursion.
  reflexivity.
Qed.

(** C6. On a window of [N >= 1] samples and a target frequency
    [0 < f < Fs/2], [goertzel] returns a value, and that value is the one
    the design document prescribes: with [k] the rounding of [N*f/Fs] to
    the nearest integer, [omega = 2*pi*k/N] and [coeff = 2*cos omega], it
    is [sqrt (real^2 + imag^2)] for [real = q1 - q2*cos omega] and
    [imag = q2*sin omega], where [(q1, q2)] is the state of the
    zero-initialised recursion after one step per sample, in order. *)
Theorem goertzel_computes_spec (samples : list R) (f Fs : Z) :
  (1 <= List.length samples)%nat -> (0 < f)%Z -> (2 * f < Fs)%Z ->
  let N := Z.of_nat (List.length samples) in
  exists k : Z,
    rounds_to (IZR N * IZR f / IZR Fs) k /\
    let omega := 2 * PI * IZR k / IZR N in
    let coeff := 2 * cos omega in
    let q := spec_recursion coeff samples 0 0 in
    let real := fst q - snd q * cos omega in
    let imag := snd q * sin omega in
    goertzel samples f Fs = Some (sqrt (real * real + imag * imag)).
Proof.
  intros Hlen Hf Hny N.
  exists (bin_index N f Fs). split.
  - apply bin_index_rounds; unfold N; lia.
  - cbv zeta. rewrite goertzel_unfold by lia. reflexivity.
Qed.

Lemma goertzel_computes_spec_witness :
  exists k : Z,
    rounds_to (IZR 2 * IZR 697 / IZR 11025) k /\
    let omega := 2 * PI * IZR k / IZR 2 in
    let coeff := 2 * cos omega in
    let q := spec_recursion coeff [3; 5] 0 0 in
    let real := fst q - snd q * cos omega in
    let imag := snd q * sin omega in
    goertzel [3; 5] 697 11025 = Some (sqrt (real * real + imag * imag)).
Proof.
  apply (goertzel_computes_spec [3; 5] 697 11025); simpl; lia.
Defined.

(** C7. On every window of at least one sample (and a non-zero sample
    rate), for every target frequency, [goertzel] returns a non-negative
    magnitude, and doubling every sample doubles it exactly. *)
Theorem goertzel_nonneg_and_doubling (w : list R) (f Fs : Z) :
  (1 <= List.length w)%nat -> Fs <> 0%Z ->
  exists m : R,
    goertzel w f Fs = Some m /\
    0 <= m /\
    goertzel (map (Rmult 2) w) f Fs = Some (2 * m).
Proof.
  intros Hlen HFs.
  eexists. split; [apply goertzel_unfold; assumption|].
  split.
  - unfold spec_magnitude. apply sqrt_pos.
  - rewrite goertzel_unfold by (rewrite ?length_map; assumption).
    rewrite length_map. f_equal.
    set (omega := 2 * PI * IZR (bin_index (Z.of_nat (List.length w)) f Fs)
                  / IZR (Z.of_nat (List.length w))).
    replace (spec_recursion (2 * cos omega) (map (Rmult 2) w) 0 0)
      with (spec_recursion (2 * cos omega) (map (Rmult 2) w) (2 * 0) (2 * 0))
      by (f_equal; ring).
    rewrite spec_recursion_scale.
    apply spec_magnitude_scale. lra.
Qed.

Lemma goertzel_nonneg_and_doubling_witness :
  exists m : R,
    goertzel [3; -5; 7] 941 22050 = Some m /\
    0 <= m /\
    goertzel (map (Rmult 2) [3; -5; 7]) 941 22050 = Some (2 * m).
Proof.
  apply (goertzel_nonneg_and_doubling [3; -5; 7] 941 22050); simpl; lia.
Defined.

(** ** The filter on the small windows used as examples below *)

Lemma spec_recursion_step (c s q1 q2 q0 : R) (rest : list R) :
  q0 = c * q1 - q2 + s ->
  spec_recursion c (s :: rest) q1 q2 = spec_recursion c rest q0 q1.
Proof. intros ->. reflexivity. Qed.

(** Two samples at 11025 Hz: every DTMF frequency falls in bin 0 and the
    magnitude is the absolute value of the sum. *)
Lemma goertzel_two_samples (a b : R) (f : Z) :
  In f (DTMF_LOW ++ DTMF_HIGH) ->
  goertzel [a; b] f 11025 = Some (Rabs (a + b)).
Proof.
  intros Hf.
  rewrite goertzel_unfold by (simpl; lia).
  assert (Hk : bin_index (Z.of_nat (List.length [a; b])) f 11025 = 0%Z).
  { simpl in Hf.
    repeat (destruct Hf as [<-|Hf]; [vm_compute; reflexivity|]).
    contradiction. }
  rewrite Hk.
  change (Z.of_nat (List.length [a; b])) with 2%Z.
  replace (2 * PI * 0 / 2) with 0 by (unfold Rdiv; ring).
  unfold spec_magnitude. simpl. rewrite cos_0, sin_0.
  f_equal.
  replace ((2 * 1 * (2 * 1 * 0 - 0 + a) - 0 + b - (2 * 1 * 0 - 0 + a) * 1) *
           (2 * 1 * (2 * 1 * 0 - 0 + a) - 0 + b - (2 * 1 * 0 - 0 + a) * 1) +
           (2 * 1 * 0 - 0 + a) * 0 * ((2 * 1 * 0 - 0 + a) * 0))
    with (Rsqr (a + b)) by (unfold Rsqr; ring).
  apply sqrt_Rsqr_abs.
Qed.

(** The window -4, -11, -10, -3 at 3000 Hz.  The four low frequencies
    fall in bin 1 ([omega = pi/2], coefficient 0), where the state ends at
    [(8, -6)] and the magnitude is 10.  The four high frequencies fall in
    bin 2 ([omega = pi], coefficient -2), where the state runs through
    -4, -3, 0, 0 and ends at [(0, 0)]: the magnitude is 0.  With the
    coefficient -2 every intermediate value is a small integer, so the
    zero is exact in floating point as well. *)
Lemma goertzel_zero_divisor_low (f : Z) :
  In f DTMF_LOW ->
  goertzel (map IZR zero_divisor_window) f 3000 = Some 10.
Proof.
  intros Hf.
  rewrite goertzel_unfold by (simpl; lia).
  assert (Hk : bin_index (Z.of_nat (List.length (map IZR zero_divisor_window)))
                 f 3000 = 1%Z).
  { simpl in Hf.
    repeat (destruct Hf as [<-|Hf]; [vm_compute; reflexivity|]).
    contradiction. }
  rewrite Hk.
  change (Z.of_nat (List.length (map IZR zero_divisor_window))) with 4%Z.
  replace (2 * PI * 1 / 4) with (PI / 2) by field.
  rewrite cos_PI2.
  unfold zero_divisor_window. simpl map.
  rewrite (spec_recursion_step (2 * 0) _ 0 0 (-4)) by lra.
  rewrite (spec_recursion_step (2 * 0) _ (-4) 0 (-11)) by lra.
  rewrite (spec_recursion_step (2 * 0) _ (-11) (-4) (-6)) by lra.
  rewrite (spec_recursion_step (2 * 0) _ (-6) (-11) 8) by lra.
  unfold spec_magnitude. simpl. rewrite cos_PI2, sin_PI2.
  f_equal.
  replace ((8 - -6 * 0) * (8 - -6 * 0) + -6 * 1 * (-6 * 1)) with (10 * 10)
    by ring.
  apply sqrt_square. lra.
Qed.

Lemma goertzel_zero_divisor_high (f : Z) :
  In f DTMF_HIGH ->
  goertzel (map IZR zero_divisor_window) f 3000 = Some 0.
Proof.
  intros Hf.
  rewrite goertzel_unfold by (simpl; lia).
  assert (Hk : bin_index (Z.of_nat (List.length (map IZR zero_divisor_window)))
                 f 3000 = 2%Z).
  { simpl in Hf.
    repeat (destruct Hf as [<-|Hf]; [vm_compute; reflexivity|]).
    contradiction. }
  rewrite Hk.
  change (Z.of_nat (List.length (map IZR zero_divisor_window))) with 4%Z.
  replace (2 * PI * 2 / 4) with PI by field.
  rewrite cos_PI.
  unfold zero_divisor_window. simpl map.
  rewrite (spec_recursion_step (2 * -1) _ 0 0 (-4)) by lra.
  rewrite (spec_recursion_step (2 * -1) _ (-4) 0 (-3)) by lra.
  rewrite (spec_recursion_step (2 * -1) _ (-3) (-4) 0) by lra.
  rewrite (spec_recursion_step (2 * -1) _ 0 (-3) 0) by lra.
  unfold spec_magnitude. simpl.
  replace ((0 - 0 * cos PI) * (0 - 0 * cos PI) + 0 * sin PI * (0 * sin PI))
    with 0 by ring.
  now rewrite sqrt_0.
Qed.

(** Two samples at -32768 at 8000 Hz: every DTMF frequency falls in bin 0
    and the magnitude is 65536. *)
Lemma goertzel_full_scale_chunk (f : Z) :
  In f (DTMF_LOW ++ DTMF_HIGH) ->
  goertzel [-32768; -32768] f 8000 = Some 65536.
Proof.
  intros Hf.
  rewrite goertzel_unfold by (simpl; lia).
  assert (Hk : bin_index (Z.of_nat (List.length [-32768; -32768])) f 8000
               = 0%Z).
  { simpl in Hf.
    repeat (destruct Hf as [<-|Hf]; [vm_compute; reflexivity|]).
    contradiction. }
  rewrite Hk.
  change (Z.of_nat (List.length [-32768; -32768])) with 2%Z.
  replace (2 * PI * 0 / 2) with 0 by (unfold Rdiv; ring).
  rewrite cos_0.
  rewrite (spec_recursion_step (2 * 1) _ 0 0 (-32768)) by lra.
  rewrite (spec_recursion_step (2 * 1) _ (-32768) 0 (-98304)) by lra.
  unfold spec_magnitude. simpl. rewrite cos_0, sin_0.
  f_equal.
  replace ((-98304 - -32768 * 1) * (-98304 - -32768 * 1) +
           -32768 * 0 * (-32768 * 0)) with (65536 * 65536) by ring.
  apply sqrt_square. lra.
Qed.

End GoertzelFacts.

(* ====================================================================== *)
(** * Properties of the Python primitives *)
(* ====================================================================== *)

Module PyFacts.

Import Py Design Aux.

Lemma Qlt_bool_false (a b : Q) : Qlt_bool a b = false -> (b <= a)%Q.
Proof.
  unfold Qlt_bool. intros H. apply negb_false_iff in H.
  now apply Qle_bool_iff.
Qed.

Lemma Qlt_bool_true (a b : Q) : Qlt_bool a b = true -> (a < b)%Q.
Proof.
  unfold Qlt_bool. intros H. apply negb_true_iff in H.
  apply Qnot_le_lt. intros Hle. apply Qle_bool_iff in Hle. congruence.
Qed.

(** [max(iterable, key=...)] returns a member whose key bounds all keys. *)
Lemma max_by_from_spec {A} (key : A -> Q) (l : list A) :
  forall best,
    let r := max_by_from key best l in
    In r (best :: l) /\ forall x, In x (best :: l) -> (key x <= key r)%Q.
Proof.
  induction l as [|y l IH]; intros best; simpl.
  - split; [now left|]. intros x [<-|[]]. apply Qle_refl.
  - destruct (Qlt_bool (key best) (key y)) eqn:E.
    + destruct (IH y) as [Hin Hmax]. split.
      * right. exact Hin.
      * intros x [<-|Hx].
        -- apply Qle_trans with (key y).
           ++ apply Qlt_le_weak. now apply Qlt_bool_true.
           ++ apply Hmax. now left.
        -- apply Hmax. exact Hx.
    + destruct (IH best) as [Hin Hmax]. split.
      * destruct Hin as [<-|Hin]; [now left|right; now right].
      * intros x [<-|[<-|Hx]].
        -- apply Hmax. now left.
        -- apply Qle_trans with (key best).
           ++ now apply Qlt_bool_false.
           ++ apply Hmax. now left.
        -- apply Hmax. now right.
Qed.

Lemma max_by_spec {A} (key : A -> Q) (l : list A) :
  match max_by key l with
  | Some r => In r l /\ forall x, In x l -> (key x <= key r)%Q
  | None => l = []
  end.
Proof.
  destruct l as [|b l]; simpl; [reflexivity|].
  apply (max_by_from_spec key l b).
Qed.

(** [np.argmax] returns a valid index. *)
Lemma argmax_from_bound (l : list Q) :
  forall best best_i i,
    (best_i < i)%nat ->
    (argmax_from best best_i i l < i + List.length l)%nat.
Proof.
  induction l as [|x l IH]; intros best best_i i Hlt; simpl.
  - lia.
  - destruct (Qlt_bool best x).
    + specialize (IH x i (S i) ltac:(lia)). lia.
    + specialize (IH best best_i (S i) ltac:(lia)). lia.
Qed.

Lemma argmax_bound (l : list Q) :
  l <> [] -> exists i, argmax l = Some i /\ (i < List.length l)%nat.
Proof.
  destruct l as [|x l]; [congruence|]. intros _.
  eexists. split; [reflexivity|].
  pose proof (argmax_from_bound l x O 1%nat ltac:(lia)). simpl. lia.
Qed.

(** [max(mags)] is the magnitude at [np.argmax(mags)]. *)
Lemma argmax_from_is_max (rest : list Q) :
  forall pre best best_i,
    nth_error (pre ++ rest) best_i = Some best ->
    nth_error (pre ++ rest) (argmax_from best best_i (List.length pre) rest)
    = Some (max_by_from (fun x => x) best rest).
Proof.
  induction rest as [|x rest IH]; intros pre best best_i Hb; simpl.
  - exact Hb.
  - replace (pre ++ x :: rest) with ((pre ++ [x]) ++ rest) in *
      by (rewrite <- app_assoc; reflexivity).
    replace (S (List.length pre)) with (List.length (pre ++ [x]))
      by (rewrite length_app; simpl; lia).
    destruct (Qlt_bool best x).
    + apply IH. rewrite nth_error_app1 by (rewrite length_app; simpl; lia).
      rewrite nth_error_app2 by lia. now rewrite Nat.sub_diag.
    + apply IH. exact Hb.
Qed.

Lemma max_list_is_argmax (l : list Q) :
  max_list l = bind (argmax l) (nth_error l).
Proof.
  destruct l as [|x rest]; [reflexivity|].
  unfold max_list, max_by, argmax, bind.
  symmetry. apply (argmax_from_is_max rest [x] x O). reflexivity.
Qed.

(** ** [collections.Counter] and [most_common(1)] *)

Lemma votes_cons (k x : Z) (l : list Z) :
  votes k (x :: l) = ((if (k =? x)%Z then 1 else 0) + votes k l)%nat.
Proof.
  unfold votes. simpl.
  destruct (Z.eq_dec x k) as [->|Hne].
  - now rewrite Z.eqb_refl.
  - destruct (Z.eqb_spec k x); [congruence|reflexivity].
Qed.

Lemma notin_true (ks : list Z) (y : Z) : notin ks y = true <-> ~ In y ks.
Proof.
  unfold notin. rewrite negb_true_iff. split.
  - intros H Hin. assert (existsb (Z.eqb y) ks = true).
    { apply existsb_exists. exists y. split; [exact Hin|apply Z.eqb_refl]. }
    congruence.
  - intros H. destruct (existsb (Z.eqb y) ks) eqn:E; [|reflexivity].
    apply existsb_exists in E. destruct E as [z [Hz Heq]].
    apply Z.eqb_eq in Heq. subst. contradiction.
Qed.

Lemma notin_false (ks : list Z) (y : Z) : notin ks y = false <-> In y ks.
Proof.
  split.
  - intros H. destruct (in_dec Z.eq_dec y ks) as [Hin|Hn]; [exact Hin|].
    apply notin_true in Hn. congruence.
  - intros Hin. destruct (notin ks y) eqn:E; [|reflexivity].
    apply notin_true in E. contradiction.
Qed.

Lemma counter_add_notin (x : Z) (c : list (Z * nat)) :
  ~ In x (keys c) -> counter_add x c = c ++ [(x, 1%nat)].
Proof.
  induction c as [|[k n] c IH]; simpl; intros Hn.
  - reflexivity.
  - destruct (Z.eqb_spec k x) as [->|Hne].
    + exfalso. apply Hn. now left.
    + rewrite IH; [reflexivity|]. intros Hin. apply Hn. now right.
Qed.

Lemma counter_add_in (x : Z) (c : list (Z * nat)) :
  In x (keys c) -> NoDup (keys c) ->
  counter_add x c
  = map (fun kn => (fst kn, (snd kn + (if (fst kn =? x)%Z then 1 else 0))%nat)) c.
Proof.
  induction c as [|[k n] c IH]; simpl; intros Hin Hnd.
  - contradiction.
  - inversion Hnd as [|? ? Hk Hnd']; subst.
    destruct (Z.eqb_spec k x) as [->|Hne].
    + f_equal; [f_equal; lia|].
      rewrite <- (map_id c) at 1. apply map_ext_in.
      intros [k' n'] Hin'. simpl.
      destruct (Z.eqb_spec k' x) as [->|_].
      * exfalso. apply Hk. change x with (fst (x, n')). now apply in_map.
      * f_equal. lia.
    + f_equal; [f_equal; lia|].
      apply IH; [|exact Hnd']. destruct Hin as [E|Hin]; [congruence|exact Hin].
Qed.

Lemma filter_absorb {A} (P Q : A -> bool) (m : list A) :
  (forall y, P y = true -> Q y = true) ->
  filter P (filter Q m) = filter P m.
Proof.
  intros H. induction m as [|y m IH]; simpl; [reflexivity|].
  destruct (Q y) eqn:EQ; simpl.
  - now rewrite IH.
  - destruct (P y) eqn:EP; [|exact IH].
    apply H in EP. congruence.
Qed.

Lemma filter_notin_snoc (ks : list Z) (x : Z) (m : list Z) :
  filter (notin (ks ++ [x])) m
  = filter (notin ks) (filter (fun y => negb (y =? x)%Z) m).
Proof.
  induction m as [|y m IH]; simpl; [reflexivity|].
  assert (E : notin (ks ++ [x]) y = notin ks y && negb (y =? x)%Z).
  { unfold notin. rewrite existsb_app. simpl.
    rewrite orb_false_r, negb_orb. reflexivity. }
  rewrite E.
  destruct (y =? x)%Z; simpl.
  - rewrite andb_false_r. exact IH.
  - rewrite andb_true_r. destruct (notin ks y); [now rewrite IH|exact IH].
Qed.

Lemma counter_fold (l : list Z) :
  forall c, NoDup (keys c) ->
    fold_left (fun c k => counter_add k c) l c
    = bump l c ++ map (tally l) (filter (notin (keys c)) (firsts l)).
Proof.
  induction l as [|x l IH]; intros c Hnd.
  - simpl. rewrite app_nil_r. unfold bump.
    rewrite <- (map_id c) at 1. apply map_ext.
    intros [k n]. simpl. f_equal. unfold votes. simpl. lia.
  - simpl fold_left.
    destruct (in_dec Z.eq_dec x (keys c)) as [Hin|Hnin].
    + rewrite (counter_add_in x c Hin Hnd).
      assert (Hkeys : keys (map (fun kn : Z * nat =>
                 (fst kn, (snd kn + (if (fst kn =? x)%Z then 1 else 0))%nat)) c)
                = keys c).
      { unfold keys. rewrite map_map. reflexivity. }
      rewrite IH by (rewrite Hkeys; exact Hnd).
      rewrite Hkeys. f_equal.
      * unfold bump. rewrite map_map. apply map_ext.
        intros [k n]. cbn [fst snd]. rewrite votes_cons. f_equal. lia.
      * simpl firsts. simpl filter.
        replace (notin (keys c) x) with false
          by (symmetry; now apply notin_false).
        rewrite filter_absorb.
        2:{ intros y Hy. apply notin_true in Hy.
            destruct (Z.eqb_spec y x) as [->|_]; [contradiction|reflexivity]. }
        apply map_ext_in. intros y Hy. apply filter_In in Hy.
        destruct Hy as [_ Hy]. apply notin_true in Hy.
        unfold tally. rewrite votes_cons.
        destruct (Z.eqb_spec y x) as [->|_]; [contradiction|reflexivity].
    + rewrite (counter_add_notin x c Hnin).
      assert (Hkeys : keys (c ++ [(x, 1%nat)]) = keys c ++ [x]).
      { unfold keys. now rewrite map_app. }
      rewrite IH.
      2:{ rewrite Hkeys. apply NoDup_app; [exact Hnd|repeat constructor; intros []|].
          intros y Hy [<-|[]]. contradiction. }
      rewrite Hkeys, filter_notin_snoc.
      unfold bump at 1. rewrite map_app. simpl map at 2.
      rewrite <- app_assoc. f_equal.
      * unfold bump. apply map_ext_in. intros [k n] Hkn. cbn [fst snd].
        rewrite votes_cons.
        destruct (Z.eqb_spec k x) as [->|_]; [|reflexivity].
        exfalso. apply Hnin. change x with (fst (x, n)). now apply in_map.
      * simpl firsts. simpl filter.
        replace (notin (keys c) x) with true
          by (symmetry; now apply notin_true).
        simpl. f_equal.
        -- unfold tally. rewrite votes_cons, Z.eqb_refl. reflexivity.
        -- apply map_ext_in. intros y Hy. apply filter_In in Hy.
           destruct Hy as [Hy _]. apply filter_In in Hy.
           destruct Hy as [_ Hy]. unfold tally. rewrite votes_cons.
           destruct (y =? x)%Z; [discriminate|reflexivity].
Qed.

(** A counter lists each value once, in order of first occurrence, with
    its number of occurrences. *)
Lemma Counter_firsts (l : list Z) :
  Counter l = map (tally l) (firsts l).
Proof.
  unfold Counter. rewrite counter_fold by constructor.
  simpl. f_equal.
  rewrite <- (filter_absorb _ (fun _ => true)) by reflexivity.
  clear. induction (firsts l) as [|y m IH]; simpl; [reflexivity|].
  now rewrite IH.
Qed.

Lemma firsts_In (l : list Z) (y : Z) : In y (firsts l) <-> In y l.
Proof.
  induction l as [|x l IH]; simpl; [tauto|].
  rewrite filter_In, IH.
  destruct (Z.eqb_spec y x) as [->|Hne]; simpl; split.
  - now left.
  - now left.
  - intros [E|[H _]]; [now left|now right].
  - intros [E|H]; [now left|]. right. split; [exact H|reflexivity].
Qed.

Lemma find_filter_neq (p : Z -> bool) (x : Z) (m : list Z) :
  p x = false ->
  find p (filter (fun y => negb (y =? x)%Z) m) = find p m.
Proof.
  intros Hx. induction m as [|y m IH]; simpl; [reflexivity|].
  destruct (Z.eqb_spec y x) as [->|Hne]; simpl.
  - now rewrite Hx.
  - now rewrite IH.
Qed.

Lemma find_firsts (p : Z -> bool) (l : list Z) :
  find p (firsts l) = find p l.
Proof.
  induction l as [|x l IH]; simpl; [reflexivity|].
  destruct (p x) eqn:Hx; [reflexivity|].
  now rewrite find_filter_neq.
Qed.

Lemma list_max_same_members (cnt : Z -> nat) (l m : list Z) :
  (forall y, In y l <-> In y m) ->
  list_max (map cnt l) = list_max (map cnt m).
Proof.
  intros H.
  assert (Hle : forall a b : list Z,
             (forall y, In y a -> In y b) ->
             (list_max (map cnt a) <= list_max (map cnt b))%nat).
  { intros a b Hab. apply list_max_le. apply Forall_forall.
    intros n Hn. apply in_map_iff in Hn. destruct Hn as [y [<- Hy]].
    pose proof (proj1 (list_max_le (map cnt b) (list_max (map cnt b)))
                  (Nat.le_refl _)) as Hall.
    rewrite Forall_forall in Hall. apply Hall. apply in_map. now apply Hab. }
  apply Nat.le_antisymm; apply Hle; intros y; apply H.
Qed.

Lemma find_skip {A} (p : A -> bool) (pre : list A) (b : A) (t : list A) :
  (forall y, In y pre -> p y = false) -> p b = true ->
  find p (pre ++ b :: t) = Some b.
Proof.
  intros Hpre Hb. induction pre as [|y pre IH]; simpl.
  - now rewrite Hb.
  - rewrite (Hpre y) by now left. apply IH. intros z Hz. apply Hpre. now right.
Qed.

Lemma list_max_bounded (v : nat) (pre mid : list nat) :
  Forall (fun n => (n < v)%nat) pre -> Forall (fun n => (n <= v)%nat) mid ->
  list_max (pre ++ v :: mid) = v.
Proof.
  intros Hpre Hmid.
  rewrite list_max_app. simpl.
  assert (list_max pre <= v)%nat.
  { apply list_max_le. eapply Forall_impl; [|exact Hpre].
    intros a Ha. simpl in Ha. lia. }
  assert (list_max mid <= v)%nat by now apply list_max_le.
  lia.
Qed.

(** [most_common(1)] on a list of (key, count) pairs picks the first key
    whose count is the largest. *)
Lemma most_common_from_first_max (cnt : Z -> nat) (rest : list Z) :
  forall pre b mid,
    (forall y, In y pre -> (cnt y < cnt b)%nat) ->
    (forall y, In y mid -> (cnt y <= cnt b)%nat) ->
    let L := pre ++ b :: mid ++ rest in
    exists k,
      find (fun k => (cnt k =? list_max (map cnt L))%nat) L = Some k /\
      most_common_from (b, cnt b) (map (fun k => (k, cnt k)) rest)
      = (k, cnt k).
Proof.
  induction rest as [|x rest IH]; intros pre b mid Hpre Hmid L.
  - exists b. split; [|reflexivity].
    unfold L. rewrite app_nil_r.
    assert (Hmax : list_max (map cnt (pre ++ b :: mid)) = cnt b).
    { rewrite map_app. simpl. apply list_max_bounded.
      - apply Forall_forall. intros n Hn. apply in_map_iff in Hn.
        destruct Hn as [y [<- Hy]]. now apply Hpre.
      - apply Forall_forall. intros n Hn. apply in_map_iff in Hn.
        destruct Hn as [y [<- Hy]]. now apply Hmid. }
    rewrite Hmax. apply find_skip.
    + intros y Hy. apply Nat.eqb_neq. specialize (Hpre y Hy). lia.
    + apply Nat.eqb_refl.
  - simpl. destruct (Nat.ltb_spec (cnt b) (cnt x)) as [Hlt|Hge].
    + destruct (IH (pre ++ b :: mid) x []) as [k [Hfind Hmc]].
      * intros y Hy. apply in_app_or in Hy.
        destruct Hy as [Hy|[<-|Hy]].
        -- specialize (Hpre y Hy). lia.
        -- exact Hlt.
        -- specialize (Hmid y Hy). lia.
      * intros y [].
      * exists k. split; [|exact Hmc].
        unfold L. simpl in Hfind.
        replace (pre ++ b :: mid ++ x :: rest)
          with ((pre ++ b :: mid) ++ x :: rest)
          by (rewrite <- app_assoc; reflexivity).
        exact Hfind.
    + destruct (IH pre b (mid ++ [x])) as [k [Hfind Hmc]].
      * exact Hpre.
      * intros y Hy. apply in_app_or in Hy.
        destruct Hy as [Hy|[<-|[]]]; [now apply Hmid|exact Hge].
      * exists k. split; [|exact Hmc].
        unfold L.
        replace (pre ++ b :: mid ++ x :: rest)
          with (pre ++ b :: (mid ++ [x]) ++ rest)
          by (rewrite <- app_assoc; reflexivity).
        exact Hfind.
Qed.

Lemma most_common1_first_max (cnt : Z -> nat) (ks : list Z) :
  most_common1 (map (fun k => (k, cnt k)) ks)
  = option_map (fun k => (k, cnt k))
      (find (fun k => (cnt k =? list_max (map cnt ks))%nat) ks).
Proof.
  destruct ks as [|b rest]; [reflexivity|].
  destruct (most_common_from_first_max cnt rest [] b [])
    as [k [Hfind Hmc]]; try (intros y []).
  simpl app in Hfind. rewrite Hfind. simpl. now rewrite Hmc.
Qed.

(** [Counter(values).most_common(1)[0]] is the majority vote over
    [values], ties going to the value that occurs first, paired with its
    number of votes. *)
Lemma most_common1_Counter (l : list Z) :
  most_common1 (Counter l) = option_map (tally l) (majority_vote l).
Proof.
  rewrite Counter_firsts.
  unfold tally at 1.
  rewrite (most_common1_first_max (fun k => votes k l) (firsts l)).
  unfold majority_vote, most_votes.
  rewrite (list_max_same_members (fun k => votes k l) (firsts l) l)
    by (apply firsts_In).
  rewrite find_firsts. reflexivity.
Qed.

Lemma majority_vote_In (l : list Z) (k : Z) :
  majority_vote l = Some k -> In k l.
Proof.
  unfold majority_vote. intros H. apply find_some in H. tauto.
Qed.

Lemma majority_vote_nonempty (l : list Z) :
  l <> [] -> exists k, majority_vote l = Some k.
Proof.
  intros Hne.
  pose proof (most_common1_Counter l) as H.
  rewrite Counter_firsts in H.
  destruct l as [|x l]; [congruence|].
  simpl in H. destruct (majority_vote (x :: l)) as [k|]; [now exists k|].
  discriminate.
Qed.

End PyFacts.

(* ====================================================================== *)
(** * Properties of the DTMF table *)
(* ====================================================================== *)

Module DtmfFacts.

Import Dtmf.

(** The table is total on the low x high pairs, and no entry is ['?']. *)
Lemma DTMF_MAP_total (lf hf : Z) :
  In lf DTMF_LOW -> In hf DTMF_HIGH ->
  exists d, dict_get DTMF_MAP (lf, hf) = Some d /\ d <> "?"%string.
Proof.
  unfold DTMF_LOW, DTMF_HIGH. simpl.
  intros [<-|[<-|[<-|[<-|[]]]]] [<-|[<-|[<-|[<-|[]]]]];
    eexists; (split; [vm_compute; reflexivity|discriminate]).
Qed.

End DtmfFacts.

(* ====================================================================== *)
(** * Properties of the sweep script *)
(* ====================================================================== *)

Module LogsFacts.

Import Py Dtmf Logs Design Aux PyFacts DtmfFacts.
Local Open Scope Q_scope.

Lemma Qlt_bool_iff (a b : Q) : Qlt_bool a b = true <-> a < b.
Proof.
  split; [apply Qlt_bool_true|].
  intros H. unfold Qlt_bool. apply negb_true_iff.
  destruct (Qle_bool b a) eqn:E; [|reflexivity].
  apply Qle_bool_iff in E. exfalso. now apply (Qlt_not_le a b).
Qed.

Lemma passes_threshold_iff (t lo hi : Q) :
  passes_threshold t lo hi = true <-> t < lo /\ t < hi.
Proof.
  unfold passes_threshold. rewrite andb_true_iff, !Qlt_bool_iff. tauto.
Qed.

Lemma np_lt_iff (lo hi limit : Q) :
  np_lt (ratio_of lo hi) limit = true <-> twist_ok lo hi limit.
Proof.
  unfold twist_ok, np_lt.
  destruct (ratio_of lo hi) as [q|].
  - rewrite Qlt_bool_iff. split.
    + intros H. now exists q.
    + intros [q' [E H]]. now inversion E; subst.
  - split; [discriminate|]. intros [q [E _]]. discriminate.
Qed.

Lemma map_opt_total {A B} (f : A -> option B) (l : list A) :
  (forall a, In a l -> exists b, f a = Some b) ->
  exists bs, map_opt f l = Some bs /\ List.length bs = List.length l.
Proof.
  induction l as [|a l IH]; intros H.
  - exists []. split; reflexivity.
  - destruct (H a) as [b Eb]; [now left|].
    destruct IH as [bs [E Hl]]; [intros x Hx; apply H; now right|].
    exists (b :: bs). simpl. rewrite Eb. simpl. rewrite E. simpl.
    split; [reflexivity|now rewrite Hl].
Qed.

(** A band always has a winner, and the winner indexes a frequency. *)
Lemma best_of_band_total (goertzel : list Z -> Z -> Z -> option Q)
  (samples : list Z) (freqs : list Z) (rate : Z) :
  freqs <> [] ->
  (forall f, In f freqs -> exists m, goertzel samples f rate = Some m) ->
  exists band f,
    best_of_band goertzel samples freqs rate = Some band /\
    nth_error freqs (band_idx band) = Some f.
Proof.
  intros Hne Htot.
  destruct (map_opt_total (fun f => goertzel samples f rate) freqs Htot)
    as [mags [E Hl]].
  destruct (argmax_bound mags) as [i [Ei Hi]].
  { destruct mags; [|discriminate]. destruct freqs; [congruence|discriminate]. }
  destruct (nth_error mags i) as [m|] eqn:Em;
    [|apply nth_error_None in Em; lia].
  destruct (nth_error freqs i) as [f|] eqn:Ef;
    [|apply nth_error_None in Ef; lia].
  exists {| band_idx := i; band_mag := m |}, f.
  unfold best_of_band. rewrite E. simpl. rewrite Ei. simpl. rewrite Em.
  simpl. split; [reflexivity|exact Ef].
Qed.

Lemma dtmf_map_total (i j : nat) (lf hf : Z) :
  nth_error low_freqs i = Some lf -> nth_error high_freqs j = Some hf ->
  exists d, dict_get dtmf_map (lf, hf) = Some d.
Proof.
  intros Hi Hj.
  apply nth_error_In in Hi. apply nth_error_In in Hj.
  destruct (DTMF_MAP_total lf hf Hi Hj) as [d [E _]].
  now exists d.
Qed.

(** C2 (amended). On a non-empty window [detect_dtmf_digit] does not
    raise.  Its winning pair of frequencies is always a key of the table,
    and it returns that pair's digit exactly when both best magnitudes are
    strictly above the function's threshold and the twist ratio
    [max/min] is finite and strictly below 4; in every other case it
    returns no digit.  The function takes no energy gate. *)
Theorem detect_dtmf_digit_decision
  (goertzel : list Z -> Z -> Z -> option Q) (samples : list Z) (rate : Z) :
  samples <> [] ->
  (forall f, In f (low_freqs ++ high_freqs) ->
             exists m, goertzel samples f rate = Some m) ->
  exists low high lf hf digit threshold det,
    best_of_band goertzel samples low_freqs rate = Some low /\
    best_of_band goertzel samples high_freqs rate = Some high /\
    nth_error low_freqs (band_idx low) = Some lf /\
    nth_error high_freqs (band_idx high) = Some hf /\
    dict_get dtmf_map (lf, hf) = Some digit /\
    detect_threshold samples = Some threshold /\
    detect_dtmf_digit goertzel samples rate = Some det /\
    (((threshold < band_mag low)%Q /\ (threshold < band_mag high)%Q /\
      twist_ok (band_mag low) (band_mag high) 4) ->
     d_digit det = Some digit) /\
    (~ ((threshold < band_mag low)%Q /\ (threshold < band_mag high)%Q /\
        twist_ok (band_mag low) (band_mag high) 4) ->
     d_digit det = None).
Proof.
  intros Hne Htot.
  destruct (best_of_band_total goertzel samples low_freqs rate)
    as [low [lf [El Hlf]]]; [discriminate| |].
  { intros f Hf. apply Htot. apply in_or_app. now left. }
  destruct (best_of_band_total goertzel samples high_freqs rate)
    as [high [hf [Eh Hhf]]]; [discriminate| |].
  { intros f Hf. apply Htot. apply in_or_app. now right. }
  destruct (dtmf_map_total _ _ lf hf Hlf Hhf) as [digit Ed].
  destruct (detect_threshold samples) as [threshold|] eqn:Et.
  2:{ unfold detect_threshold in Et. destruct samples; [congruence|discriminate]. }
  unfold detect_dtmf_digit. rewrite El, Eh, Et. simpl.
  unfold decide.
  destruct (passes_threshold threshold (band_mag low) (band_mag high)) eqn:Ep.
  - destruct (np_lt (ratio_of (band_mag low) (band_mag high)) 4) eqn:Er.
    + rewrite Hlf, Hhf. simpl.
      eexists low, high, lf, hf, digit, threshold, _.
      repeat (split; [first [eassumption|reflexivity]|]).
      split; [intros _; simpl; exact Ed|].
      intros Hn. exfalso. apply Hn.
      apply passes_threshold_iff in Ep. apply np_lt_iff in Er. tauto.
    + eexists low, high, lf, hf, digit, threshold, _.
      repeat (split; [first [eassumption|reflexivity]|]).
      split; [|intros _; reflexivity].
      intros [_ [_ Hr]]. apply np_lt_iff in Hr. congruence.
  - eexists low, high, lf, hf, digit, threshold, _.
    repeat (split; [first [eassumption|reflexivity]|]).
    split; [|intros _; reflexivity].
    intros [H1 [H2 _]].
    assert (passes_threshold threshold (band_mag low) (band_mag high) = true)
      by (apply passes_threshold_iff; tauto).
    congruence.
Qed.

Lemma detect_dtmf_digit_decision_witness :
  exists low high lf hf digit threshold det,
    best_of_band (flat_goertzel 1) [9; -8]%Z low_freqs 11025%Z = Some low /\
    best_of_band (flat_goertzel 1) [9; -8]%Z high_freqs 11025%Z = Some high /\
    nth_error low_freqs (band_idx low) = Some lf /\
    nth_error high_freqs (band_idx high) = Some hf /\
    dict_get dtmf_map (lf, hf) = Some digit /\
    detect_threshold [9; -8]%Z = Some threshold /\
    detect_dtmf_digit (flat_goertzel 1) [9; -8]%Z 11025%Z = Some det /\
    (((threshold < band_mag low)%Q /\ (threshold < band_mag high)%Q /\
      twist_ok (band_mag low) (band_mag high) 4) ->
     d_digit det = Some digit) /\
    (~ ((threshold < band_mag low)%Q /\ (threshold < band_mag high)%Q /\
        twist_ok (band_mag low) (band_mag high) 4) ->
     d_digit det = None).
Proof.
  apply (detect_dtmf_digit_decision (flat_goertzel 1) [9; -8]%Z 11025%Z).
  - discriminate.
  - intros f _. exists 1. reflexivity.
Defined.

(** C2 as stated fails on [detect_dtmf_digit].  With both best magnitudes
    equal to the threshold (samples 10, -9: every magnitude is 1 and the
    threshold is 1) the claim's [>=] accepts the digit 1 and the code's
    [>] returns none; and the code has no gate: on the samples 9, -8 it
    returns the digit 1, which the claim denies when the gate is
    inactive. *)
Lemma detect_is_strict_and_ungated :
  detect_threshold [10; -9]%Z = Some (inject_Z 10 * (1 # 10)) /\
  inject_Z 10 * (1 # 10) == 1 /\
  option_map d_digit (detect_dtmf_digit (flat_goertzel 1) [10; -9]%Z 11025)
  = Some None /\
  decode true 1 4 697 1209 1 1 = Some "1"%string /\
  option_map d_digit (detect_dtmf_digit (flat_goertzel 1) [9; -8]%Z 11025)
  = Some (Some "1"%string) /\
  decode false (9 # 10) 4 697 1209 1 1 = None.
Proof.
  repeat split; vm_compute; reflexivity.
Qed.

(** ** Digit event bookkeeping *)

Lemma opt_string_eqb_eq (a b : option string) :
  opt_string_eqb a b = true <-> a = b.
Proof.
  destruct a as [x|], b as [y|]; simpl; split; intros H;
    try discriminate; try reflexivity.
  - apply String.eqb_eq in H. now subst.
  - inversion H. apply String.eqb_refl.
Qed.

Lemma opt_string_eqb_neq (a b : option string) :
  opt_string_eqb a b = false <-> a <> b.
Proof.
  split.
  - intros H E. apply opt_string_eqb_eq in E. congruence.
  - intros H. destruct (opt_string_eqb a b) eqn:E; [|reflexivity].
    apply opt_string_eqb_eq in E. contradiction.
Qed.

Lemma truthy_some (d : option string) :
  truthy d = true -> exists x, d = Some x.
Proof. destruct d as [x|]; [now exists x|discriminate]. Qed.

Lemma digit_ok_falsy (d : option string) :
  digit_ok d -> truthy d = false -> d = None.
Proof. intros [H|H] E; [exact H|congruence]. Qed.

Lemma asm_inv_falsy (st : AsmState) :
  asm_inv st -> truthy (last_digit st) = false -> last_digit st = None.
Proof. intros [H|[H _]] E; [exact H|congruence]. Qed.

Lemma emit_open (rate : Z) (st : AsmState) (now : Z) (d : string) (s : Z) :
  last_digit st = Some d -> digit_start st = Some s ->
  emit rate st now
  = detected_digits st ++ [closed_event rate d s now (digit_info st)].
Proof. intros Hd Hs. unfold emit. rewrite Hd, Hs. reflexivity. Qed.

Lemma asm_step_facts (rate : Z) (st : AsmState) (i : Z)
  (digit : option string) (info : option DigitInfo) :
  asm_inv st -> digit_ok digit ->
  let st' := asm_step rate st (i, digit, info) in
  asm_inv st' /\
  last_digit st' = digit /\
  (forall d s,
      digit <> last_digit st ->
      last_digit st = Some d -> digit_start st = Some s ->
      detected_digits st'
      = detected_digits st ++ [closed_event rate d s i (digit_info st)]) /\
  (digit = last_digit st \/ last_digit st = None ->
      detected_digits st' = detected_digits st) /\
  (digit <> None -> digit <> last_digit st ->
      digit_start st' = Some i /\ digit_info st' = info) /\
  (digit = None \/ digit = last_digit st ->
      digit_start st' = digit_start st /\ digit_info st' = digit_info st).
Proof.
  intros Hinv Hok. unfold asm_step.
  destruct (truthy digit) eqn:Ht.
  - destruct (opt_string_eqb digit (last_digit st)) eqn:Eq; simpl.
    + apply opt_string_eqb_eq in Eq.
      repeat split; try tauto; try congruence.
    + apply opt_string_eqb_neq in Eq.
      split; [right; split; [exact Ht|now exists i]|].
      split; [reflexivity|].
      split.
      { intros d s _ Hd Hs.
        assert (truthy (last_digit st) = true) as ->.
        { destruct Hinv as [H|[H _]]; [congruence|exact H]. }
        now apply emit_open. }
      split.
      { intros [H|H]; [congruence|]. rewrite H. reflexivity. }
      split; [intros _ _; split; reflexivity|].
      intros [H|H]; [rewrite H in Ht; discriminate|congruence].
  - pose proof (digit_ok_falsy digit Hok Ht) as Hnone. subst digit.
    destruct (truthy (last_digit st)) eqn:Hl; simpl.
    + split; [now left|]. split; [reflexivity|].
      split; [intros d s _ Hd Hs; now apply emit_open|].
      split.
      { intros [H|H]; rewrite <- H in Hl || rewrite H in Hl; discriminate. }
      split; [congruence|]. intros _. split; reflexivity.
    + pose proof (asm_inv_falsy st Hinv Hl) as Hn.
      split; [exact Hinv|]. split; [now symmetry|].
      split; [intros d s _ Hd _; congruence|].
      split; [reflexivity|].
      split; [congruence|]. intros _. split; reflexivity.
Qed.

Lemma asm_fold_inv (rate : Z) (ws : list Classified) :
  Forall (fun w => digit_ok (snd (fst w))) ws ->
  forall st, asm_inv st -> asm_inv (fold_left (asm_step rate) ws st).
Proof.
  induction 1 as [|[[i digit] info] ws Hok Hall IH]; intros st Hinv.
  - exact Hinv.
  - simpl fold_left. apply IH.
    apply (asm_step_facts rate st i digit info Hinv Hok).
Qed.

Lemma asm_same_digit_run (rate : Z) (d : string)
  (rest : list (Z * option DigitInfo)) :
  forall st, last_digit st = Some d -> d <> EmptyString ->
    fold_left (asm_step rate)
      (map (fun x : Z * option DigitInfo => (fst x, Some d, snd x)) rest) st
    = st.
Proof.
  induction rest as [|[i info] rest IH]; intros st Hd Hne; simpl.
  - reflexivity.
  - assert (E : asm_step rate st (i, Some d, info) = st).
    { unfold asm_step. simpl truthy.
      destruct (String.eqb_spec d EmptyString) as [->|_]; [congruence|].
      simpl. rewrite Hd. simpl. now rewrite String.eqb_refl. }
    unfold asm_step in E. simpl in E. unfold asm_step. simpl.
    rewrite E. now apply IH.
Qed.

Lemma dict_get_nonempty (key : Z * Z) (d : string) :
  dict_get dtmf_map key = Some d -> truthy (Some d) = true.
Proof.
  unfold dtmf_map, DTMF_MAP. simpl.
  repeat match goal with
         | |- context [if ?c then _ else _] => destruct c
         end;
    intros E; inversion E; reflexivity.
Qed.

(** Every digit the sweep classifies is [None] or a non-empty string. *)
Lemma classify_window_digit_ok (goertzel : list Z -> Z -> Z -> option Q)
  (p : Params) (window : list Z) (digit : option string)
  (info : option DigitInfo) :
  classify_window goertzel p window = Some (digit, info) -> digit_ok digit.
Proof.
  unfold classify_window.
  destruct (best_of_band goertzel window low_freqs rate) as [low|];
    [|discriminate].
  destruct (best_of_band goertzel window high_freqs rate) as [high|];
    [|discriminate].
  destruct (sweep_peak_amp window) as [peak|]; [|discriminate].
  cbn [bind].
  destruct (passes_threshold _ _ _); [|intros E; inversion E; now left].
  destruct (np_lt _ _); [|intros E; inversion E; now left].
  destruct (nth_error low_freqs (band_idx low)) as [lf|]; [|discriminate].
  destruct (nth_error high_freqs (band_idx high)) as [hf|]; [|discriminate].
  cbn [bind].
  remember (dict_get dtmf_map (lf, hf)) as r eqn:Er.
  intros E. injection E as Ed _. subst digit.
  destruct r as [d|]; [|now left].
  right. symmetry in Er. now apply (dict_get_nonempty (lf, hf)).
Qed.

(** The bookkeeping on six windows decoding none, 1, 1, none, 4, 7 at
    11025 Hz, hop 100 samples, buffer of 600 samples. *)
Lemma assemble_three_events :
  map (fun e => (ev_digit e, Qred (ev_start e), Qred (ev_duration_ms e)))
      (assemble 11025 600
         [ (0, None, None); (100, Some "1", None); (200, Some "1", None);
           (300, None, None); (400, Some "4", None);
           (500, Some "7", None) ]%Z%string)
  = [ ("1", 4 # 441, 8000 # 441); ("4", 16 # 441, 4000 # 441);
      ("7", 20 # 441, 4000 # 441) ]%string.
Proof. vm_compute. reflexivity. Qed.

(** C8. The bookkeeping is a single forward pass over the classified
    windows with the state [last_digit], [digit_start].  A step emits
    [(last_digit, digit_start/rate, (now - digit_start)/rate*1000)]
    exactly when the new digit differs from [last_digit] and an event is
    open; it opens a new event at the current window exactly when the new
    digit is not none and differs from [last_digit]; after the loop an
    open event is closed with the buffer length as end; a run of windows
    with one digit gives exactly one event; the duration is the time
    between start and close, in milliseconds. *)
Theorem assembler_debounce (rate len : Z) :
  (forall st i digit info,
      asm_inv st -> digit_ok digit ->
      let st' := asm_step rate st (i, digit, info) in
      asm_inv st' /\
      last_digit st' = digit /\
      (forall d s,
          digit <> last_digit st ->
          last_digit st = Some d -> digit_start st = Some s ->
          detected_digits st'
          = detected_digits st ++ [closed_event rate d s i (digit_info st)]) /\
      (digit = last_digit st \/ last_digit st = None ->
          detected_digits st' = detected_digits st) /\
      (digit <> None -> digit <> last_digit st ->
          digit_start st' = Some i /\ digit_info st' = info) /\
      (digit = None \/ digit = last_digit st ->
          digit_start st' = digit_start st /\
          digit_info st' = digit_info st)) /\
  (forall ws,
      Forall (fun w => digit_ok (snd (fst w))) ws ->
      let st := fold_left (asm_step rate) ws asm_init in
      asm_inv st /\
      (forall d s,
          last_digit st = Some d -> digit_start st = Some s ->
          assemble rate len ws
          = detected_digits st ++ [closed_event rate d s len (digit_info st)]) /\
      (last_digit st = None -> assemble rate len ws = detected_digits st)) /\
  (forall d i0 info0 rest,
      d <> EmptyString ->
      assemble rate len
        ((i0, Some d, info0)
           :: map (fun x : Z * option DigitInfo => (fst x, Some d, snd x)) rest)
      = [closed_event rate d i0 len info0]) /\
  (forall s now,
      rate <> 0%Z ->
      inject_Z (now - s) / inject_Z rate * 1000
      == (inject_Z now / inject_Z rate - inject_Z s / inject_Z rate) * 1000).
Proof.
  split; [|split; [|split]].
  - intros st i digit info Hinv Hok. apply asm_step_facts; assumption.
  - intros ws Hall st.
    assert (Hinv : asm_inv st)
      by (apply asm_fold_inv; [exact Hall|now left]).
    split; [exact Hinv|]. unfold assemble. fold st. split.
    + intros d s Hd Hs.
      assert (truthy (last_digit st) = true) as ->.
      { destruct Hinv as [H|[H _]]; [congruence|exact H]. }
      now apply emit_open.
    + intros Hn. rewrite Hn. reflexivity.
  - intros d i0 info0 rest Hne.
    unfold assemble.
    change (fold_left (asm_step rate)
              ((i0, Some d, info0)
                 :: map (fun x : Z * option DigitInfo => (fst x, Some d, snd x))
                      rest) asm_init)
      with (fold_left (asm_step rate)
              (map (fun x : Z * option DigitInfo => (fst x, Some d, snd x))
                 rest)
              (asm_step rate asm_init (i0, Some d, info0))).
    assert (E1 : asm_step rate asm_init (i0, Some d, info0)
                 = {| detected_digits := []; last_digit := Some d;
                      digit_start := Some i0; digit_info := info0 |}).
    { unfold asm_step. simpl.
      destruct (String.eqb_spec d EmptyString) as [->|_]; [congruence|].
      reflexivity. }
    rewrite E1, asm_same_digit_run by (simpl; congruence).
    simpl. destruct (String.eqb_spec d EmptyString) as [->|_]; [congruence|].
    reflexivity.
  - intros s now Hrate.
    assert (Hr : ~ inject_Z rate == 0).
    { unfold Qeq. simpl. lia. }
    unfold Z.sub. rewrite inject_Z_plus, inject_Z_opp. field. exact Hr.
Qed.

Lemma assembler_debounce_witness :
  (forall st i digit info,
      asm_inv st -> digit_ok digit ->
      let st' := asm_step 11025%Z st (i, digit, info) in
      asm_inv st' /\
      last_digit st' = digit /\
      (forall d s,
          digit <> last_digit st ->
          last_digit st = Some d -> digit_start st = Some s ->
          detected_digits st'
          = detected_digits st ++ [closed_event 11025%Z d s i (digit_info st)]) /\
      (digit = last_digit st \/ last_digit st = None ->
          detected_digits st' = detected_digits st) /\
      (digit <> None -> digit <> last_digit st ->
          digit_start st' = Some i /\ digit_info st' = info) /\
      (digit = None \/ digit = last_digit st ->
          digit_start st' = digit_start st /\
          digit_info st' = digit_info st)) /\
  (forall ws,
      Forall (fun w => digit_ok (snd (fst w))) ws ->
      let st := fold_left (asm_step 11025%Z) ws asm_init in
      asm_inv st /\
      (forall d s,
          last_digit st = Some d -> digit_start st = Some s ->
          assemble 11025%Z 44100%Z ws
          = detected_digits st ++ [closed_event 11025%Z d s 44100%Z (digit_info st)]) /\
      (last_digit st = None -> assemble 11025%Z 44100%Z ws = detected_digits st)) /\
  (forall d i0 info0 rest,
      d <> EmptyString ->
      assemble 11025%Z 44100%Z
        ((i0, Some d, info0)
           :: map (fun x : Z * option DigitInfo => (fst x, Some d, snd x)) rest)
      = [closed_event 11025%Z d i0 44100%Z info0]) /\
  (forall s now,
      11025%Z <> 0%Z ->
      inject_Z (now - s) / inject_Z 11025%Z * 1000
      == (inject_Z now / inject_Z 11025%Z - inject_Z s / inject_Z 11025%Z) * 1000).
Proof.
  exact (assembler_debounce 11025 44100).
Defined.

End LogsFacts.

(* ====================================================================== *)
(** * Properties of the report generator *)
(* ====================================================================== *)

Module ToolsFacts.

Import Py Dtmf Tools Design Aux SegAux PyFacts DtmfFacts.
Local Open Scope Q_scope.

(** ** Region segmenter *)

Lemma last_cons {A} (x : A) (l : list A) (d : A) :
  List.last (x :: l) d = List.last l x.
Proof.
  revert x d. induction l as [|y l IH]; intros x d.
  - reflexivity.
  - change (List.last (x :: y :: l) d) with (List.last (y :: l) d).
    rewrite (IH y d). symmetry. apply IH.
Qed.

Lemma seg_scan_refines (ws : list Window) :
  forall st sst lw,
    seg_rel st sst ->
    finish (fold_left seg_step ws st) (List.last (map Some ws) lw)
    = tone_regions_acc st ++ segment sst (option_map time lw) (map view ws).
Proof.
  induction ws as [|w ws IH]; intros st sst lw Hrel.
  - simpl. unfold finish.
    inversion Hrel as [st' Hin | st' s Hin Hstart]; subst.
    + rewrite Hin. now rewrite app_nil_r.
    + rewrite Hin. destruct lw as [w|]; simpl.
      * unfold append_region. now rewrite Hstart.
      * now rewrite app_nil_r.
  - rewrite map_cons, last_cons. simpl fold_left.
    change (map view (w :: ws)) with (view w :: map view ws).
    unfold view at 1. simpl segment.
    inversion Hrel as [st' Hin | st' s Hin Hstart]; subst.
    + unfold seg_step. rewrite Hin. simpl negb.
      destruct (is_active w) eqn:Hact.
      * erewrite IH by (apply rel_inside; simpl; reflexivity).
        reflexivity.
      * erewrite IH by (apply rel_outside; exact Hin). reflexivity.
    + unfold seg_step. rewrite Hin. simpl negb.
      destruct (is_active w) eqn:Hact.
      * erewrite IH by (apply rel_inside; eassumption). reflexivity.
      * erewrite IH by (apply rel_outside; reflexivity).
        simpl. unfold append_region. rewrite Hstart.
        now rewrite <- app_assoc.
Qed.

(** C4 (amended). Started outside, scanning the windows in order, the
    segmenter opens a region exactly when the gate goes from inactive to
    active and closes it exactly when the gate goes back to inactive, and a
    region still open at the end of the stream is closed at the last
    window; every boundary it records is the window's stored timestamp
    [w['time']], which is the centre time of the window. *)
Theorem tone_regions_state_machine (windows : list Window) :
  tone_regions windows = segment OUTSIDE None (map view windows).
Proof.
  unfold tone_regions, seg_scan.
  change (if in_region (fold_left seg_step windows seg_init)
          then match List.last (map Some windows) None with
               | Some w_last =>
                   append_region (fold_left seg_step windows seg_init)
                     (time w_last)
               | None => tone_regions_acc (fold_left seg_step windows seg_init)
               end
          else tone_regions_acc (fold_left seg_step windows seg_init))
    with (finish (fold_left seg_step windows seg_init)
                 (List.last (map Some windows) None)).
  rewrite (seg_scan_refines windows seg_init OUTSIDE None).
  - reflexivity.
  - apply rel_outside. reflexivity.
Qed.

(** C4 as stated fails.  A recording of four samples stuck at -32768,
    cut at 8000 samples per second into windows of two samples at hop
    one, has two windows, at sample offsets 0 and 1, both above the gate.
    The region that opens with the window at offset 0 (start time 0) is
    recorded as starting at 1/8000 s, the centre of that window, and as
    ending at 2/8000 s, the centre of the last window; with the windows'
    start times it would be the region from 0 to 1/8000 s. *)
Lemma tone_regions_use_centre_not_start :
  exists ws : list Window,
    window_offsets 4 2 1 = Some [0; 1]%Z /\
    map (chunk_at full_scale_recording 2) [0; 1]%Z
    = [[-32768; -32768]; [-32768; -32768]]%Z /\
    analyse_windows full_scale_measure full_scale_recording 8000 2 1
    = Some ws /\
    map time ws = [1 # 8000; 2 # 8000] /\
    map is_active ws = [true; true] /\
    tone_regions ws = [(1 # 8000, 2 # 8000)] /\
    segment OUTSIDE None
      (combine (map is_active ws) (map (window_start_time 8000) [0; 1]%Z))
    = [(0 # 8000, 1 # 8000)] /\
    ~ (1 # 8000 == window_start_time 8000 0).
Proof.
  eexists. repeat split; try (vm_compute; reflexivity).
  vm_compute. discriminate.
Qed.

(** ** Windower *)

Lemma range_ascending (stop step : Z) :
  (1 <= step)%Z ->
  exists n : nat,
    range 0 stop step = Some (map (fun j => (Z.of_nat j * step)%Z) (seq 0 n)) /\
    (forall j, (j < n)%nat -> (Z.of_nat j * step < stop)%Z) /\
    (forall j, (Z.of_nat j * step < stop)%Z -> (j < n)%nat).
Proof.
  intros Hstep.
  exists (range_len 0 stop step).
  unfold range.
  destruct (Z.eqb_spec step 0) as [E|_]; [lia|].
  split; [reflexivity|].
  unfold range_len.
  destruct (Z.ltb_spec 0 step) as [_|E]; [|lia].
  destruct (Z.ltb_spec 0 stop) as [Hpos|Hneg].
  - rewrite Z.sub_0_r.
    pose proof (Z.mul_div_le (stop - 1) step ltac:(lia)) as Hlo.
    pose proof (Z.mul_succ_div_gt (stop - 1) step ltac:(lia)) as Hhi.
    assert (Hq : (0 <= (stop - 1) / step)%Z)
      by (apply Z.div_pos; lia).
    split; intros j Hj.
    + assert (Z.of_nat j <= (stop - 1) / step)%Z by lia. nia.
    + assert (Z.of_nat j <= (stop - 1) / step)%Z by nia. lia.
  - split; intros j Hj; [lia | nia].
Qed.

Lemma chunk_in_range (data : list Z) (window_n i : Z) :
  (0 <= i)%Z -> (0 <= window_n)%Z ->
  (i + window_n <= Z.of_nat (List.length data))%Z ->
  chunk_at data window_n i
  = firstn (Z.to_nat window_n) (skipn (Z.to_nat i) data) /\
  List.length (chunk_at data window_n i) = Z.to_nat window_n.
Proof.
  intros Hi Hw Hlen.
  assert (E : chunk_at data window_n i
              = firstn (Z.to_nat window_n) (skipn (Z.to_nat i) data)).
  { unfold chunk_at, slice, clamp_index.
    destruct (Z.ltb_spec i 0) as [|_]; [lia|].
    destruct (Z.ltb_spec (i + window_n) 0) as [|_]; [lia|].
    rewrite !Z.min_l by lia.
    replace (i + window_n - i)%Z with window_n by lia.
    reflexivity. }
  split; [exact E|].
  rewrite E, length_firstn, length_skipn. lia.
Qed.

Lemma collect_windows_times (measure : list Z -> ChunkMeasures)
  (data : list Z) (rate window_n : Z) (offsets : list Z) :
  rate <> 0%Z ->
  exists ws,
    collect_windows measure data rate window_n offsets = Some ws /\
    map time ws
    = map (fun i => inject_Z (i + window_n / 2) / inject_Z rate) offsets /\
    map goertzel_low ws
    = map (fun i => map (m_goertzel (measure (chunk_at data window_n i)))
                        DTMF_LOW) offsets.
Proof.
  intros Hrate.
  induction offsets as [|i rest [ws [E [Ht Hg]]]]; simpl.
  - exists []. repeat split.
  - unfold make_window, t_center.
    destruct (Z.eqb_spec rate 0) as [|_]; [contradiction|].
    rewrite E. eexists. split; [reflexivity|].
    simpl. now rewrite Ht, Hg.
Qed.

(** C5 (amended). For [hop >= 1] and [window_length >= 2] the per-window
    loop visits offsets [0, hop, 2*hop, ...] in order; every visited
    offset has [offset + window_length <= len(data)], every such offset
    with [offset + window_length < len(data)] is visited, each chunk is
    the [window_length] samples from its offset (never padded), and the
    window's timestamp is [(offset + window_length // 2) / rate] with an
    integer half. *)
Theorem windower_offsets_chunks_centres
  (measure : list Z -> ChunkMeasures) (data : list Z)
  (rate window_n hop_n : Z) :
  (1 <= hop_n)%Z -> (2 <= window_n)%Z -> rate <> 0%Z ->
  let len := Z.of_nat (List.length data) in
  exists (n : nat) (ws : list Window),
    window_offsets len window_n hop_n
    = Some (map (fun j => (Z.of_nat j * hop_n)%Z) (seq 0 n)) /\
    (forall j, (j < n)%nat -> (Z.of_nat j * hop_n + window_n <= len)%Z) /\
    (forall j, (Z.of_nat j * hop_n + window_n < len)%Z -> (j < n)%nat) /\
    (forall j, (j < n)%nat ->
       let i := (Z.of_nat j * hop_n)%Z in
       chunk_at data window_n i
       = firstn (Z.to_nat window_n) (skipn (Z.to_nat i) data) /\
       List.length (chunk_at data window_n i) = Z.to_nat window_n) /\
    analyse_windows measure data rate window_n hop_n = Some ws /\
    map time ws
    = map (fun j => inject_Z (Z.of_nat j * hop_n + window_n / 2)
                    / inject_Z rate) (seq 0 n).
Proof.
  intros Hhop Hwin Hrate len.
  destruct (range_ascending (len - window_n) hop_n Hhop)
    as [n [Hr [Hin Hall]]].
  destruct (collect_windows_times measure data rate window_n
              (map (fun j => (Z.of_nat j * hop_n)%Z) (seq 0 n)) Hrate)
    as [ws [Hc [Ht _]]].
  exists n, ws.
  split; [exact Hr|].
  split; [intros j Hj; specialize (Hin j Hj); lia|].
  split; [intros j Hj; apply Hall; lia|].
  split.
  - intros j Hj i. specialize (Hin j Hj).
    apply chunk_in_range; unfold i; nia.
  - unfold analyse_windows. fold len.
    unfold window_offsets in Hr |- *. rewrite Hr.
    split; [exact Hc|].
    rewrite Ht, map_map. reflexivity.
Qed.

Lemma windower_offsets_chunks_centres_witness :
  exists (n : nat) (ws : list Window),
    window_offsets 5 2 1
    = Some (map (fun j => (Z.of_nat j * 1)%Z) (seq 0 n)) /\
    (forall j, (j < n)%nat -> (Z.of_nat j * 1 + 2 <= 5)%Z) /\
    (forall j, (Z.of_nat j * 1 + 2 < 5)%Z -> (j < n)%nat) /\
    (forall j, (j < n)%nat ->
       let i := (Z.of_nat j * 1)%Z in
       chunk_at [10; 20; 30; 40; 50]%Z 2 i
       = firstn (Z.to_nat 2) (skipn (Z.to_nat i) [10; 20; 30; 40; 50]%Z) /\
       List.length (chunk_at [10; 20; 30; 40; 50]%Z 2 i) = Z.to_nat 2) /\
    analyse_windows loud_measure [10; 20; 30; 40; 50]%Z 4 2 1 = Some ws /\
    map time ws
    = map (fun j => inject_Z (Z.of_nat j * 1 + 2 / 2) / inject_Z 4)
          (seq 0 n).
Proof.
  apply (windower_offsets_chunks_centres loud_measure
           [10; 20; 30; 40; 50]%Z 4 2 1); lia.
Defined.

(** C5 as stated fails twice.  A buffer of exactly two windows
    ([len = 4], [window_length = 2], [hop = 2]) yields only the window at
    offset 0, although offset 2 satisfies [2 + 2 <= 4]; and for the odd
    [window_length = 3] the timestamp of the window at offset 0 is
    [(0 + 1) / rate], not [(0 + 3/2) / rate]. *)
Lemma windower_boundary_and_odd_centre :
  window_offsets 4 2 2 = Some [0]%Z /\
  (2 + 2 <= 4)%Z /\
  t_center 1 3 0 = Some (1 # 1) /\
  ~ (1 # 1 == (inject_Z 0 + inject_Z 3 / 2) / inject_Z 1).
Proof.
  repeat split; try (vm_compute; reflexivity); try lia.
  vm_compute. discriminate.
Qed.

(** ** Region consensus *)

(** The records built by the per-window loop carry four magnitudes per
    band. *)
Lemma analyse_windows_well_formed (measure : list Z -> ChunkMeasures)
  (data : list Z) (rate window_n hop_n : Z) (ws : list Window) :
  analyse_windows measure data rate window_n hop_n = Some ws ->
  Forall well_formed ws.
Proof.
  unfold analyse_windows.
  destruct (window_offsets _ window_n hop_n) as [offsets|]; [|discriminate].
  revert ws. induction offsets as [|i rest IH]; intros ws; simpl.
  - intros E. inversion E. constructor.
  - unfold make_window.
    destruct (t_center rate window_n i) as [t|]; [|discriminate].
    destruct (collect_windows measure data rate window_n rest) as [ws'|];
      [|discriminate].
    intros E. inversion E; subst. constructor.
    + split; reflexivity.
    + now apply IH.
Qed.

Lemma winner_freq_in (freqs : list Z) (mags : list Q) :
  List.length mags = List.length freqs -> mags <> [] ->
  exists f, winner_freq freqs mags = Some f /\ In f freqs.
Proof.
  intros Hlen Hne.
  destruct (argmax_bound mags Hne) as [i [Hi Hlt]].
  unfold winner_freq. rewrite Hi. simpl.
  destruct (nth_error freqs i) as [f|] eqn:E.
  - exists f. split; [reflexivity|]. eapply nth_error_In; eassumption.
  - apply nth_error_None in E. lia.
Qed.

Lemma band_winners_total (freqs : list Z) (band : Window -> list Q)
  (wins : list Window) :
  freqs <> [] ->
  Forall (fun w => List.length (band w) = List.length freqs) wins ->
  exists vals,
    band_winners freqs band wins = Some vals /\
    List.length vals = List.length wins /\
    forall v, In v vals -> In v freqs.
Proof.
  intros Hf Hall. unfold band_winners.
  induction Hall as [|w wins Hw Hall [vals [E [Hl Hin]]]].
  - exists []. repeat split. intros v [].
  - destruct (winner_freq_in freqs (band w) Hw) as [f [Ef Hfin]].
    { destruct (band w); [|discriminate].
      destruct freqs; [congruence|discriminate]. }
    exists (f :: vals). simpl. rewrite Ef. simpl. rewrite E. simpl.
    repeat split; [now rewrite Hl|].
    intros v [<-|Hv]; [exact Hfin|now apply Hin].
Qed.

Lemma band_consensus_vote (freqs : list Z) (band : Window -> list Q)
  (wins : list Window) :
  freqs <> [] -> wins <> [] ->
  Forall (fun w => List.length (band w) = List.length freqs) wins ->
  exists vals k,
    band_winners freqs band wins = Some vals /\
    majority_vote vals = Some k /\
    In k freqs /\
    band_consensus freqs band wins = Some (k, votes k vals).
Proof.
  intros Hf Hne Hall.
  destruct (band_winners_total freqs band wins Hf Hall)
    as [vals [E [Hl Hin]]].
  destruct (majority_vote_nonempty vals) as [k Hk].
  { destruct vals; [|discriminate]. destruct wins; [congruence|discriminate]. }
  exists vals, k. split; [exact E|]. split; [exact Hk|].
  split; [apply Hin; now apply majority_vote_In|].
  unfold band_consensus. unfold band_winners in E. rewrite E. simpl.
  rewrite most_common1_Counter, Hk. reflexivity.
Qed.

Lemma region_wins_well_formed (windows : list Window) (r : Q * Q) :
  Forall well_formed windows -> Forall well_formed (region_wins windows r).
Proof.
  intros H. apply Forall_forall. intros w Hw.
  unfold region_wins in Hw. apply filter_In in Hw.
  rewrite Forall_forall in H. apply H. tauto.
Qed.

(** The row produced for a region with at least one active window. *)
Lemma analyse_region_row (windows : list Window) (idx : nat) (r : Q * Q) :
  Forall well_formed windows ->
  region_wins windows r <> [] ->
  exists lows highs lf hf,
    band_winners DTMF_LOW goertzel_low (region_wins windows r) = Some lows /\
    band_winners DTMF_HIGH goertzel_high (region_wins windows r) = Some highs /\
    majority_vote lows = Some lf /\
    majority_vote highs = Some hf /\
    In lf DTMF_LOW /\ In hf DTMF_HIGH /\
    analyse_region windows idx r
    = Some (Some {| region := S idx;
                    r_start := fst r; r_end := snd r;
                    duration := (snd r - fst r)%Q;
                    num_windows := List.length (region_wins windows r);
                    g_low_freq := lf; g_low_count := votes lf lows;
                    g_high_freq := hf; g_high_count := votes hf highs;
                    g_digit := dict_get_default DTMF_MAP (lf, hf) "?" |}).
Proof.
  intros Hwf Hne.
  pose proof (region_wins_well_formed windows r Hwf) as Hwf'.
  destruct (band_consensus_vote DTMF_LOW goertzel_low
              (region_wins windows r)) as [lows [lf [El [Vl [Il Cl]]]]];
    [discriminate|exact Hne| |].
  { eapply Forall_impl; [|exact Hwf']. intros w [H _]. exact H. }
  destruct (band_consensus_vote DTMF_HIGH goertzel_high
              (region_wins windows r)) as [highs [hf [Eh [Vh [Ih Ch]]]]];
    [discriminate|exact Hne| |].
  { eapply Forall_impl; [|exact Hwf']. intros w [_ H]. exact H. }
  exists lows, highs, lf, hf.
  repeat (split; [assumption|]).
  unfold analyse_region.
  destruct (region_wins windows r) as [|w0 wins] eqn:E; [congruence|].
  rewrite Cl, Ch. reflexivity.
Qed.

Lemma members_empty_wins_empty (windows : list Window) (r : Q * Q) :
  region_members windows r = [] -> region_wins windows r = [].
Proof.
  unfold region_members, region_wins.
  induction windows as [|w ws IH]; [reflexivity|].
  simpl. destruct (in_span r w); [discriminate|]. simpl. exact IH.
Qed.

(** C3 (amended). For a region with at least one active member window:
    the representative is a member window whose RMS energy is maximal
    among the members; the consensus digit is the table entry of the pair
    (majority low-band winner, majority high-band winner), each band being
    voted separately over all active member windows with ties going to the
    value that occurs first; and the consensus digit is determined by the
    two lists of band winners alone: any region of any window list whose
    active members have the same band winners gets the same digit,
    whichever window is its representative. *)
Theorem region_representative_and_consensus
  (windows : list Window) (idx : nat) (r : Q * Q) :
  Forall well_formed windows ->
  region_wins windows r <> [] ->
  (exists rep,
      max_by rms (region_members windows r) = Some rep /\
      In rep (region_members windows r) /\
      forall w, In w (region_members windows r) -> (rms w <= rms rep)%Q) /\
  (exists lows highs lf hf row,
      band_winners DTMF_LOW goertzel_low (region_wins windows r) = Some lows /\
      band_winners DTMF_HIGH goertzel_high (region_wins windows r)
      = Some highs /\
      majority_vote lows = Some lf /\
      majority_vote highs = Some hf /\
      analyse_region windows idx r = Some (Some row) /\
      g_digit row = dict_get_default DTMF_MAP (lf, hf) "?" /\
      forall windows' idx' r',
        Forall well_formed windows' ->
        band_winners DTMF_LOW goertzel_low (region_wins windows' r')
        = Some lows ->
        band_winners DTMF_HIGH goertzel_high (region_wins windows' r')
        = Some highs ->
        exists row',
          analyse_region windows' idx' r' = Some (Some row') /\
          g_digit row' = g_digit row).
Proof.
  intros Hwf Hne. split.
  - pose proof (max_by_spec rms (region_members windows r)) as H.
    destruct (max_by rms (region_members windows r)) as [rep|].
    + exists rep. tauto.
    + exfalso. apply Hne. now apply members_empty_wins_empty.
  - destruct (analyse_region_row windows idx r Hwf Hne)
      as [lows [highs [lf [hf [El [Eh [Vl [Vh [_ [_ Erow]]]]]]]]]].
    eexists lows, highs, lf, hf, _.
    repeat (split; [eassumption|]). split; [reflexivity|].
    intros windows' idx' r' Hwf' El' Eh'.
    destruct (analyse_region_row windows' idx' r' Hwf')
      as [lows' [highs' [lf' [hf' [El2 [Eh2 [Vl2 [Vh2 [_ [_ Erow']]]]]]]]]].
    { intros Eempty. rewrite Eempty in El'. simpl in El'.
      inversion El' as [Hl]. rewrite <- Hl in Vl. discriminate. }
    rewrite El' in El2. rewrite Eh' in Eh2.
    inversion El2; inversion Eh2; subst lows' highs'.
    rewrite Vl in Vl2. rewrite Vh in Vh2.
    inversion Vl2; inversion Vh2; subst lf' hf'.
    eexists. split; [exact Erow'|]. reflexivity.
Qed.

Lemma region_representative_and_consensus_witness :
  (exists rep,
      max_by rms (region_members split_vote_windows (1, 5)%Q) = Some rep /\
      In rep (region_members split_vote_windows (1, 5)%Q) /\
      forall w, In w (region_members split_vote_windows (1, 5)%Q) -> (rms w <= rms rep)%Q) /\
  (exists lows highs lf hf row,
      band_winners DTMF_LOW goertzel_low (region_wins split_vote_windows (1, 5)%Q) = Some lows /\
      band_winners DTMF_HIGH goertzel_high (region_wins split_vote_windows (1, 5)%Q)
      = Some highs /\
      majority_vote lows = Some lf /\
      majority_vote highs = Some hf /\
      analyse_region split_vote_windows O (1, 5)%Q = Some (Some row) /\
      g_digit row = dict_get_default DTMF_MAP (lf, hf) "?" /\
      forall windows' idx' r',
        Forall well_formed windows' ->
        band_winners DTMF_LOW goertzel_low (region_wins windows' r')
        = Some lows ->
        band_winners DTMF_HIGH goertzel_high (region_wins windows' r')
        = Some highs ->
        exists row',
          analyse_region windows' idx' r' = Some (Some row') /\
          g_digit row' = g_digit row).
Proof.
  apply (region_representative_and_consensus split_vote_windows O (1, 5)%Q).
  - repeat constructor.
  - vm_compute. discriminate.
Defined.

(** C3 as stated fails.  Five active windows of one region decode
    1, 1, 2, 5, 8: the majority vote over the decoded digits is 1, but the
    region's consensus digit is 2, because 697 Hz wins the low band (three
    votes) and 1336 Hz wins the high band (three votes). *)
Lemma consensus_is_not_digit_majority :
  tone_regions split_vote_windows = [(1, 5)%Q] /\
  region_wins split_vote_windows (1, 5)%Q = split_vote_windows /\
  option_map (map row_g_digit) (window_table split_vote_windows)
  = Some ["1"; "1"; "2"; "5"; "8"]%string /\
  majority_digit ["1"; "1"; "2"; "5"; "8"]%string = Some "1"%string /\
  option_map (map g_digit) (tone_region_analysis split_vote_windows)
  = Some ["2"]%string.
Proof.
  repeat split; vm_compute; reflexivity.
Qed.

Lemma analyse_regions_decoded (windows : list Window) :
  Forall well_formed windows ->
  forall regions idx,
  exists rows,
    analyse_regions windows idx regions = Some rows /\
    List.length rows = List.length (filter (has_active windows) regions) /\
    Forall (fun row =>
              decoded (g_low_freq row) (g_high_freq row) (g_digit row)) rows.
Proof.
  intros Hwf regions.
  induction regions as [|r rest IH]; intros idx.
  - exists []. repeat split. constructor.
  - destruct (IH (S idx)) as [rows [E [Hlen Hall]]].
    simpl. unfold has_active at 1.
    destruct (region_wins windows r) as [|w0 ws0] eqn:Ew.
    + exists rows. unfold analyse_region. rewrite Ew. simpl. rewrite E.
      simpl. auto.
    + destruct (analyse_region_row windows idx r Hwf)
        as [lows [highs [lf [hf [_ [_ [_ [_ [Il [Ih Erow]]]]]]]]]];
        [rewrite Ew; discriminate|].
      rewrite Ew in Erow. rewrite Erow. simpl. rewrite E. simpl.
      eexists. split; [reflexivity|]. split; [simpl; now rewrite Hlen|].
      constructor; [|exact Hall].
      destruct (DTMF_MAP_total lf hf Il Ih) as [d [Ed Hd]].
      unfold decoded. simpl. unfold dict_get_default. rewrite Ed.
      repeat split; assumption.
Qed.

(** C10. With window records as the per-window loop builds them, every
    tone region that has at least one active member window yields a row
    whose digit is the table entry of a low and a high DTMF frequency:
    the ['?'] default of the lookup is never taken, and no magnitude or
    twist condition enters.  The gated detections are exactly these
    digits, one per region with an active member. *)
Theorem region_consensus_always_decodes (windows : list Window) :
  Forall well_formed windows ->
  (forall idx r,
      region_wins windows r <> [] ->
      exists row,
        analyse_region windows idx r = Some (Some row) /\
        decoded (g_low_freq row) (g_high_freq row) (g_digit row)) /\
  (exists rows dets,
      tone_region_analysis windows = Some rows /\
      gated_detections windows = Some dets /\
      map det_digit dets = map g_digit rows /\
      List.length rows
      = List.length (filter (has_active windows) (tone_regions windows)) /\
      Forall (fun row =>
                decoded (g_low_freq row) (g_high_freq row) (g_digit row))
             rows).
Proof.
  intros Hwf. split.
  - intros idx r Hne.
    destruct (analyse_region_row windows idx r Hwf Hne)
      as [lows [highs [lf [hf [_ [_ [_ [_ [Il [Ih Erow]]]]]]]]]].
    eexists. split; [exact Erow|].
    destruct (DTMF_MAP_total lf hf Il Ih) as [d [Ed Hd]].
    unfold decoded. simpl. unfold dict_get_default. rewrite Ed.
    repeat split; assumption.
  - destruct (analyse_regions_decoded windows Hwf (tone_regions windows) O)
      as [rows [E [Hlen Hall]]].
    eexists rows, _.
    unfold gated_detections, tone_region_analysis. rewrite E. simpl.
    split; [reflexivity|]. split; [reflexivity|].
    split; [now rewrite map_map|].
    split; assumption.
Qed.

Lemma region_consensus_always_decodes_witness :
  (forall idx r,
      region_wins split_vote_windows r <> [] ->
      exists row,
        analyse_region split_vote_windows idx r = Some (Some row) /\
        decoded (g_low_freq row) (g_high_freq row) (g_digit row)) /\
  (exists rows dets,
      tone_region_analysis split_vote_windows = Some rows /\
      gated_detections split_vote_windows = Some dets /\
      map det_digit dets = map g_digit rows /\
      List.length rows
      = List.length (filter (has_active split_vote_windows) (tone_regions split_vote_windows)) /\
      Forall (fun row =>
                decoded (g_low_freq row) (g_high_freq row) (g_digit row))
             rows).
Proof.
  apply (region_consensus_always_decodes split_vote_windows).
  repeat constructor.
Defined.

(** ** Noise floor and absolute threshold *)

Lemma window_goertzel_max_best (w : Window) :
  well_formed w ->
  exists best_low best_high,
    winner_mag (goertzel_low w) = Some best_low /\
    winner_mag (goertzel_high w) = Some best_high /\
    window_goertzel_max w = Some (max2 best_low best_high).
Proof.
  intros [Hl Hh].
  unfold window_goertzel_max, winner_mag.
  rewrite !max_list_is_argmax.
  destruct (argmax_bound (goertzel_low w)) as [i [Ei Hi]];
    [destruct (goertzel_low w); discriminate|].
  destruct (argmax_bound (goertzel_high w)) as [j [Ej Hj]];
    [destruct (goertzel_high w); discriminate|].
  rewrite Ei, Ej. simpl.
  destruct (nth_error (goertzel_low w) i) as [bl|] eqn:El;
    [|apply nth_error_None in El; lia].
  destruct (nth_error (goertzel_high w) j) as [bh|] eqn:Eh;
    [|apply nth_error_None in Eh; lia].
  exists bl, bh. simpl. repeat split.
Qed.

Lemma noise_mags_total (ws : list Window) :
  Forall well_formed ws ->
  exists mags,
    map_opt window_goertzel_max ws = Some mags /\
    Forall2 (fun w m =>
               exists best_low best_high,
                 winner_mag (goertzel_low w) = Some best_low /\
                 winner_mag (goertzel_high w) = Some best_high /\
                 m = max2 best_low best_high) ws mags.
Proof.
  induction 1 as [|w ws Hw Hall [mags [E HF]]].
  - exists []. split; [reflexivity|constructor].
  - destruct (window_goertzel_max_best w Hw) as [bl [bh [El [Eh Em]]]].
    exists (max2 bl bh :: mags). simpl. rewrite Em. simpl. rewrite E. simpl.
    split; [reflexivity|]. constructor; [|exact HF].
    exists bl, bh. repeat split; assumption.
Qed.

(** C1 (amended). In the report generator, when at least one window is
    classified as noise the absolute Goertzel threshold is 10 times the
    95th percentile of the per-window [max(best_low_magnitude,
    best_high_magnitude)] over the noise windows; when no window is noise
    it is 10 times the fixed default 1000.  The region-consensus decode of
    the same run rejects nothing: it yields one detection per region with
    an active member window. *)
Theorem abs_threshold_is_ten_noise_floors (windows : list Window) :
  Forall well_formed windows ->
  (noise_windows windows <> [] ->
     exists mags nf,
       map_opt window_goertzel_max (noise_windows windows) = Some mags /\
       Forall2 (fun w m =>
                  exists best_low best_high,
                    winner_mag (goertzel_low w) = Some best_low /\
                    winner_mag (goertzel_high w) = Some best_high /\
                    m = max2 best_low best_high)
               (noise_windows windows) mags /\
       percentile mags 95 = Some nf /\
       abs_goertzel_threshold windows = Some (nf * 10)%Q) /\
  (noise_windows windows = [] ->
     abs_goertzel_threshold windows = Some (1000 * 10)%Q) /\
  (exists dets,
     gated_detections windows = Some dets /\
     List.length dets
     = List.length (filter (has_active windows) (tone_regions windows))).
Proof.
  intros Hwf. split; [|split].
  - intros Hne.
    assert (Hwf' : Forall well_formed (noise_windows windows)).
    { apply Forall_forall. intros w Hw. unfold noise_windows in Hw.
      apply filter_In in Hw. rewrite Forall_forall in Hwf. apply Hwf. tauto. }
    destruct (noise_mags_total _ Hwf') as [mags [E HF]].
    assert (Hm : mags <> []).
    { intros ->. inversion HF as [Hnil|]; subst. congruence. }
    destruct (percentile mags 95) as [nf|] eqn:Ep.
    2:{ destruct mags; [congruence|discriminate]. }
    exists mags, nf. repeat (split; [assumption|]).
    unfold abs_goertzel_threshold, noise_floor_g.
    destruct (noise_windows windows) as [|w0 ws0]; [congruence|].
    rewrite E. simpl. rewrite Ep. reflexivity.
  - intros Hnil. unfold abs_goertzel_threshold, noise_floor_g.
    rewrite Hnil. reflexivity.
  - destruct (analyse_regions_decoded windows Hwf (tone_regions windows) O)
      as [rows [E [Hlen _]]].
    eexists. unfold gated_detections, tone_region_analysis. rewrite E. simpl.
    split; [reflexivity|]. now rewrite length_map.
Qed.

Lemma abs_threshold_is_ten_noise_floors_witness :
  (noise_windows tone_then_quiet <> [] ->
     exists mags nf,
       map_opt window_goertzel_max (noise_windows tone_then_quiet) = Some mags /\
       Forall2 (fun w m =>
                  exists best_low best_high,
                    winner_mag (goertzel_low w) = Some best_low /\
                    winner_mag (goertzel_high w) = Some best_high /\
                    m = max2 best_low best_high)
               (noise_windows tone_then_quiet) mags /\
       percentile mags 95 = Some nf /\
       abs_goertzel_threshold tone_then_quiet = Some (nf * 10)%Q) /\
  (noise_windows tone_then_quiet = [] ->
     abs_goertzel_threshold tone_then_quiet = Some (1000 * 10)%Q) /\
  (exists dets,
     gated_detections tone_then_quiet = Some dets /\
     List.length dets
     = List.length (filter (has_active tone_then_quiet) (tone_regions tone_then_quiet))).
Proof.
  apply (abs_threshold_is_ten_noise_floors tone_then_quiet).
  repeat constructor.
Defined.

End ToolsFacts.

(* ====================================================================== *)
(** * Thresholds and twist ratios across both scripts *)
(* ====================================================================== *)

Module DetectionFacts.

Import Py Dtmf Design Aux PyFacts LogsFacts.
Local Open Scope Q_scope.

Lemma max2_ge_r (a b : Q) : b <= max2 a b.
Proof.
  unfold max2. destruct (Qlt_bool a b) eqn:E.
  - apply Qle_refl.
  - now apply Qlt_bool_false.
Qed.

Lemma np_div_nonzero (a b : Q) : ~ b == 0 -> np_div a b = Some (a / b).
Proof.
  intros H. unfold np_div.
  destruct (Qeq_bool b 0) eqn:E; [|reflexivity].
  apply Qeq_bool_iff in E. contradiction.
Qed.

Lemma guarded_twist_finite (a b : Q) :
  Tools.epsilon <= max2 (min2 a b) Tools.epsilon /\
  Tools.guarded_twist a b
  = Some (max2 a b / max2 (min2 a b) Tools.epsilon).
Proof.
  pose proof (max2_ge_r (min2 a b) Tools.epsilon) as Hge.
  split; [exact Hge|].
  unfold Tools.guarded_twist. apply np_div_nonzero.
  intros E. rewrite E in Hge. revert Hge. unfold Tools.epsilon, Qle. simpl.
  lia.
Qed.

Lemma min2_above (t a b : Q) : t < a -> t < b -> t < min2 a b.
Proof.
  intros Ha Hb. unfold min2. now destruct (Qlt_bool b a).
Qed.

Lemma np_max_ge (a : list Z) (peak : Z) :
  np_max a = Some peak -> forall x, In x a -> (x <= peak)%Z.
Proof.
  destruct a as [|x0 rest]; [discriminate|].
  simpl. intros E. inversion E as [Ep]. clear E Ep.
  assert (G : forall l acc x, (x = acc \/ In x l) ->
                              (x <= fold_left Z.max l acc)%Z).
  { induction l as [|y l IH]; intros acc x [->|H]; simpl.
    - lia.
    - contradiction.
    - etransitivity; [|apply IH; left; reflexivity]. lia.
    - destruct H as [->|H].
      + etransitivity; [|apply IH; left; reflexivity]. lia.
      + apply IH. now right. }
  intros x [<-|H]; apply G; [now left|now right].
Qed.

(** X21. In the report generator every twist ratio divides by
    [max(min(a, b), 1e-10)], which is at least [1e-10], so the division
    is always defined.  In the sweep script the ratio [max/min] has no
    epsilon; it is computed only when both magnitudes are strictly above
    the threshold, so whenever the threshold is non-negative the divisor
    is positive; the sweep's threshold is non-negative when the
    percentage is and the window holds a sample other than -32768. *)
Theorem twist_ratio_divisors :
  (forall a b,
      Tools.epsilon <= max2 (min2 a b) Tools.epsilon /\
      Tools.guarded_twist a b
      = Some (max2 a b / max2 (min2 a b) Tools.epsilon)) /\
  (forall w row,
      Tools.window_row w = Some row ->
      (exists q, Tools.row_fft_twist row = Some q) /\
      (exists q, Tools.row_g_twist row = Some q)) /\
  (forall threshold low_mag high_mag,
      0 <= threshold ->
      Logs.passes_threshold threshold low_mag high_mag = true ->
      0 < min2 low_mag high_mag /\
      Logs.ratio_of low_mag high_mag
      = Some (max2 low_mag high_mag / min2 low_mag high_mag)) /\
  (forall p window peak_amp,
      (0 <= Logs.threshold_pct p)%Z ->
      (exists x, In x window /\ x <> (-32768)%Z) ->
      Logs.sweep_peak_amp window = Some peak_amp ->
      0 <= Logs.sweep_threshold p peak_amp).
Proof.
  split; [|split; [|split]].
  - apply guarded_twist_finite.
  - intros w row H. unfold Tools.window_row in H.
    destruct (Tools.winner_freq DTMF_LOW (Tools.goertzel_low w)); [|discriminate].
    destruct (Tools.winner_freq DTMF_HIGH (Tools.goertzel_high w)); [|discriminate].
    destruct (Tools.winner_mag (Tools.goertzel_low w)) as [gl|]; [|discriminate].
    destruct (Tools.winner_mag (Tools.goertzel_high w)) as [gh|]; [|discriminate].
    simpl in H. inversion H; subst; clear H. simpl.
    split; eexists; apply guarded_twist_finite.
  - intros t lo hi Ht Hp. apply passes_threshold_iff in Hp.
    destruct Hp as [Hlo Hhi].
    assert (Hmin : 0 < min2 lo hi).
    { apply Qle_lt_trans with t; [exact Ht|now apply min2_above]. }
    split; [exact Hmin|].
    unfold Logs.ratio_of. apply np_div_nonzero.
    intros E. rewrite E in Hmin. now apply (Qlt_irrefl 0).
  - intros p window peak Hpct [x [Hin Hx]] Hpeak.
    unfold Logs.sweep_peak_amp in Hpeak.
    pose proof (np_max_ge _ _ Hpeak (abs16 x) (in_map abs16 _ _ Hin)) as Hge.
    assert (0 <= peak)%Z.
    { unfold abs16 in Hge. destruct (Z.eqb_spec x (-32768)); [contradiction|].
      lia. }
    unfold Logs.sweep_threshold.
    apply Qmult_le_0_compat.
    + unfold Qle. simpl. lia.
    + apply Qle_shift_div_l; [reflexivity|].
      rewrite Qmult_0_l. unfold Qle. simpl. lia.
Qed.

Lemma twist_ratio_divisors_witness :
  (0 < min2 3 5 /\ Logs.ratio_of 3 5 = Some (max2 3 5 / min2 3 5)) /\
  0 <= Logs.sweep_threshold
         {| Logs.window_ms := 100; Logs.threshold_pct := 10;
            Logs.twist_ratio := 4; Logs.overlap := 1 # 2 |} 7.
Proof.
  destruct twist_ratio_divisors as [_ [_ [Hlogs Hsweep]]].
  split.
  - apply (Hlogs 1 3 5); [discriminate|reflexivity].
  - apply (Hsweep _ [7; -2]%Z 7%Z).
    + simpl. lia.
    + exists 7%Z. split; [now left|lia].
    + reflexivity.
Defined.

(** C9.  [detect_dtmf_digit] divides by a magnitude that is exactly zero.
    On the window -4, -11, -10, -3 at 3000 Hz the filter returns 10 for
    each low frequency and 0 for each high frequency.  The threshold is
    [np.max(samples) * 0.1 = -3/10], which both best magnitudes exceed, so
    the ratio [max(10, 0) / min(10, 0)] is computed with the divisor 0 and
    no epsilon: the result is not a finite number and no digit is
    returned.  The guarded form of the report generator divides by
    [max(min(10, 0), 1e-10) = 1e-10] and gives [1e11]. *)
Theorem detect_divides_by_zero_magnitude :
  map (fun f => Goertzel.goertzel (map IZR zero_divisor_window) f 3000)
      Logs.low_freqs
  = [Some 10; Some 10; Some 10; Some 10]%R /\
  map (fun f => Goertzel.goertzel (map IZR zero_divisor_window) f 3000)
      Logs.high_freqs
  = [Some 0; Some 0; Some 0; Some 0]%R /\
  map (fun f => band_goertzel 10 0 zero_divisor_window f 3000)
      (Logs.low_freqs ++ Logs.high_freqs)
  = [Some 10; Some 10; Some 10; Some 10; Some 0; Some 0; Some 0; Some 0] /\
  Logs.detect_threshold zero_divisor_window
  = Some (inject_Z (-3) * (1 # 10)) /\
  Logs.passes_threshold (inject_Z (-3) * (1 # 10)) 10 0 = true /\
  min2 10 0 == 0 /\
  Logs.ratio_of 10 0 = None /\
  Tools.guarded_twist 10 0 = Some (100000000000 # 1) /\
  option_map Logs.d_digit
    (Logs.detect_dtmf_digit (band_goertzel 10 0) zero_divisor_window 3000)
  = Some None.
Proof.
  split; [|split].
  - unfold Logs.low_freqs. simpl map.
    rewrite !GoertzelFacts.goertzel_zero_divisor_low
      by (unfold DTMF_LOW; simpl; tauto).
    reflexivity.
  - unfold Logs.high_freqs. simpl map.
    rewrite !GoertzelFacts.goertzel_zero_divisor_high
      by (unfold DTMF_HIGH; simpl; tauto).
    reflexivity.
  - repeat split; vm_compute; reflexivity.
Qed.

(** C1 as stated fails.  When every window is above the gate there is no
    noise window and no percentile: the threshold is 10 times the default
    1000.  And the sweep script's [detect_dtmf_digit] takes 0.1 times the
    largest sample as its threshold: with the same filter magnitudes
    (all 1) the samples 10, -9 give no digit and the samples 9, -8 give
    the digit 1. *)
Lemma threshold_fallback_and_peak_fraction :
  Tools.noise_windows split_vote_windows = [] /\
  percentile [] 95 = None /\
  Tools.abs_goertzel_threshold split_vote_windows = Some (1000 * 10) /\
  Logs.detect_threshold [10; -9]%Z = Some (inject_Z 10 * (1 # 10)) /\
  Logs.detect_threshold [9; -8]%Z = Some (inject_Z 9 * (1 # 10)) /\
  option_map Logs.d_digit
    (Logs.detect_dtmf_digit (flat_goertzel 1) [10; -9]%Z 11025)
  = Some None /\
  option_map Logs.d_digit
    (Logs.detect_dtmf_digit (flat_goertzel 1) [9; -8]%Z 11025)
  = Some (Some "1"%string).
Proof.
  repeat split; vm_compute; reflexivity.
Qed.

End DetectionFacts.

(* ====================================================================== *)
(** * The Goertzel filter and the discrete Fourier transform *)
(* ====================================================================== *)

Module GoertzelDft.

Import Goertzel Dft GoertzelFacts.
Local Open Scope R_scope.

(** The filter state seen as the complex number
    [q1 - exp (- i * omega) * q2]: one sample multiplies it by
    [exp (i * omega)] and adds the sample. *)
Lemma recursion_rotates (omega : R) (samples : list R) :
  forall q1 q2,
    let p := spec_recursion (2 * cos omega) samples q1 q2 in
    let n := INR (List.length samples) in
    fst p - snd p * cos omega
    = cos (omega * n) * (q1 - q2 * cos omega)
      - sin (omega * n) * (q2 * sin omega)
      + rev_cos_sum omega samples
    /\
    snd p * sin omega
    = sin (omega * n) * (q1 - q2 * cos omega)
      + cos (omega * n) * (q2 * sin omega)
      + rev_sin_sum omega samples.
Proof.
  induction samples as [|x rest IH]; intros q1 q2.
  - simpl. rewrite Rmult_0_r, cos_0, sin_0. split; ring.
  - cbn zeta.
    change (spec_recursion (2 * cos omega) (x :: rest) q1 q2)
      with (spec_recursion (2 * cos omega) rest
              (2 * cos omega * q1 - q2 + x) q1).
    destruct (IH (2 * cos omega * q1 - q2 + x) q1) as [Hre Him].
    cbn zeta in Hre, Him. rewrite Hre, Him.
    change (List.length (x :: rest)) with (S (List.length rest)).
    rewrite S_INR.
    replace (omega * (INR (List.length rest) + 1))
      with (omega * INR (List.length rest) + omega) by ring.
    rewrite cos_plus, sin_plus. simpl rev_cos_sum. simpl rev_sin_sum.
    pose proof (sin2_cos2 omega) as H1. unfold Rsqr in H1.
    set (cw := cos omega) in *. set (sw := sin omega) in *.
    set (cm := cos (omega * INR (List.length rest))).
    set (sm := sin (omega * INR (List.length rest))).
    split.
    + replace ((cm * cw - sm * sw) * (q1 - q2 * cw)
               - (sm * cw + cm * sw) * (q2 * sw))
        with (cm * (cw * q1 - q2 * (sw * sw + cw * cw)) - sm * sw * q1)
        by ring.
      rewrite H1. ring.
    + replace ((sm * cw + cm * sw) * (q1 - q2 * cw)
               + (cm * cw - sm * sw) * (q2 * sw))
        with (sm * (cw * q1 - q2 * (sw * sw + cw * cw)) + cm * sw * q1)
        by ring.
      rewrite H1. ring.
Qed.

Lemma sums_shift (omega d : R) (samples : list R) :
  forall k,
    cos_sum omega (k + d) samples
    = cos (omega * d) * cos_sum omega k samples
      - sin (omega * d) * sin_sum omega k samples
    /\
    sin_sum omega (k + d) samples
    = sin (omega * d) * cos_sum omega k samples
      + cos (omega * d) * sin_sum omega k samples.
Proof.
  induction samples as [|x rest IH]; intros k; simpl.
  - split; ring.
  - replace (k + d + 1) with (k + 1 + d) by ring.
    destruct (IH (k + 1)) as [Hc Hs]. rewrite Hc, Hs.
    replace (omega * (k + d)) with (omega * k + omega * d) by ring.
    rewrite cos_plus, sin_plus. split; ring.
Qed.

Lemma rev_sums_forward (omega : R) (samples : list R) :
  rev_cos_sum omega samples
  = cos_sum omega (1 - INR (List.length samples)) samples /\
  rev_sin_sum omega samples
  = - sin_sum omega (1 - INR (List.length samples)) samples.
Proof.
  induction samples as [|x rest [Hc Hs]].
  - simpl. split; ring.
  - change (List.length (x :: rest)) with (S (List.length rest)).
    rewrite S_INR. simpl. rewrite Hc, Hs.
    replace (1 - (INR (List.length rest) + 1) + 1)
      with (1 - INR (List.length rest)) by ring.
    replace (omega * (1 - (INR (List.length rest) + 1)))
      with (- (omega * INR (List.length rest))) by ring.
    rewrite cos_neg, sin_neg. split; ring.
Qed.

Lemma rev_sums_magnitude (omega : R) (samples : list R) :
  rev_cos_sum omega samples * rev_cos_sum omega samples
  + rev_sin_sum omega samples * rev_sin_sum omega samples
  = cos_sum omega 0 samples * cos_sum omega 0 samples
    + sin_sum omega 0 samples * sin_sum omega 0 samples.
Proof.
  destruct (rev_sums_forward omega samples) as [Hc Hs]. rewrite Hc, Hs.
  set (d := 1 - INR (List.length samples)).
  destruct (sums_shift omega d samples 0) as [Hc' Hs'].
  rewrite Rplus_0_l in Hc', Hs'. rewrite Hc', Hs'.
  pose proof (sin2_cos2 (omega * d)) as H1. unfold Rsqr in H1.
  set (C := cos_sum omega 0 samples). set (S := sin_sum omega 0 samples).
  set (cd := cos (omega * d)) in *. set (sd := sin (omega * d)) in *.
  replace ((cd * C - sd * S) * (cd * C - sd * S)
           + - (sd * C + cd * S) * - (sd * C + cd * S))
    with ((sd * sd + cd * cd) * (C * C + S * S)) by ring.
  rewrite H1. ring.
Qed.

(** X1. On a non-empty window and a non-zero rate, [goertzel] returns the
    magnitude of the window's discrete Fourier transform at the bin
    [k = int(0.5 + N*f/Fs)], that is
    [sqrt ((sum x_j cos(2 pi k j / N))^2 + (sum x_j sin(2 pi k j / N))^2)]. *)
Theorem goertzel_is_dft_magnitude (samples : list R) (f Fs : Z) :
  (1 <= List.length samples)%nat -> Fs <> 0%Z ->
  let N := Z.of_nat (List.length samples) in
  let omega := 2 * PI * IZR (bin_index N f Fs) / IZR N in
  goertzel samples f Fs = Some (dft_magnitude omega samples).
Proof.
  intros Hlen HFs N omega.
  rewrite goertzel_unfold by assumption. fold N. fold omega.
  f_equal. unfold spec_magnitude, dft_magnitude.
  destruct (recursion_rotates omega samples 0 0) as [Hre Him].
  cbn zeta in Hre, Him. rewrite Hre, Him.
  rewrite <- rev_sums_magnitude. f_equal. ring.
Qed.

Lemma goertzel_is_dft_magnitude_witness :
  goertzel [3; -5; 7; 2] 770 11025
  = Some (dft_magnitude
            (2 * PI * IZR (bin_index (Z.of_nat 4) 770 11025)
             / IZR (Z.of_nat 4)) [3; -5; 7; 2]).
Proof.
  apply (goertzel_is_dft_magnitude [3; -5; 7; 2] 770 11025); simpl; lia.
Defined.

Lemma spec_magnitude_abs_scale (a omega : R) (q : R * R) :
  spec_magnitude omega (a * fst q, a * snd q)
  = Rabs a * spec_magnitude omega q.
Proof.
  unfold spec_magnitude. simpl.
  set (re := fst q - snd q * cos omega).
  set (im := snd q * sin omega).
  replace ((a * fst q - a * snd q * cos omega) *
           (a * fst q - a * snd q * cos omega) +
           a * snd q * sin omega * (a * snd q * sin omega))
    with (Rsqr a * (re * re + im * im)) by (unfold re, im, Rsqr; ring).
  rewrite sqrt_mult_alt by apply Rle_0_sqr.
  now rewrite sqrt_Rsqr_abs.
Qed.

(** X2. In exact real arithmetic the magnitude is absolutely
    homogeneous: scaling every sample by any real [a] scales the magnitude
    by [|a|].  In particular inverting the signal leaves it unchanged, and
    a window of zeros has magnitude 0 at every frequency.  This is a
    property of the filter over the reals: the floating point filter
    rounds after every operation, so for a factor such as 3 its two
    results can differ in the last place. *)
Theorem goertzel_scales_with_abs (w : list R) (f Fs : Z) :
  (1 <= List.length w)%nat -> Fs <> 0%Z ->
  exists m : R,
    goertzel w f Fs = Some m /\
    (forall a, goertzel (map (Rmult a) w) f Fs = Some (Rabs a * m)) /\
    goertzel (map Ropp w) f Fs = Some m /\
    ((forall x, In x w -> x = 0) -> m = 0).
Proof.
  intros Hlen HFs.
  eexists. split; [apply goertzel_unfold; assumption|].
  assert (Hscale : forall a,
             goertzel (map (Rmult a) w) f Fs
             = Some (Rabs a *
                     spec_magnitude
                       (2 * PI * IZR (bin_index (Z.of_nat (List.length w)) f Fs)
                        / IZR (Z.of_nat (List.length w)))
                       (spec_recursion
                          (2 * cos (2 * PI *
                                    IZR (bin_index (Z.of_nat (List.length w)) f Fs)
                                    / IZR (Z.of_nat (List.length w))))
                          w 0 0))).
  { intros a.
    rewrite goertzel_unfold by (rewrite ?length_map; assumption).
    rewrite length_map. f_equal.
    set (omega := 2 * PI * IZR (bin_index (Z.of_nat (List.length w)) f Fs)
                  / IZR (Z.of_nat (List.length w))).
    replace (spec_recursion (2 * cos omega) (map (Rmult a) w) 0 0)
      with (spec_recursion (2 * cos omega) (map (Rmult a) w) (a * 0) (a * 0))
      by (f_equal; ring).
    rewrite spec_recursion_scale. apply spec_magnitude_abs_scale. }
  split; [exact Hscale|]. split.
  - replace (map Ropp w) with (map (Rmult (-1)) w)
      by (apply map_ext; intros x; ring).
    rewrite Hscale. f_equal.
    assert (E : Rabs (-1) = 1)
      by (unfold Rabs; destruct (Rcase_abs (-1)); lra).
    rewrite E. ring.
  - intros Hzero.
    assert (E : map (Rmult 0) w = w).
    { rewrite <- (map_id w) at 2. apply map_ext_in.
      intros x Hx. rewrite (Hzero x Hx). ring. }
    pose proof (Hscale 0) as H0. rewrite E in H0.
    rewrite goertzel_unfold in H0 by assumption.
    inversion H0 as [H1]. rewrite H1. rewrite Rabs_R0. ring.
Qed.

Lemma goertzel_scales_with_abs_witness :
  exists m : R,
    goertzel [1; 2; 3; 4; 5; 6; 7; 8] 1336 22050 = Some m /\
    (forall a, goertzel (map (Rmult a) [1; 2; 3; 4; 5; 6; 7; 8]) 1336 22050
               = Some (Rabs a * m)) /\
    goertzel (map Ropp [1; 2; 3; 4; 5; 6; 7; 8]) 1336 22050 = Some m /\
    ((forall x, In x [1; 2; 3; 4; 5; 6; 7; 8] -> x = 0) -> m = 0).
Proof.
  apply (goertzel_scales_with_abs [1; 2; 3; 4; 5; 6; 7; 8] 1336 22050);
    simpl; lia.
Defined.

End GoertzelDft.

(* ====================================================================== *)
(** * Invariants of the tone regions *)
(* ====================================================================== *)

Module RegionFacts.

Import Py Dtmf Tools Design Aux SegAux Order Report PyFacts DtmfFacts
  ToolsFacts.
Local Open Scope Q_scope.

Lemma tone_regions_segment (windows : list Window) :
  tone_regions windows = segment OUTSIDE None (map view windows).
Proof.
  change (tone_regions windows)
    with (finish (fold_left seg_step windows seg_init)
                 (List.last (map Some windows) None)).
  rewrite (seg_scan_refines windows seg_init OUTSIDE None).
  - reflexivity.
  - apply rel_outside. reflexivity.
Qed.

Lemma above_tail (bound : option Q) (t : Q) (ts : list Q) :
  above bound (t :: ts) -> above bound ts.
Proof.
  destruct bound as [b|]; simpl; [|trivial].
  intros H u Hu. apply H. now right.
Qed.

Lemma segment_chain (stream : list (bool * Q)) :
  forall st last bound,
    increasing (map snd stream) ->
    match st with
    | OUTSIDE => above bound (map snd stream)
    | INSIDE_REGION s =>
        match bound with Some b => b < s | None => True end /\
        exists l, last = Some l /\ s <= l /\
                  forall t, In t (map snd stream) -> l < t
    end ->
    chain bound (segment st last stream).
Proof.
  induction stream as [|[active t] rest IH]; intros st last bound Hinc Hst.
  - destruct st as [|s]; simpl; [trivial|].
    destruct Hst as [Hb [l [-> [Hsl _]]]]. simpl. auto.
  - simpl in Hinc. destruct Hinc as [Hlt Hinc].
    destruct st as [|s]; simpl.
    + destruct active.
      * apply IH; [exact Hinc|]. split.
        -- destruct bound as [b|]; [|trivial]. apply Hst. now left.
        -- exists t. split; [reflexivity|]. split; [apply Qle_refl|exact Hlt].
      * apply IH; [exact Hinc|]. simpl. eapply above_tail. exact Hst.
    + destruct Hst as [Hb [l [-> [Hsl Hl]]]].
      assert (Hst' : s <= t).
      { apply Qle_trans with l; [exact Hsl|].
        apply Qlt_le_weak. apply Hl. now left. }
      destruct active.
      * apply IH; [exact Hinc|]. split; [exact Hb|].
        exists t. split; [reflexivity|]. split; [exact Hst'|exact Hlt].
      * simpl. split; [exact Hb|]. split; [exact Hst'|].
        apply IH; [exact Hinc|]. simpl. exact Hlt.
Qed.

Lemma inside_head (stream : list (bool * Q)) :
  forall s l,
    increasing (map snd stream) ->
    (forall t, In t (map snd stream) -> l < t) ->
    exists e tl,
      segment (INSIDE_REGION s) (Some l) stream = (s, e) :: tl /\ l <= e.
Proof.
  induction stream as [|[active t] rest IH]; intros s l Hinc Hl.
  - exists l, []. split; [reflexivity|apply Qle_refl].
  - simpl in Hinc. destruct Hinc as [Hlt Hinc].
    assert (l < t) by (apply Hl; now left).
    destruct active; simpl.
    + destruct (IH s t Hinc Hlt) as [e [tl [E He]]].
      exists e, tl. split; [exact E|].
      apply Qle_trans with t; [now apply Qlt_le_weak|exact He].
    + eexists t, _. split; [reflexivity|now apply Qlt_le_weak].
Qed.

Lemma segment_covers (stream : list (bool * Q)) :
  forall st last,
    increasing (map snd stream) ->
    match st with
    | OUTSIDE => True
    | INSIDE_REGION s =>
        exists l, last = Some l /\ s <= l /\
                  forall t, In t (map snd stream) -> l < t
    end ->
    forall t, In (true, t) stream ->
      exists r, In r (segment st last stream) /\ fst r <= t /\ t <= snd r.
Proof.
  induction stream as [|[active u] rest IH]; intros st last Hinc Hst t Hin.
  - contradiction.
  - simpl in Hinc. destruct Hinc as [Hlt Hinc].
    destruct st as [|s].
    + destruct active.
      * simpl. destruct Hin as [E|Hin].
        -- inversion E; subst.
           destruct (inside_head rest t t Hinc Hlt) as [e [tl [Es He]]].
           rewrite Es. exists (t, e). split; [now left|].
           split; [apply Qle_refl|exact He].
        -- apply (IH (INSIDE_REGION u) (Some u) Hinc); [|exact Hin].
           exists u. split; [reflexivity|]. split; [apply Qle_refl|exact Hlt].
      * simpl. destruct Hin as [E|Hin]; [discriminate|].
        now apply (IH OUTSIDE (Some u) Hinc).
    + destruct Hst as [l [-> [Hsl Hl]]].
      assert (Hsu : s <= u).
      { apply Qle_trans with l; [exact Hsl|].
        apply Qlt_le_weak. apply Hl. now left. }
      destruct active.
      * simpl. destruct Hin as [E|Hin].
        -- inversion E; subst.
           destruct (inside_head rest s t Hinc Hlt) as [e [tl [Es He]]].
           rewrite Es. exists (s, e). split; [now left|].
           split; [exact Hsu|exact He].
        -- apply (IH (INSIDE_REGION s) (Some u) Hinc); [|exact Hin].
           exists u. split; [reflexivity|]. split; [exact Hsu|exact Hlt].
      * simpl. destruct Hin as [E|Hin]; [discriminate|].
        destruct (IH OUTSIDE (Some u) Hinc I t Hin) as [r [Hr Hb]].
        exists r. split; [now right|exact Hb].
Qed.

Lemma segment_opened_by (stream : list (bool * Q)) :
  forall st last r,
    In r (segment st last stream) ->
    match st with
    | OUTSIDE => In (true, fst r) stream
    | INSIDE_REGION s => fst r = s \/ In (true, fst r) stream
    end.
Proof.
  induction stream as [|[active u] rest IH]; intros st last r Hin.
  - destruct st as [|s]; simpl in Hin; [contradiction|].
    destruct last as [l|]; [|contradiction].
    destruct Hin as [<-|[]]. now left.
  - destruct st as [|s]; simpl in Hin.
    + destruct active.
      * specialize (IH _ _ _ Hin). simpl in IH.
        destruct IH as [E|H]; [left; now rewrite E|now right].
      * right. exact (IH _ _ _ Hin).
    + destruct active.
      * specialize (IH _ _ _ Hin). simpl in IH.
        destruct IH as [E|H]; [now left|right; now right].
      * destruct Hin as [<-|Hin]; [now left|].
        right. right. exact (IH _ _ _ Hin).
Qed.

Lemma inside_nonempty (stream : list (bool * Q)) (s l : Q) :
  segment (INSIDE_REGION s) (Some l) stream <> [].
Proof.
  revert l. induction stream as [|[active u] rest IH]; intros l; simpl.
  - discriminate.
  - destruct active; [apply IH|discriminate].
Qed.

Lemma segment_empty_iff (stream : list (bool * Q)) (last : option Q) :
  segment OUTSIDE last stream = [] <->
  forall a t, In (a, t) stream -> a = false.
Proof.
  revert last. induction stream as [|[active u] rest IH]; intros last; simpl.
  - split; [intros _ a t []|reflexivity].
  - destruct active.
    + split.
      * intros H. exfalso. eapply inside_nonempty. exact H.
      * intros H. specialize (H true u (or_introl eq_refl)). discriminate.
    + rewrite IH. split.
      * intros H a t [E|Hin]; [now inversion E|eauto].
      * intros H a t Hin. apply (H a t). now right.
Qed.

Lemma chain_In (regions : list (Q * Q)) :
  forall prev r, chain prev regions -> In r regions -> fst r <= snd r.
Proof.
  induction regions as [|r0 rest IH]; intros prev r Hc Hin.
  - contradiction.
  - simpl in Hc. destruct Hc as [_ [H0 Hc]].
    destruct Hin as [<-|Hin]; [exact H0|]. eapply IH; eassumption.
Qed.

Lemma In_view (windows : list Window) (a : bool) (t : Q) :
  In (a, t) (map view windows) <->
  exists w, In w windows /\ is_active w = a /\ time w = t.
Proof.
  rewrite in_map_iff. unfold view. split.
  - intros [w [E Hw]]. inversion E. now exists w.
  - intros [w [Hw [<- <-]]]. now exists w.
Qed.

Lemma map_snd_view (windows : list Window) :
  map snd (map view windows) = map time windows.
Proof. rewrite map_map. reflexivity. Qed.

(** X3. When the window timestamps increase strictly, the tone regions
    come out in time order and do not overlap: each region ends no
    earlier than it starts and the next region starts strictly after it
    ended. *)
Theorem tone_regions_ordered_disjoint (windows : list Window) :
  increasing (map time windows) ->
  chain None (tone_regions windows).
Proof.
  intros Hinc. rewrite tone_regions_segment.
  apply segment_chain.
  - now rewrite map_snd_view.
  - exact I.
Qed.

Lemma tone_regions_ordered_disjoint_witness :
  chain None (tone_regions tone_then_quiet).
Proof.
  apply (tone_regions_ordered_disjoint tone_then_quiet).
  simpl. repeat split; intros u Hu;
    repeat (destruct Hu as [<-|Hu]; [reflexivity|]); contradiction.
Defined.

Lemma regions_have_opening_window (windows : list Window) :
  increasing (map time windows) ->
  forall r, In r (tone_regions windows) ->
    exists w, In w windows /\ is_active w = true /\ time w = fst r /\
              In w (region_wins windows r).
Proof.
  intros Hinc r Hr. rewrite tone_regions_segment in Hr.
  pose proof (segment_opened_by _ _ _ _ Hr) as Hopen. simpl in Hopen.
  apply In_view in Hopen. destruct Hopen as [w [Hw [Hact Ht]]].
  exists w. repeat (split; [assumption|]).
  unfold region_wins. apply filter_In. split; [exact Hw|].
  rewrite Hact, andb_true_r. unfold in_span. rewrite Ht.
  apply andb_true_iff. split; apply Qle_bool_iff; [apply Qle_refl|].
  eapply chain_In; [|exact Hr].
  apply (segment_chain (map view windows) OUTSIDE None None);
    [now rewrite map_snd_view|exact I].
Qed.

(** X4. When the window timestamps increase strictly, every window above
    the energy gate lies inside one of the tone regions, and every tone
    region was opened by a window above the gate whose timestamp is the
    region's start and which is a member of the region. *)
Theorem tone_regions_cover_active (windows : list Window) :
  increasing (map time windows) ->
  (forall w, In w windows -> is_active w = true ->
     exists r, In r (tone_regions windows) /\ in_span r w = true) /\
  (forall r, In r (tone_regions windows) ->
     exists w, In w windows /\ is_active w = true /\ time w = fst r /\
               In w (region_wins windows r)).
Proof.
  intros Hinc. split.
  - intros w Hw Hact. rewrite tone_regions_segment.
    destruct (segment_covers (map view windows) OUTSIDE None) with (t := time w)
      as [r [Hr [H1 H2]]].
    + now rewrite map_snd_view.
    + exact I.
    + apply In_view. now exists w.
    + exists r. split; [exact Hr|].
      unfold in_span. apply andb_true_iff. split; now apply Qle_bool_iff.
  - now apply regions_have_opening_window.
Qed.

Lemma tone_regions_cover_active_witness :
  (forall w, In w tone_then_quiet -> is_active w = true ->
     exists r, In r (tone_regions tone_then_quiet) /\ in_span r w = true) /\
  (forall r, In r (tone_regions tone_then_quiet) ->
     exists w, In w tone_then_quiet /\ is_active w = true /\
               time w = fst r /\ In w (region_wins tone_then_quiet r)).
Proof.
  apply (tone_regions_cover_active tone_then_quiet).
  simpl. repeat split; intros u Hu;
    repeat (destruct Hu as [<-|Hu]; [reflexivity|]); contradiction.
Defined.

Lemma heatmap_column_total (w : Window) :
  well_formed w -> exists col, heatmap_column w = Some col.
Proof.
  intros [Hl Hh]. unfold heatmap_column.
  destruct (goertzel_low w) as [|a0 [|a1 [|a2 [|a3 [|a4 l]]]]];
    try discriminate.
  destruct (goertzel_high w) as [|b0 [|b1 [|b2 [|b3 [|b4 h]]]]];
    try discriminate.
  eexists. reflexivity.
Qed.

Lemma goertzel_matrix_total (windows : list Window) :
  Forall well_formed windows ->
  exists matrix,
    goertzel_matrix windows = Some matrix /\
    List.length matrix = List.length windows.
Proof.
  unfold goertzel_matrix.
  induction 1 as [|w ws Hw _ IH].
  - exists []. split; reflexivity.
  - destruct (heatmap_column_total w Hw) as [col Ec].
    destruct IH as [m [Em Hm]].
    exists (col :: m). simpl. rewrite Ec. cbn [bind]. rewrite Em. cbn [bind].
    split; [reflexivity|]. simpl. now rewrite Hm.
Qed.

Lemma last_some_nonempty {A} (l : list A) :
  l <> [] -> exists x, List.last (map Some l) None = Some x.
Proof.
  induction l as [|a l IH]; [congruence|].
  intros _. destruct l as [|b l'].
  - exists a. reflexivity.
  - destruct IH as [x Hx]; [discriminate|]. exists x. exact Hx.
Qed.

Lemma time_edges_total (times : list Q) :
  times <> [] ->
  exists edges,
    time_edges times = Some edges /\
    List.length edges = S (List.length times).
Proof.
  intros Hne. destruct (last_some_nonempty times Hne) as [t Ht].
  unfold time_edges. rewrite Ht. cbn [bind].
  eexists. split; [reflexivity|].
  rewrite length_app, length_map. simpl. lia.
Qed.

(** X5. The report generator finds no tone region exactly when no window
    is above the energy gate.  On an empty window list (a recording no
    longer than one window) this is the case, but the heatmap stage
    raises on [times_arr[-1]] and no table is produced.  On a non-empty
    list of records with four magnitudes per band, none above the gate,
    the heatmap data are computed, with one column per window and one
    more time edge than windows, and the detail table, the region
    analysis and the gated detections come out empty, the gated sequence
    being the empty string. *)
Theorem no_active_window_no_detection (windows : list Window) :
  (tone_regions windows = [] <->
   forall w, In w windows -> is_active w = false) /\
  (windows = [] ->
   heatmap_data windows = None /\ detection_report windows = None) /\
  (windows <> [] ->
   Forall well_formed windows ->
   (forall w, In w windows -> is_active w = false) ->
   (exists matrix edges,
       heatmap_data windows = Some (matrix, edges) /\
       List.length matrix = List.length windows /\
       List.length edges = S (List.length windows)) /\
   active_windows windows = [] /\
   representative_windows windows = [] /\
   window_table windows = Some [] /\
   tone_region_analysis windows = Some [] /\
   gated_detections windows = Some [] /\
   gated_sequence windows = Some EmptyString /\
   detection_report windows = Some ([], [], [], EmptyString)).
Proof.
  assert (Hiff : tone_regions windows = [] <->
                 forall w, In w windows -> is_active w = false).
  { rewrite tone_regions_segment, segment_empty_iff. split.
    - intros H w Hw. apply (H (is_active w) (time w)).
      apply In_view. now exists w.
    - intros H a t Hin. apply In_view in Hin.
      destruct Hin as [w [Hw [<- _]]]. now apply H. }
  split; [exact Hiff|]. split.
  - intros ->. split; reflexivity.
  - intros Hne Hwf Hquiet.
    assert (Hact : filter is_active windows = []).
    { clear Hiff Hne Hwf. induction windows as [|w ws IH]; [reflexivity|].
      simpl. rewrite (Hquiet w) by now left.
      apply IH. intros x Hx. apply Hquiet. now right. }
    pose proof (proj2 Hiff Hquiet) as Hreg.
    destruct (goertzel_matrix_total windows Hwf) as [matrix [Em Hm]].
    destruct (time_edges_total (map time windows)) as [edges [Ee He]].
    { destruct windows; [congruence|discriminate]. }
    rewrite length_map in He.
    assert (Hheat : heatmap_data windows = Some (matrix, edges)).
    { unfold heatmap_data. rewrite Em. cbn [bind]. rewrite Ee. reflexivity. }
    assert (Htab : window_table windows = Some []).
    { unfold window_table, active_windows. now rewrite Hact. }
    assert (Hrows : tone_region_analysis windows = Some []).
    { unfold tone_region_analysis. now rewrite Hreg. }
    assert (Hdets : gated_detections windows = Some []).
    { unfold gated_detections. now rewrite Hrows. }
    assert (Hseq : gated_sequence windows = Some EmptyString).
    { unfold gated_sequence. now rewrite Hdets. }
    split; [exists matrix, edges; repeat split; assumption|].
    split; [exact Hact|].
    split; [unfold representative_windows; now rewrite Hreg|].
    repeat (split; [assumption|]).
    unfold detection_report.
    rewrite Hheat, Htab, Hrows, Hdets, Hseq. reflexivity.
Qed.

Lemma no_active_window_no_detection_witness :
  (exists matrix edges,
      heatmap_data [quiet_window 1; quiet_window 2] = Some (matrix, edges) /\
      List.length matrix = List.length [quiet_window 1; quiet_window 2] /\
      List.length edges = S (List.length [quiet_window 1; quiet_window 2])) /\
  active_windows [quiet_window 1; quiet_window 2] = [] /\
  representative_windows [quiet_window 1; quiet_window 2] = [] /\
  window_table [quiet_window 1; quiet_window 2] = Some [] /\
  tone_region_analysis [quiet_window 1; quiet_window 2] = Some [] /\
  gated_detections [quiet_window 1; quiet_window 2] = Some [] /\
  gated_sequence [quiet_window 1; quiet_window 2] = Some EmptyString /\
  detection_report [quiet_window 1; quiet_window 2]
  = Some ([], [], [], EmptyString).
Proof.
  apply (no_active_window_no_detection [quiet_window 1; quiet_window 2]).
  - discriminate.
  - repeat constructor.
  - intros w [<-|[<-|[]]]; reflexivity.
Defined.

Lemma representatives_one_each (windows : list Window)
  (regions : list (Q * Q)) :
  (forall r, In r regions -> region_members windows r <> []) ->
  List.length (representative_windows_of windows regions)
  = List.length regions /\
  forall w, In w (representative_windows_of windows regions) -> In w windows.
Proof.
  induction regions as [|r rest IH]; intros H.
  - split; [reflexivity|intros w []].
  - destruct IH as [Hl Hin]; [intros x Hx; apply H; now right|].
    simpl. pose proof (max_by_spec rms (region_members windows r)) as Hm.
    destruct (max_by rms (region_members windows r)) as [rep|].
    + simpl. split; [now rewrite Hl|].
      intros w [<-|Hw]; [|now apply Hin].
      destruct Hm as [Hrep _]. unfold region_members in Hrep.
      apply filter_In in Hrep. tauto.
    + exfalso. apply (H r); [now left|exact Hm].
Qed.

Lemma DTMF_MAP_single_char (key : Z * Z) (d : string) :
  dict_get DTMF_MAP key = Some d -> String.length d = 1%nat.
Proof.
  unfold DTMF_MAP. simpl.
  repeat match goal with
         | |- context [if ?c then _ else _] => destruct c
         end;
    intros E; inversion E; reflexivity.
Qed.

Lemma analyse_regions_rows (windows : list Window) :
  Forall well_formed windows ->
  forall regions,
    (forall r, In r regions -> region_wins windows r <> []) ->
    forall idx,
    exists rows,
      analyse_regions windows idx regions = Some rows /\
      map (fun row => (r_start row, r_end row)) rows = regions /\
      map region rows = seq (S idx) (List.length regions) /\
      Forall (fun row => String.length (g_digit row) = 1%nat) rows.
Proof.
  intros Hwf regions.
  induction regions as [|r rest IH]; intros Hne idx.
  - exists []. repeat split. constructor.
  - destruct (IH (fun x Hx => Hne x (or_intror Hx)) (S idx))
      as [rows [E [Hspan [Hidx Hlen]]]].
    destruct (analyse_region_row windows idx r Hwf (Hne r (or_introl eq_refl)))
      as [lows [highs [lf [hf [_ [_ [_ [_ [Il [Ih Erow]]]]]]]]]].
    simpl analyse_regions. rewrite Erow. cbn [bind]. rewrite E. cbn [bind].
    eexists. split; [reflexivity|].
    split; [simpl; rewrite Hspan; now destruct r|].
    split; [simpl; now rewrite Hidx|].
    constructor; [|exact Hlen].
    cbn [g_digit]. destruct (DTMF_MAP_total lf hf Il Ih) as [d [Ed _]].
    unfold dict_get_default. rewrite Ed.
    now apply (DTMF_MAP_single_char (lf, hf)).
Qed.

Lemma append_length (a b : string) :
  String.length (String.append a b) = (String.length a + String.length b)%nat.
Proof. induction a as [|c a IH]; simpl; [reflexivity|now rewrite IH]. Qed.

Lemma joined_length (digits : list string) :
  Forall (fun d => String.length d = 1%nat) digits ->
  String.length (fold_right String.append EmptyString digits)
  = List.length digits.
Proof.
  induction 1 as [|d ds H1 Hall IH]; [reflexivity|].
  simpl. rewrite append_length, H1, IH. reflexivity.
Qed.

(** X6. When the window timestamps increase strictly and every window
    record has four magnitudes per band, the report has exactly one
    representative window, one analysis row and one gated detection per
    tone region, in region order: the detections carry the regions' start
    and end times, the rows are numbered from 1, and the gated sequence
    has one character per region. *)
Theorem one_detection_per_region (windows : list Window) :
  increasing (map time windows) ->
  Forall well_formed windows ->
  exists rows dets seq,
    tone_region_analysis windows = Some rows /\
    gated_detections windows = Some dets /\
    gated_sequence windows = Some seq /\
    List.length (representative_windows windows)
    = List.length (tone_regions windows) /\
    (forall w, In w (representative_windows windows) -> In w windows) /\
    map (fun d => (det_start_time d, det_end_time d)) dets
    = tone_regions windows /\
    map region rows = List.seq 1 (List.length (tone_regions windows)) /\
    String.length seq = List.length (tone_regions windows).
Proof.
  intros Hinc Hwf.
  assert (Hne : forall r, In r (tone_regions windows) ->
                          region_wins windows r <> []).
  { intros r Hr E.
    destruct (regions_have_opening_window windows Hinc r Hr)
      as [w [_ [_ [_ Hw]]]].
    rewrite E in Hw. contradiction. }
  destruct (analyse_regions_rows windows Hwf (tone_regions windows) Hne O)
    as [rows [E [Hspan [Hidx Hlen]]]].
  destruct (representatives_one_each windows (tone_regions windows))
    as [Hrl Hrin].
  { intros r Hr Hm. apply (Hne r Hr). now apply members_empty_wins_empty. }
  eexists rows, _, _.
  unfold gated_sequence, gated_detections, tone_region_analysis.
  rewrite E. cbn [bind].
  split; [reflexivity|]. split; [reflexivity|]. split; [reflexivity|].
  split; [exact Hrl|]. split; [exact Hrin|].
  split; [rewrite map_map; exact Hspan|].
  split; [exact Hidx|].
  rewrite map_map. cbn [det_digit].
  rewrite joined_length.
  - rewrite length_map. rewrite <- Hspan. now rewrite length_map.
  - apply Forall_map. exact Hlen.
Qed.

Lemma one_detection_per_region_witness :
  exists rows dets seq,
    tone_region_analysis tone_then_quiet = Some rows /\
    gated_detections tone_then_quiet = Some dets /\
    gated_sequence tone_then_quiet = Some seq /\
    List.length (representative_windows tone_then_quiet)
    = List.length (tone_regions tone_then_quiet) /\
    (forall w, In w (representative_windows tone_then_quiet) ->
               In w tone_then_quiet) /\
    map (fun d => (det_start_time d, det_end_time d)) dets
    = tone_regions tone_then_quiet /\
    map region rows
    = List.seq 1 (List.length (tone_regions tone_then_quiet)) /\
    String.length seq = List.length (tone_regions tone_then_quiet).
Proof.
  apply (one_detection_per_region tone_then_quiet).
  - simpl. repeat split; intros u Hu;
      repeat (destruct Hu as [<-|Hu]; [reflexivity|]); contradiction.
  - repeat constructor.
Defined.

End RegionFacts.

(* ====================================================================== *)
(** * The window list and the per-window detail table *)
(* ====================================================================== *)

Module WindowFacts.

Import Py Dtmf Tools Design Aux SegAux Order PyFacts DtmfFacts ToolsFacts.
Local Open Scope Q_scope.

Lemma increasing_map_seq (f : nat -> Q) :
  (forall i j, (i < j)%nat -> f i < f j) ->
  forall n a, increasing (map f (seq a n)).
Proof.
  intros Hmono. induction n as [|n IH]; intros a; simpl.
  - exact I.
  - split; [|apply IH].
    intros u Hu. apply in_map_iff in Hu. destruct Hu as [j [<- Hj]].
    apply in_seq in Hj. apply Hmono. lia.
Qed.

Lemma centre_monotone (rate window_n hop_n : Z) (i j : nat) :
  (0 < rate)%Z -> (1 <= hop_n)%Z -> (i < j)%nat ->
  inject_Z (Z.of_nat i * hop_n + window_n / 2) / inject_Z rate
  < inject_Z (Z.of_nat j * hop_n + window_n / 2) / inject_Z rate.
Proof.
  intros Hrate Hhop Hij.
  unfold Qdiv. apply Qmult_lt_compat_r.
  - apply Qinv_lt_0_compat. unfold Qlt. simpl. lia.
  - rewrite <- Zlt_Qlt. nia.
Qed.

(** X7. For a positive rate and a hop of at least one sample the
    per-window loop does not fail; the windows it returns have strictly
    increasing timestamps; a buffer no longer than one window gives no
    window at all, and a longer one gives
    [(len - window_n - 1) // hop + 1] windows. *)
Theorem analyse_windows_count_and_order
  (measure : list Z -> ChunkMeasures) (data : list Z)
  (rate window_n hop_n : Z) :
  (0 < rate)%Z -> (1 <= hop_n)%Z ->
  let len := Z.of_nat (List.length data) in
  exists ws,
    analyse_windows measure data rate window_n hop_n = Some ws /\
    increasing (map time ws) /\
    ((len <= window_n)%Z -> ws = []) /\
    ((window_n < len)%Z ->
     Z.of_nat (List.length ws) = ((len - window_n - 1) / hop_n + 1)%Z).
Proof.
  intros Hrate Hhop len.
  destruct (range_ascending (len - window_n) hop_n Hhop) as [n [Hr [Hlt Hall]]].
  destruct (collect_windows_times measure data rate window_n
              (map (fun j => (Z.of_nat j * hop_n)%Z) (seq 0 n)))
    as [ws [Hc [Ht _]]]; [lia|].
  exists ws.
  assert (Hlen : List.length ws = n).
  { rewrite <- (length_map time ws), Ht, !length_map. apply length_seq. }
  split.
  { unfold analyse_windows, window_offsets. fold len. rewrite Hr. exact Hc. }
  split.
  { rewrite Ht, map_map. apply increasing_map_seq.
    intros i j Hij. now apply centre_monotone. }
  split.
  - intros Hshort. destruct ws as [|w ws']; [reflexivity|].
    exfalso. simpl in Hlen. specialize (Hlt O ltac:(lia)). lia.
  - intros Hlong. rewrite Hlen.
    pose proof (Z.mul_div_le (len - window_n - 1) hop_n ltac:(lia)) as Hlo.
    pose proof (Z.mul_succ_div_gt (len - window_n - 1) hop_n ltac:(lia)) as Hhi.
    assert (Hq : (0 <= (len - window_n - 1) / hop_n)%Z)
      by (apply Z.div_pos; lia).
    set (q := ((len - window_n - 1) / hop_n)%Z) in *.
    assert (Hge : (Z.to_nat (q + 1) <= n)%nat).
    { destruct (Nat.le_gt_cases (Z.to_nat (q + 1)) n) as [H|H]; [exact H|].
      exfalso.
      assert (Hn : (n < n)%nat); [|lia].
      apply Hall. assert (Z.of_nat n <= q)%Z by lia. nia. }
    assert (Hle : (n <= Z.to_nat (q + 1))%nat).
    { destruct n as [|n']; [lia|].
      specialize (Hlt n' ltac:(lia)).
      assert (Z.of_nat n' <= q)%Z by nia. lia. }
    lia.
Qed.

Lemma analyse_windows_count_and_order_witness :
  exists ws,
    analyse_windows loud_measure [1; 2; 3; 4; 5; 6; 7]%Z 4 3 2 = Some ws /\
    increasing (map time ws) /\
    ((7 <= 3)%Z -> ws = []) /\
    ((3 < 7)%Z ->
     Z.of_nat (List.length ws) = ((7 - 3 - 1) / 2 + 1)%Z).
Proof.
  apply (analyse_windows_count_and_order loud_measure
           [1; 2; 3; 4; 5; 6; 7]%Z 4 3 2); lia.
Defined.

Lemma winner_pair (freqs : list Z) (mags : list Q) :
  List.length mags = List.length freqs -> mags <> [] ->
  exists i f m,
    argmax mags = Some i /\
    nth_error freqs i = Some f /\ nth_error mags i = Some m /\
    winner_freq freqs mags = Some f /\ winner_mag mags = Some m /\
    forall x, In x mags -> x <= m.
Proof.
  intros Hlen Hne.
  destruct (argmax_bound mags Hne) as [i [Hi Hlt]].
  destruct (nth_error freqs i) as [f|] eqn:Ef;
    [|apply nth_error_None in Ef; lia].
  destruct (nth_error mags i) as [m|] eqn:Em;
    [|apply nth_error_None in Em; lia].
  exists i, f, m. unfold winner_freq, winner_mag. rewrite Hi. cbn [bind].
  repeat (split; [first [reflexivity|assumption]|]).
  pose proof (max_list_is_argmax mags) as Hmax.
  rewrite Hi in Hmax. cbn [bind] in Hmax. rewrite Em in Hmax.
  pose proof (max_by_spec (fun x : Q => x) mags) as Hspec.
  unfold max_list in Hmax. rewrite Hmax in Hspec. apply Hspec.
Qed.

Lemma window_row_facts (w : Window) :
  well_formed w ->
  exists row i j,
    window_row w = Some row /\
    row_time row = time w /\
    nth_error DTMF_LOW i = Some (row_g_low_freq row) /\
    nth_error (goertzel_low w) i = Some (row_g_low_mag row) /\
    nth_error DTMF_HIGH j = Some (row_g_high_freq row) /\
    nth_error (goertzel_high w) j = Some (row_g_high_mag row) /\
    (forall x, In x (goertzel_low w) -> x <= row_g_low_mag row) /\
    (forall x, In x (goertzel_high w) -> x <= row_g_high_mag row) /\
    dict_get DTMF_MAP (row_g_low_freq row, row_g_high_freq row)
    = Some (row_g_digit row) /\
    row_g_digit row <> "?"%string.
Proof.
  intros [Hl Hh].
  destruct (winner_pair DTMF_LOW (goertzel_low w)) as
    [i [lf [lm [_ [Hlf [Hlm [Elf [Elm Hlmax]]]]]]]];
    [exact Hl|destruct (goertzel_low w); discriminate|].
  destruct (winner_pair DTMF_HIGH (goertzel_high w)) as
    [j [hf [hm [_ [Hhf [Hhm [Ehf [Ehm Hhmax]]]]]]]];
    [exact Hh|destruct (goertzel_high w); discriminate|].
  destruct (DTMF_MAP_total lf hf) as [d [Ed Hd]];
    [eapply nth_error_In; eassumption|eapply nth_error_In; eassumption|].
  eexists _, i, j. unfold window_row. rewrite Elf, Ehf, Elm, Ehm. cbn [bind].
  split; [reflexivity|]. cbn.
  unfold dict_get_default. rewrite Ed.
  repeat (split; [first [reflexivity|assumption]|]). exact Hd.
Qed.

(** X8. For window records with four magnitudes per band the detail
    table is built without error and has exactly one row per window above
    the energy gate, in window order.  In each row the Goertzel frequency
    and magnitude of a band sit at the same index, the magnitude is the
    largest of the band, and the digit is the table entry of the two
    frequencies, never the ['?'] default. *)
Theorem window_table_rows (windows : list Window) :
  Forall well_formed windows ->
  exists rows,
    window_table windows = Some rows /\
    Forall2
      (fun w row =>
         row_time row = time w /\
         (exists i,
             nth_error DTMF_LOW i = Some (row_g_low_freq row) /\
             nth_error (goertzel_low w) i = Some (row_g_low_mag row)) /\
         (exists j,
             nth_error DTMF_HIGH j = Some (row_g_high_freq row) /\
             nth_error (goertzel_high w) j = Some (row_g_high_mag row)) /\
         (forall x, In x (goertzel_low w) -> x <= row_g_low_mag row) /\
         (forall x, In x (goertzel_high w) -> x <= row_g_high_mag row) /\
         dict_get DTMF_MAP (row_g_low_freq row, row_g_high_freq row)
         = Some (row_g_digit row) /\
         row_g_digit row <> "?"%string)
      (active_windows windows) rows.
Proof.
  intros Hwf. unfold window_table, active_windows.
  assert (Hwf' : Forall well_formed (filter is_active windows)).
  { apply Forall_forall. intros w Hw. apply filter_In in Hw.
    rewrite Forall_forall in Hwf. apply Hwf. tauto. }
  induction Hwf' as [|w ws Hw Hall [rows [E HF]]].
  - exists []. split; [reflexivity|constructor].
  - destruct (window_row_facts w Hw)
      as [row [i [j [Er [Ht [Hlf [Hlm [Hhf [Hhm [Hlx [Hhx [Hd Hq]]]]]]]]]]]].
    exists (row :: rows). simpl. rewrite Er. cbn [bind]. rewrite E.
    split; [reflexivity|]. constructor; [|exact HF].
    split; [exact Ht|]. split; [now exists i|]. split; [now exists j|].
    repeat (split; [assumption|]). exact Hq.
Qed.

Lemma window_table_rows_witness :
  exists rows,
    window_table tone_then_quiet = Some rows /\
    Forall2
      (fun w row =>
         row_time row = time w /\
         (exists i,
             nth_error DTMF_LOW i = Some (row_g_low_freq row) /\
             nth_error (goertzel_low w) i = Some (row_g_low_mag row)) /\
         (exists j,
             nth_error DTMF_HIGH j = Some (row_g_high_freq row) /\
             nth_error (goertzel_high w) j = Some (row_g_high_mag row)) /\
         (forall x, In x (goertzel_low w) -> x <= row_g_low_mag row) /\
         (forall x, In x (goertzel_high w) -> x <= row_g_high_mag row) /\
         dict_get DTMF_MAP (row_g_low_freq row, row_g_high_freq row)
         = Some (row_g_digit row) /\
         row_g_digit row <> "?"%string)
      (active_windows tone_then_quiet) rows.
Proof.
  apply (window_table_rows tone_then_quiet). repeat constructor.
Defined.

End WindowFacts.

(* ====================================================================== *)
(** * The votes behind a region's consensus *)
(* ====================================================================== *)

Module VoteFacts.

Import Py Dtmf Tools Design Aux PyFacts DtmfFacts ToolsFacts.

Lemma votes_bound (y : Z) (l : list Z) : (votes y l <= List.length l)%nat.
Proof. unfold votes. apply count_occ_bound. Qed.

Lemma votes_member (k : Z) (l : list Z) : In k l -> (1 <= votes k l)%nat.
Proof. unfold votes. intros H. apply (count_occ_In Z.eq_dec) in H. lia. Qed.

Lemma majority_vote_max (l : list Z) (k : Z) :
  majority_vote l = Some k -> forall y, (votes y l <= votes k l)%nat.
Proof.
  unfold majority_vote. intros H y. apply find_some in H.
  destruct H as [_ H]. apply Nat.eqb_eq in H. rewrite H.
  destruct (in_dec Z.eq_dec y l) as [Hin|Hout].
  - unfold most_votes.
    pose proof (proj1 (list_max_le (map (fun z => votes z l) l)
                         (list_max (map (fun z => votes z l) l)))
                  (Nat.le_refl _)) as Hall.
    rewrite Forall_forall in Hall. apply Hall.
    apply in_map_iff. now exists y.
  - unfold votes at 1. rewrite (proj1 (count_occ_not_In Z.eq_dec l y) Hout).
    lia.
Qed.

Lemma votes_two (a k : Z) (l : list Z) :
  a <> k -> (votes a l + votes k l <= List.length l)%nat.
Proof.
  intros Hne. induction l as [|x l IH]; [simpl; lia|].
  rewrite !votes_cons. simpl List.length.
  destruct (Z.eqb_spec a x), (Z.eqb_spec k x); lia.
Qed.

Lemma votes_filter_other (f f0 : Z) (l : list Z) :
  f <> f0 ->
  votes f (filter (fun y => negb (y =? f0)%Z) l) = votes f l.
Proof.
  intros Hne. induction l as [|x l IH]; [reflexivity|].
  simpl filter. destruct (Z.eqb_spec x f0) as [->|Hx]; simpl negb; cbv iota.
  - rewrite votes_cons, IH.
    destruct (Z.eqb_spec f f0); [contradiction|reflexivity].
  - rewrite !votes_cons, IH. reflexivity.
Qed.

Lemma length_split_votes (f0 : Z) (l : list Z) :
  List.length l
  = (votes f0 l + List.length (filter (fun y => negb (y =? f0)%Z) l))%nat.
Proof.
  induction l as [|x l IH]; [reflexivity|].
  rewrite votes_cons. simpl.
  destruct (Z.eqb_spec x f0) as [->|Hx].
  - rewrite Z.eqb_refl. simpl. lia.
  - destruct (Z.eqb_spec f0 x); [congruence|]. simpl. lia.
Qed.

(** Pigeonhole: if every entry of [l] is one of [fs] and no value has
    more than [m] votes, [l] has at most [|fs| * m] entries. *)
Lemma votes_pigeonhole (fs : list Z) :
  forall l m,
    NoDup fs -> (forall v, In v l -> In v fs) ->
    (forall f, votes f l <= m)%nat ->
    (List.length l <= List.length fs * m)%nat.
Proof.
  induction fs as [|f0 fs IH]; intros l m Hnd Hin Hm.
  - destruct l as [|x l]; [simpl; lia|]. exfalso. apply (Hin x). now left.
  - inversion Hnd as [|? ? Hf0 Hnd']; subst.
    rewrite (length_split_votes f0 l). simpl.
    specialize (IH (filter (fun y => negb (y =? f0)%Z) l) m Hnd').
    assert (List.length (filter (fun y => negb (y =? f0)%Z) l)
            <= List.length fs * m)%nat.
    { apply IH.
      - intros v Hv. apply filter_In in Hv. destruct Hv as [Hv Hne].
        destruct (Hin v Hv) as [E|H]; [|exact H].
        subst. rewrite Z.eqb_refl in Hne. discriminate.
      - intros f. destruct (Z.eq_dec f f0) as [->|Hne].
        + transitivity (votes f0 l); [|apply Hm].
          unfold votes. clear. induction l as [|x l IH]; [simpl; lia|].
          simpl. destruct (Z.eqb_spec x f0) as [->|Hx]; simpl.
          * destruct (Z.eq_dec f0 f0); [lia|congruence].
          * destruct (Z.eq_dec x f0); [congruence|]. exact IH.
        + rewrite votes_filter_other by exact Hne. apply Hm. }
    specialize (Hm f0). lia.
Qed.

Lemma band_winners_facts (freqs : list Z) (band : Window -> list Q)
  (wins : list Window) (vals : list Z) (k : Z) :
  freqs <> [] ->
  Forall (fun w => List.length (band w) = List.length freqs) wins ->
  band_winners freqs band wins = Some vals ->
  majority_vote vals = Some k ->
  List.length vals = List.length wins /\
  (forall v, In v vals -> In v freqs) /\
  (forall y, votes y vals <= votes k vals)%nat /\
  (1 <= votes k vals <= List.length wins)%nat.
Proof.
  intros Hf Hall Ev Hk.
  destruct (band_winners_total freqs band wins Hf Hall)
    as [vals' [Ev' [Hl Hin]]].
  rewrite Ev in Ev'. inversion Ev'; subst vals'.
  split; [exact Hl|]. split; [exact Hin|].
  split; [now apply majority_vote_max|].
  split; [apply votes_member; now apply majority_vote_In|].
  rewrite <- Hl. apply votes_bound.
Qed.

Lemma NoDup_DTMF : NoDup DTMF_LOW /\ NoDup DTMF_HIGH.
Proof.
  unfold DTMF_LOW, DTMF_HIGH.
  split; repeat constructor; simpl; intuition discriminate.
Qed.

(** X9. In the row of a region with [n] active member windows, the
    consensus count of each band is the number of member windows whose
    Goertzel winner in that band is the consensus frequency; no other
    frequency has more votes; and the count lies between [n/4] (there are
    only four candidates) and [n]. *)
Theorem consensus_counts (windows : list Window) (idx : nat) (r : Q * Q) :
  Forall well_formed windows ->
  region_wins windows r <> [] ->
  exists lows highs row,
    band_winners DTMF_LOW goertzel_low (region_wins windows r) = Some lows /\
    band_winners DTMF_HIGH goertzel_high (region_wins windows r)
    = Some highs /\
    analyse_region windows idx r = Some (Some row) /\
    num_windows row = List.length (region_wins windows r) /\
    List.length lows = num_windows row /\
    List.length highs = num_windows row /\
    g_low_count row = votes (g_low_freq row) lows /\
    g_high_count row = votes (g_high_freq row) highs /\
    (forall v, votes v lows <= g_low_count row)%nat /\
    (forall v, votes v highs <= g_high_count row)%nat /\
    (1 <= g_low_count row <= num_windows row)%nat /\
    (1 <= g_high_count row <= num_windows row)%nat /\
    (num_windows row <= 4 * g_low_count row)%nat /\
    (num_windows row <= 4 * g_high_count row)%nat.
Proof.
  intros Hwf Hne.
  pose proof (region_wins_well_formed windows r Hwf) as Hwf'.
  destruct (analyse_region_row windows idx r Hwf Hne)
    as [lows [highs [lf [hf [El [Eh [Vl [Vh [_ [_ Erow]]]]]]]]]].
  destruct (band_winners_facts DTMF_LOW goertzel_low
              (region_wins windows r) lows lf)
    as [Ll [Il [Ml Bl]]]; try assumption; [discriminate| |].
  { eapply Forall_impl; [|exact Hwf']. intros w [H _]. exact H. }
  destruct (band_winners_facts DTMF_HIGH goertzel_high
              (region_wins windows r) highs hf)
    as [Lh [Ih [Mh Bh]]]; try assumption; [discriminate| |].
  { eapply Forall_impl; [|exact Hwf']. intros w [_ H]. exact H. }
  pose proof (votes_pigeonhole DTMF_LOW lows (votes lf lows)
                (proj1 NoDup_DTMF) Il Ml) as Pl.
  pose proof (votes_pigeonhole DTMF_HIGH highs (votes hf highs)
                (proj2 NoDup_DTMF) Ih Mh) as Ph.
  simpl List.length in Pl, Ph.
  eexists lows, highs, _.
  split; [exact El|]. split; [exact Eh|]. split; [exact Erow|].
  cbn [num_windows g_low_count g_high_count g_low_freq g_high_freq].
  repeat (split; [first [reflexivity|assumption|lia]|]). lia.
Qed.

Lemma consensus_counts_witness :
  exists lows highs row,
    band_winners DTMF_LOW goertzel_low
      (region_wins split_vote_windows (1, 5)%Q) = Some lows /\
    band_winners DTMF_HIGH goertzel_high
      (region_wins split_vote_windows (1, 5)%Q) = Some highs /\
    analyse_region split_vote_windows O (1, 5)%Q = Some (Some row) /\
    num_windows row = List.length (region_wins split_vote_windows (1, 5)%Q) /\
    List.length lows = num_windows row /\
    List.length highs = num_windows row /\
    g_low_count row = votes (g_low_freq row) lows /\
    g_high_count row = votes (g_high_freq row) highs /\
    (forall v, votes v lows <= g_low_count row)%nat /\
    (forall v, votes v highs <= g_high_count row)%nat /\
    (1 <= g_low_count row <= num_windows row)%nat /\
    (1 <= g_high_count row <= num_windows row)%nat /\
    (num_windows row <= 4 * g_low_count row)%nat /\
    (num_windows row <= 4 * g_high_count row)%nat.
Proof.
  apply (consensus_counts split_vote_windows O (1, 5)%Q).
  - repeat constructor.
  - vm_compute. discriminate.
Defined.

(** X10. If strictly more than half of a region's active member windows
    have the same Goertzel winner in a band, that frequency is the band's
    consensus; when this holds in both bands the region's digit is the
    table entry of the two frequencies. *)
Theorem strict_majority_wins (windows : list Window) (idx : nat)
  (r : Q * Q) :
  Forall well_formed windows ->
  region_wins windows r <> [] ->
  exists lows highs row,
    band_winners DTMF_LOW goertzel_low (region_wins windows r) = Some lows /\
    band_winners DTMF_HIGH goertzel_high (region_wins windows r)
    = Some highs /\
    analyse_region windows idx r = Some (Some row) /\
    (forall a, (List.length lows < 2 * votes a lows)%nat ->
               g_low_freq row = a) /\
    (forall b, (List.length highs < 2 * votes b highs)%nat ->
               g_high_freq row = b) /\
    (forall a b,
        (List.length lows < 2 * votes a lows)%nat ->
        (List.length highs < 2 * votes b highs)%nat ->
        dict_get DTMF_MAP (a, b) = Some (g_digit row)).
Proof.
  intros Hwf Hne.
  pose proof (region_wins_well_formed windows r Hwf) as Hwf'.
  destruct (analyse_region_row windows idx r Hwf Hne)
    as [lows [highs [lf [hf [El [Eh [Vl [Vh [Il [Ih Erow]]]]]]]]]].
  assert (Hlow : forall a, (List.length lows < 2 * votes a lows)%nat -> lf = a).
  { intros a Ha. destruct (Z.eq_dec lf a) as [E|Hd]; [exact E|exfalso].
    pose proof (majority_vote_max lows lf Vl a).
    pose proof (votes_two a lf lows ltac:(congruence)). lia. }
  assert (Hhigh : forall b, (List.length highs < 2 * votes b highs)%nat ->
                            hf = b).
  { intros b Hb. destruct (Z.eq_dec hf b) as [E|Hd]; [exact E|exfalso].
    pose proof (majority_vote_max highs hf Vh b).
    pose proof (votes_two b hf highs ltac:(congruence)). lia. }
  eexists lows, highs, _.
  split; [exact El|]. split; [exact Eh|]. split; [exact Erow|].
  cbn [g_low_freq g_high_freq g_digit].
  split; [exact Hlow|]. split; [exact Hhigh|].
  intros a b Ha Hb. rewrite <- (Hlow a Ha), <- (Hhigh b Hb).
  destruct (DTMF_MAP_total lf hf Il Ih) as [d [Ed _]].
  unfold dict_get_default. now rewrite Ed.
Qed.

Lemma strict_majority_wins_witness :
  exists lows highs row,
    band_winners DTMF_LOW goertzel_low
      (region_wins tone_then_quiet (1, 4)%Q) = Some lows /\
    band_winners DTMF_HIGH goertzel_high
      (region_wins tone_then_quiet (1, 4)%Q) = Some highs /\
    analyse_region tone_then_quiet O (1, 4)%Q = Some (Some row) /\
    (forall a, (List.length lows < 2 * votes a lows)%nat ->
               g_low_freq row = a) /\
    (forall b, (List.length highs < 2 * votes b highs)%nat ->
               g_high_freq row = b) /\
    (forall a b,
        (List.length lows < 2 * votes a lows)%nat ->
        (List.length highs < 2 * votes b highs)%nat ->
        dict_get DTMF_MAP (a, b) = Some (g_digit row)).
Proof.
  apply (strict_majority_wins tone_then_quiet O (1, 4)%Q).
  - repeat constructor.
  - vm_compute. discriminate.
Defined.

End VoteFacts.

(* ====================================================================== *)
(** * Properties of the statistics, slices and diagnostics *)
(* ====================================================================== *)

Module ReportFacts.

Import Py Dtmf Tools Report Design Aux SegAux PyFacts DtmfFacts ToolsFacts.

Lemma fold_max_spec (l : list Z) :
  forall acc,
    (fold_left Z.max l acc = acc \/ In (fold_left Z.max l acc) l) /\
    (acc <= fold_left Z.max l acc)%Z /\
    forall x, In x l -> (x <= fold_left Z.max l acc)%Z.
Proof.
  induction l as [|y l IH]; intros acc; simpl.
  - split; [now left|]. split; [lia|]. intros x [].
  - destruct (IH (Z.max acc y)) as [Hin [Hge Hall]].
    split; [|split].
    + destruct Hin as [E|Hin]; [|right; now right].
      rewrite E. destruct (Z.max_spec acc y) as [[_ ->]|[_ ->]];
        [right; now left|now left].
    + lia.
    + intros x [<-|Hx]; [lia|now apply Hall].
Qed.

Lemma fold_min_spec (l : list Z) :
  forall acc,
    (fold_left Z.min l acc = acc \/ In (fold_left Z.min l acc) l) /\
    (fold_left Z.min l acc <= acc)%Z /\
    forall x, In x l -> (fold_left Z.min l acc <= x)%Z.
Proof.
  induction l as [|y l IH]; intros acc; simpl.
  - split; [now left|]. split; [lia|]. intros x [].
  - destruct (IH (Z.min acc y)) as [Hin [Hge Hall]].
    split; [|split].
    + destruct Hin as [E|Hin]; [|right; now right].
      rewrite E. destruct (Z.min_spec acc y) as [[_ ->]|[_ ->]];
        [now left|right; now left].
    + lia.
    + intros x [<-|Hx]; [lia|now apply Hall].
Qed.

Lemma np_max_spec (a : list Z) (m : Z) :
  np_max a = Some m -> In m a /\ forall x, In x a -> (x <= m)%Z.
Proof.
  destruct a as [|x0 rest]; [discriminate|]. simpl. intros E.
  inversion E as [Em]. clear E.
  destruct (fold_max_spec rest x0) as [Hin [Hge Hall]].
  split.
  - destruct Hin as [->|Hin]; [now left|now right].
  - intros x [<-|Hx]; [exact Hge|now apply Hall].
Qed.

Lemma np_min_spec (a : list Z) (m : Z) :
  np_min a = Some m -> In m a /\ forall x, In x a -> (m <= x)%Z.
Proof.
  destruct a as [|x0 rest]; [discriminate|]. simpl. intros E.
  inversion E as [Em]. clear E.
  destruct (fold_min_spec rest x0) as [Hin [Hge Hall]].
  split.
  - destruct Hin as [->|Hin]; [now left|now right].
  - intros x [<-|Hx]; [exact Hge|now apply Hall].
Qed.

Lemma peak_amplitude_spec (data : list Z) :
  data <> [] ->
  exists p,
    peak_amplitude data = Some p /\
    (forall x, In x data -> (Z.abs x <= p)%Z) /\
    (exists x, In x data /\ Z.abs x = p).
Proof.
  intros Hne. unfold peak_amplitude.
  destruct (np_min data) as [mn|] eqn:Emin;
    [|destruct data; [congruence|discriminate]].
  destruct (np_max data) as [mx|] eqn:Emax;
    [|destruct data; [congruence|discriminate]].
  destruct (np_min_spec data mn Emin) as [Imn Hmn].
  destruct (np_max_spec data mx Emax) as [Imx Hmx].
  cbn [bind]. eexists. split; [reflexivity|]. split.
  - intros x Hx. specialize (Hmn x Hx). specialize (Hmx x Hx). lia.
  - destruct (Z.max_spec (Z.abs mn) (Z.abs mx)) as [[_ E]|[_ E]];
      rewrite E; [now exists mx|now exists mn].
Qed.

(** X11. On a non-empty buffer the peak amplitude is the largest absolute
    sample value: no sample exceeds it in absolute value and some sample
    attains it.  On an empty buffer the statistics fail. *)
Theorem peak_amplitude_is_max_abs (data : list Z) :
  (data = [] -> peak_amplitude data = None) /\
  (data <> [] ->
   exists p,
     peak_amplitude data = Some p /\
     (forall x, In x data -> (Z.abs x <= p)%Z) /\
     (exists x, In x data /\ Z.abs x = p)).
Proof.
  split.
  - intros ->. reflexivity.
  - apply peak_amplitude_spec.
Qed.

Lemma peak_amplitude_is_max_abs_witness :
  exists p,
    peak_amplitude [3; -9; 4]%Z = Some p /\
    (forall x, In x [3; -9; 4]%Z -> (Z.abs x <= p)%Z) /\
    (exists x, In x [3; -9; 4]%Z /\ Z.abs x = p).
Proof.
  apply (peak_amplitude_is_max_abs [3; -9; 4]%Z). discriminate.
Defined.

(** X12. For 16-bit samples the clipping count is the number of samples
    above 32000 or below -32000, except that the most negative value
    -32768 is not counted, because its absolute value wraps around in the
    [int16] array.  The count never exceeds the number of samples; a
    buffer stuck at -32768 has peak amplitude 32768 and no clipped
    sample. *)
Theorem clipped_misses_most_negative (data : list Z) :
  Forall (fun x => (-32768 <= x <= 32767)%Z) data ->
  clipped data
  = Z.of_nat
      (List.length
         (filter (fun x => (32000 <? x)%Z
                           || ((x <? -32000)%Z && negb (x =? -32768)%Z))
                 data)) /\
  (0 <= clipped data <= Z.of_nat (List.length data))%Z /\
  (data <> [] -> (forall x, In x data -> x = (-32768)%Z) ->
   peak_amplitude data = Some 32768%Z /\ clipped data = 0%Z).
Proof.
  intros Hrange. split; [|split].
  - unfold clipped. do 2 f_equal. apply filter_ext_in.
    intros x Hx. rewrite Forall_forall in Hrange.
    specialize (Hrange x Hx). unfold abs16.
    destruct (Z.eqb_spec x (-32768)) as [->|Hx']; [reflexivity|].
    simpl negb. rewrite andb_true_r.
    destruct (Z.ltb_spec 32000 (Z.abs x)), (Z.ltb_spec 32000 x),
      (Z.ltb_spec x (-32000)); simpl; try reflexivity; lia.
  - unfold clipped. split; [lia|].
    apply inj_le. apply filter_length_le.
  - intros Hne Hall. split.
    + destruct (peak_amplitude_spec data Hne) as [p [Ep [Hb [x [Hx E]]]]].
      rewrite Ep. f_equal. rewrite <- E, (Hall x Hx). reflexivity.
    + unfold clipped.
      replace (filter (fun x => (32000 <? abs16 x)%Z) data) with (@nil Z);
        [reflexivity|].
      symmetry. clear Hne Hrange.
      induction data as [|x l IH]; [reflexivity|].
      simpl. rewrite (Hall x) by now left. simpl.
      apply IH. intros y Hy. apply Hall. now right.
Qed.

Lemma clipped_misses_most_negative_witness :
  clipped [-32768; 32001; -32001; 100]%Z
  = Z.of_nat
      (List.length
         (filter (fun x => (32000 <? x)%Z
                           || ((x <? -32000)%Z && negb (x =? -32768)%Z))
                 [-32768; 32001; -32001; 100]%Z)) /\
  (0 <= clipped [-32768; 32001; -32001; 100]%Z
   <= Z.of_nat (List.length [-32768; 32001; -32001; 100]%Z))%Z /\
  ([-32768; 32001; -32001; 100]%Z <> [] ->
   (forall x, In x [-32768; 32001; -32001; 100]%Z -> x = (-32768)%Z) ->
   peak_amplitude [-32768; 32001; -32001; 100]%Z = Some 32768%Z /\
   clipped [-32768; 32001; -32001; 100]%Z = 0%Z).
Proof.
  apply (clipped_misses_most_negative [-32768; 32001; -32001; 100]%Z).
  repeat constructor; lia.
Defined.

(** ** Waveform slices *)

Lemma slice_clamped {A} (data : list A) (a b : Z) :
  (0 <= a)%Z -> (0 <= b)%Z ->
  let len := Z.of_nat (List.length data) in
  slice data a b
  = firstn (Z.to_nat (Z.min b len - Z.min a len))
           (skipn (Z.to_nat (Z.min a len)) data).
Proof.
  intros Ha Hb len. unfold slice, clamp_index. fold len.
  destruct (Z.ltb_spec a 0); [lia|].
  destruct (Z.ltb_spec b 0); [lia|]. reflexivity.
Qed.

Lemma firstn_skipn_add {A} (l : list A) :
  forall a c, firstn a l ++ firstn c (skipn a l) = firstn (a + c) l.
Proof.
  induction l as [|x l IH]; intros a c.
  - now rewrite skipn_nil, !firstn_nil.
  - destruct a as [|a]; [reflexivity|]. simpl. now rewrite IH.
Qed.

Lemma waveform_prefix (data : list Z) (rate : Z) :
  (0 < rate)%Z ->
  forall m,
    List.concat (map (waveform_slice data rate) (map Z.of_nat (seq 0 m)))
    = firstn (Z.to_nat (Z.min (Z.of_nat m * rate)
                              (Z.of_nat (List.length data)))) data.
Proof.
  intros Hrate. induction m as [|m IH].
  - simpl. rewrite Z.min_l by lia. reflexivity.
  - rewrite seq_S, !map_app, concat_app, IH. simpl map. simpl List.concat.
    rewrite app_nil_r. unfold waveform_slice.
    rewrite slice_clamped by lia.
    set (len := Z.of_nat (List.length data)).
    rewrite firstn_skipn_add. f_equal.
    replace (Z.of_nat (S m)) with (Z.of_nat m + 1)%Z by lia.
    lia.
Qed.

Lemma num_seconds_spec (len rate : Z) :
  (0 < rate)%Z ->
  (len <= num_seconds len rate * rate)%Z /\
  ((num_seconds len rate - 1) * rate < len)%Z.
Proof.
  intros Hrate. unfold num_seconds.
  destruct rate as [|p|p]; try lia.
  assert (Hx : (inject_Z len / inject_Z (Z.pos p) == len # p)%Q)
    by (unfold Qeq; simpl; lia).
  rewrite (Qceiling_comp _ _ Hx).
  pose proof (Qle_ceiling (len # p)) as Hle.
  pose proof (Qceiling_lt (len # p)) as Hlt.
  unfold Qle, Qlt, inject_Z in Hle, Hlt. simpl in Hle, Hlt.
  split; lia.
Qed.

(** X13. For a positive rate the per-second waveform slices are produced
    without error, there are [ceil(len / rate)] of them, none is longer
    than one second, and joined in order they give back the buffer: every
    sample is plotted exactly once. *)
Theorem waveform_slices_partition (data : list Z) (rate : Z) :
  (0 < rate)%Z ->
  let len := Z.of_nat (List.length data) in
  exists slices,
    waveform_slices data rate = Some slices /\
    List.concat slices = data /\
    Z.of_nat (List.length slices) = num_seconds len rate /\
    (len <= num_seconds len rate * rate)%Z /\
    ((num_seconds len rate - 1) * rate < len)%Z /\
    Forall (fun s => (Z.of_nat (List.length s) <= rate)%Z) slices.
Proof.
  intros Hrate len.
  destruct (num_seconds_spec len rate Hrate) as [Hup Hlow].
  set (n := num_seconds len rate) in *.
  assert (Hn : (0 <= n)%Z) by nia.
  assert (Hrange : range 0 n 1 = Some (map Z.of_nat (seq 0 (Z.to_nat n)))).
  { unfold range. simpl. f_equal.
    assert (E : range_len 0 n 1 = Z.to_nat n).
    { unfold range_len. simpl.
      destruct (Z.ltb_spec 0 n); [|lia].
      rewrite Z.sub_0_r, Z.div_1_r. lia. }
    rewrite E. apply map_ext. intros j. lia. }
  unfold waveform_slices. fold len. fold n. rewrite Hrange. cbn [bind].
  eexists. split; [reflexivity|]. split; [|split; [|split; [|split]]].
  - rewrite (waveform_prefix data rate Hrate). fold len.
    rewrite Z2Nat.id by exact Hn. rewrite Z.min_r by lia.
    unfold len. rewrite Nat2Z.id. apply firstn_all.
  - rewrite !length_map, length_seq. lia.
  - exact Hup.
  - exact Hlow.
  - apply Forall_forall. intros s Hs.
    apply in_map_iff in Hs. destruct Hs as [sec [<- Hsec]].
    apply in_map_iff in Hsec. destruct Hsec as [j [<- _]].
    unfold waveform_slice. rewrite slice_clamped by lia.
    rewrite length_firstn. fold len. lia.
Qed.

Lemma waveform_slices_partition_witness :
  exists slices,
    waveform_slices [1; 2; 3; 4; 5; 6; 7]%Z 3 = Some slices /\
    List.concat slices = [1; 2; 3; 4; 5; 6; 7]%Z /\
    Z.of_nat (List.length slices) = num_seconds 7 3 /\
    (7 <= num_seconds 7 3 * 3)%Z /\
    ((num_seconds 7 3 - 1) * 3 < 7)%Z /\
    Forall (fun s => (Z.of_nat (List.length s) <= 3)%Z) slices.
Proof.
  apply (waveform_slices_partition [1; 2; 3; 4; 5; 6; 7]%Z 3). lia.
Defined.

(** ** Spectrum plots *)

(** X14. The spectrum plot of a representative window does not re-read
    the samples the window was analysed on: for a window at sample offset
    [i >= 1] the plotted chunk starts at sample [i - 1], and only for the
    first window ([i = 0]) at the window's own offset.  The half window
    is [window_n // 2 = 2756] samples in the timestamp but
    [window_ms / 2000 * rate = 2756.25] samples when it is subtracted
    again. *)
Theorem spectrum_chunk_starts_one_early (i : Z) (t : Q) :
  (0 <= i)%Z ->
  t_center rate window_n i = Some t ->
  spectrum_sample_start t = Z.max 0 (i - 1).
Proof.
  intros Hi Ht. unfold t_center in Ht. simpl in Ht.
  inversion Ht as [Et]. clear Ht Et.
  change (window_n / 2)%Z with 2756%Z.
  unfold spectrum_sample_start.
  change (inject_Z window_ms) with (250 # 1)%Q.
  change (inject_Z rate) with (22050 # 1)%Q.
  set (x := ((inject_Z (i + 2756) / (22050 # 1) - (250 # 1) / 2000)
             * (22050 # 1))%Q).
  assert (Hx : (x == (4 * i - 1) # 4)%Q).
  { unfold x. rewrite inject_Z_plus.
    setoid_replace ((4 * i - 1) # 4)%Q with (inject_Z i - (1 # 4))%Q.
    - field.
    - unfold Qeq, Qminus, Qplus, Qopp, inject_Z. cbn [Qnum Qden]. lia. }
  unfold int_of.
  destruct (Qle_bool 0 x) eqn:Hsign.
  - apply Qle_bool_iff in Hsign. rewrite Hx in Hsign.
    assert (1 <= i)%Z by (unfold Qle in Hsign; cbn [Qnum Qden] in Hsign; lia).
    rewrite (Qfloor_comp _ _ Hx). unfold Qfloor.
    assert ((4 * i - 1) / 4 = i - 1)%Z
      by (symmetry; apply (Z.div_unique _ 4 (i - 1) 3); lia).
    lia.
  - assert (Hneg : ~ (0 <= x)%Q)
      by (intros H; apply Qle_bool_iff in H; congruence).
    rewrite Hx in Hneg.
    assert (i = 0)%Z by (unfold Qle in Hneg; cbn [Qnum Qden] in Hneg; lia).
    subst i. rewrite (Qceiling_comp _ _ Hx). reflexivity.
Qed.

Lemma spectrum_chunk_starts_one_early_witness :
  spectrum_sample_start ((2756 + 2756) # 22050) = Z.max 0 (2756 - 1).
Proof.
  apply (spectrum_chunk_starts_one_early 2756 ((2756 + 2756) # 22050)).
  - lia.
  - reflexivity.
Defined.

End ReportFacts.

(* ====================================================================== *)
(** * Noise floor, percentile and signal-to-noise diagnostic *)
(* ====================================================================== *)

Module NoiseFacts.

Import Py Dtmf Tools Report Design Aux PyFacts DtmfFacts ToolsFacts.
Import Lqa.
Local Open Scope Q_scope.

Lemma insert_sorted_facts (x : Q) (l : list Q) :
  List.length (insert_sorted x l) = S (List.length l) /\
  forall y, In y (insert_sorted x l) <-> y = x \/ In y l.
Proof.
  induction l as [|z l [IHl IHi]]; simpl.
  - split; [reflexivity|]. intros y. intuition.
  - destruct (Qle_bool x z); simpl.
    + split; [reflexivity|]. intros y. intuition.
    + split; [now rewrite IHl|]. intros y. rewrite IHi. intuition.
Qed.

Lemma sort_facts (l : list Q) :
  List.length (sort l) = List.length l /\
  forall y, In y (sort l) <-> In y l.
Proof.
  unfold sort. induction l as [|x l [IHl IHi]]; simpl.
  - split; [reflexivity|tauto].
  - destruct (insert_sorted_facts x (fold_right insert_sorted [] l))
      as [Hl Hi].
    split; [now rewrite Hl, IHl|].
    intros y. rewrite Hi, IHi. intuition.
Qed.

Lemma inject_Z_nonneg (z : Z) : (0 <= z)%Z -> 0 <= inject_Z z.
Proof. intros H. unfold Qle. simpl. lia. Qed.

(** [np.percentile] with linear interpolation stays between the smallest
    and the largest entry. *)
Lemma percentile_between (a : list Q) (p lower upper : Q) :
  a <> [] -> 0 <= p -> p <= 100 ->
  (forall m, In m a -> lower <= m /\ m <= upper) ->
  exists v, percentile a p = Some v /\ lower <= v /\ v <= upper.
Proof.
  intros Hne Hp0 Hp100 Hall.
  destruct (sort_facts a) as [Hlen Hin].
  unfold percentile. destruct a as [|a0 a']; [congruence|].
  set (s := sort (a0 :: a')) in *.
  set (n := List.length s) in *.
  assert (Hn : (1 <= n)%nat) by (rewrite Hlen; simpl; lia).
  set (N := inject_Z (Z.of_nat n - 1)).
  assert (HN : 0 <= N) by (apply inject_Z_nonneg; lia).
  set (vi := N * p / 100).
  assert (Hnp0 : 0 <= N * p) by nra.
  assert (Hnp1 : N * p <= N * 100) by nra.
  assert (Hd : vi == N * p * (1 # 100)) by (unfold vi; field).
  assert (Hvi0 : 0 <= vi) by (rewrite Hd; lra).
  assert (Hvi1 : vi <= N) by (rewrite Hd; lra).
  set (lo := Qfloor vi).
  assert (Hlo0 : (0 <= lo)%Z).
  { change 0%Z with (Qfloor 0). now apply Qfloor_resp_le. }
  assert (Hlo1 : (lo <= Z.of_nat n - 1)%Z).
  { rewrite <- (Qfloor_Z (Z.of_nat n - 1)). now apply Qfloor_resp_le. }
  set (hi := Z.min (lo + 1) (Z.of_nat n - 1)).
  set (g := vi - inject_Z lo).
  assert (Hg0 : 0 <= g).
  { unfold g. pose proof (Qfloor_le vi). fold lo in H. lra. }
  assert (Hg1 : g <= 1).
  { unfold g. pose proof (Qlt_floor vi) as H. fold lo in H.
    rewrite inject_Z_plus in H. change (inject_Z 1) with 1 in H. lra. }
  assert (Hnth : forall k, (0 <= k <= Z.of_nat n - 1)%Z ->
                           lower <= nth (Z.to_nat k) s 0 /\
                           nth (Z.to_nat k) s 0 <= upper).
  { intros k Hk. apply Hall. apply Hin. apply nth_In. lia. }
  destruct (Hnth lo ltac:(lia)) as [Hl1 Hl2].
  destruct (Hnth hi ltac:(unfold hi; lia)) as [Hh1 Hh2].
  eexists. split; [reflexivity|].
  rewrite Qred_correct.
  fold N. fold vi. fold lo. fold hi. fold g.
  set (alo := nth (Z.to_nat lo) s 0) in *.
  set (ahi := nth (Z.to_nat hi) s 0) in *.
  split; nra.
Qed.

Lemma map_opt_members {A B} (f : A -> option B) (l : list A) (bs : list B) :
  map_opt f l = Some bs ->
  List.length bs = List.length l /\
  (forall a, In a l -> exists b, f a = Some b /\ In b bs) /\
  (forall b, In b bs -> exists a, In a l /\ f a = Some b).
Proof.
  revert bs. induction l as [|a l IH]; intros bs; simpl.
  - intros E. inversion E. split; [reflexivity|]. split; intros x [].
  - destruct (f a) as [b|] eqn:Ea; [|discriminate]. cbn [bind].
    destruct (map_opt f l) as [bs'|]; [|discriminate]. cbn [bind].
    intros E. inversion E; subst.
    destruct (IH bs' eq_refl) as [Hl [H1 H2]].
    split; [simpl; now rewrite Hl|]. split.
    + intros x [<-|Hx]; [exists b; split; [exact Ea|now left]|].
      destruct (H1 x Hx) as [y [Ey Hy]]. exists y. split; [exact Ey|now right].
    + intros y [<-|Hy]; [exists a; split; [now left|exact Ea]|].
      destruct (H2 y Hy) as [x [Hx Ex]]. exists x. split; [now right|exact Ex].
Qed.

Lemma min_from_spec (l : list Q) :
  forall best,
    In (min_from best l) (best :: l) /\
    forall x, In x (best :: l) -> min_from best l <= x.
Proof.
  induction l as [|y l IH]; intros best; simpl.
  - split; [now left|]. intros x [<-|[]]. lra.
  - destruct (Qlt_bool y best) eqn:E.
    + apply Qlt_bool_true in E.
      destruct (IH y) as [Hin Hmin]. split; [now right|].
      intros x [<-|Hx]; [|now apply Hmin].
      specialize (Hmin y (or_introl eq_refl)). lra.
    + apply Qlt_bool_false in E.
      destruct (IH best) as [Hin Hmin]. split.
      * destruct Hin as [<-|Hin]; [now left|right; now right].
      * intros x [<-|[<-|Hx]].
        -- apply Hmin. now left.
        -- specialize (Hmin best (or_introl eq_refl)). lra.
        -- apply Hmin. now right.
Qed.

Lemma min_list_spec (l : list Q) (m : Q) :
  min_list l = Some m -> In m l /\ forall x, In x l -> m <= x.
Proof.
  destruct l as [|b l]; [discriminate|]. simpl. intros E.
  inversion E; subst. apply min_from_spec.
Qed.

Lemma wf_filter (p : Window -> bool) (windows : list Window) :
  Forall well_formed windows -> Forall well_formed (filter p windows).
Proof.
  intros H. apply Forall_forall. intros w Hw. apply filter_In in Hw.
  rewrite Forall_forall in H. apply H. tauto.
Qed.

(** X15. With at least one noise window (and four magnitudes per band in
    every record) the noise floor is computed without error and lies
    between the smallest and the largest of the noise windows' strongest
    Goertzel magnitudes; the largest one is the [noise_goertzel_max] of
    the signal-to-noise diagnostic, so the absolute threshold is at most
    10 times that value.  The diagnostic never divides by zero: its ratio
    is [active_min / noise_max] when [noise_max > 0], infinite when
    [noise_max <= 0] and there are active windows, and 0 when there is no
    active window. *)
Theorem noise_floor_within_noise_range (windows : list Window) :
  Forall well_formed windows ->
  noise_windows windows <> [] ->
  exists mags nf entry,
    map_opt window_goertzel_max (noise_windows windows) = Some mags /\
    noise_floor_g windows = Some nf /\
    abs_goertzel_threshold windows = Some (nf * 10) /\
    snr_diagnostic windows = Some (Some entry) /\
    In (noise_goertzel_max entry) mags /\
    (forall m, In m mags -> m <= noise_goertzel_max entry) /\
    nf <= noise_goertzel_max entry /\
    (forall lower, (forall m, In m mags -> lower <= m) -> lower <= nf) /\
    (active_windows windows = [] ->
     active_goertzel_min entry = 0 /\ snr_ratio entry = Finite 0) /\
    (active_windows windows <> [] ->
     (forall w, In w (active_windows windows) ->
        exists m, window_goertzel_max w = Some m /\
                  active_goertzel_min entry <= m) /\
     (0 < noise_goertzel_max entry ->
      snr_ratio entry
      = Finite (active_goertzel_min entry / noise_goertzel_max entry)) /\
     (noise_goertzel_max entry <= 0 -> snr_ratio entry = Infinite)).
Proof.
  intros Hwf Hne.
  destruct (noise_mags_total (noise_windows windows)) as [mags [Em HF]];
    [now apply wf_filter|].
  assert (Hmne : mags <> []).
  { intros ->. inversion HF as [Hnil|]; subst. congruence. }
  destruct (max_list mags) as [nmax|] eqn:Emax;
    [|destruct mags; [congruence|discriminate]].
  pose proof (max_by_spec (fun x : Q => x) mags) as Hmax.
  unfold max_list in Emax. rewrite Emax in Hmax. destruct Hmax as [Hin Hle].
  destruct (min_list mags) as [mmin|] eqn:Emin;
    [|destruct mags; [congruence|discriminate]].
  destruct (min_list_spec mags mmin Emin) as [Hmin_in Hmin].
  destruct (percentile_between mags 95 mmin nmax Hmne)
    as [nf [Enf [Hnf1 Hnf2]]]; [lra|lra| |].
  { intros m Hm. split; [now apply Hmin|now apply Hle]. }
  assert (Efloor : noise_floor_g windows = Some nf).
  { unfold noise_floor_g.
    destruct (noise_windows windows) as [|w0 ws0]; [congruence|].
    rewrite Em. cbn [bind]. exact Enf. }
  assert (Hsnr : exists entry,
             snr_diagnostic windows = Some (Some entry) /\
             noise_goertzel_max entry = nmax /\
             (active_windows windows = [] ->
              active_goertzel_min entry = 0 /\ snr_ratio entry = Finite 0) /\
             (active_windows windows <> [] ->
              (forall w, In w (active_windows windows) ->
                 exists m, window_goertzel_max w = Some m /\
                           active_goertzel_min entry <= m) /\
              (0 < nmax ->
               snr_ratio entry = Finite (active_goertzel_min entry / nmax)) /\
              (nmax <= 0 -> snr_ratio entry = Infinite))).
  { unfold snr_diagnostic.
    destruct (noise_windows windows) as [|w0 ws0]; [congruence|].
    rewrite Em. cbn [bind]. unfold max_list. rewrite Emax. cbn [bind].
    destruct (active_windows windows) as [|a0 as0] eqn:Eact.
    - eexists. split; [reflexivity|]. split; [reflexivity|].
      split; [intros _; split; reflexivity|]. intros H. congruence.
    - destruct (noise_mags_total (a0 :: as0)) as [amags [Ea _]].
      { rewrite <- Eact. unfold active_windows. now apply wf_filter. }
      rewrite Ea. cbn [bind].
      destruct (map_opt_members _ _ _ Ea) as [Hal [Hfwd _]].
      destruct (min_list amags) as [amin|] eqn:Eamin;
        [|destruct amags; [discriminate|discriminate]].
      destruct (min_list_spec amags amin Eamin) as [_ Hamin].
      cbn [bind].
      eexists. split; [reflexivity|]. split; [reflexivity|].
      split; [intros H; discriminate|]. intros _.
      cbn [active_goertzel_min snr_ratio]. split; [|split].
      + intros w Hw. destruct (Hfwd w Hw) as [m [Ew Hm]].
        exists m. split; [exact Ew|now apply Hamin].
      + intros Hpos.
        assert (Qlt_bool 0 nmax = true) as ->; [|reflexivity].
        unfold Qlt_bool. apply negb_true_iff.
        destruct (Qle_bool nmax 0) eqn:E; [|reflexivity].
        apply Qle_bool_iff in E. lra.
      + intros Hnonpos.
        assert (Qlt_bool 0 nmax = false) as ->; [|reflexivity].
        unfold Qlt_bool. apply negb_false_iff. now apply Qle_bool_iff. }
  destruct Hsnr as [entry [Esnr [Enmax [Hnoact Hact]]]].
  exists mags, nf, entry.
  split; [exact Em|]. split; [exact Efloor|].
  split; [unfold abs_goertzel_threshold; rewrite Efloor; reflexivity|].
  split; [exact Esnr|]. rewrite Enmax.
  split; [exact Hin|]. split; [exact Hle|]. split; [exact Hnf2|].
  split.
  { intros lower Hlow. specialize (Hlow mmin Hmin_in). lra. }
  split; [exact Hnoact|exact Hact].
Qed.

Lemma noise_floor_within_noise_range_witness :
  exists mags nf entry,
    map_opt window_goertzel_max (noise_windows tone_then_quiet) = Some mags /\
    noise_floor_g tone_then_quiet = Some nf /\
    abs_goertzel_threshold tone_then_quiet = Some (nf * 10) /\
    snr_diagnostic tone_then_quiet = Some (Some entry) /\
    In (noise_goertzel_max entry) mags /\
    (forall m, In m mags -> m <= noise_goertzel_max entry) /\
    nf <= noise_goertzel_max entry /\
    (forall lower, (forall m, In m mags -> lower <= m) -> lower <= nf) /\
    (active_windows tone_then_quiet = [] ->
     active_goertzel_min entry = 0 /\ snr_ratio entry = Finite 0) /\
    (active_windows tone_then_quiet <> [] ->
     (forall w, In w (active_windows tone_then_quiet) ->
        exists m, window_goertzel_max w = Some m /\
                  active_goertzel_min entry <= m) /\
     (0 < noise_goertzel_max entry ->
      snr_ratio entry
      = Finite (active_goertzel_min entry / noise_goertzel_max entry)) /\
     (noise_goertzel_max entry <= 0 -> snr_ratio entry = Infinite)).
Proof.
  apply (noise_floor_within_noise_range tone_then_quiet).
  - repeat constructor.
  - vm_compute. discriminate.
Defined.

End NoiseFacts.

(* ====================================================================== *)
(** * Invariants of the digit events *)
(* ====================================================================== *)

Module EventFacts.

Import Py Dtmf Logs Design Aux Spans PyFacts DtmfFacts LogsFacts.

Lemma chain_weaken (spans : list Span) :
  forall prev b b',
    (b <= b')%Z -> span_chain prev b spans -> span_chain prev b' spans.
Proof.
  induction spans as [|sp rest IH]; intros prev b b' Hb H; simpl in *.
  - exact I.
  - destruct H as [H1 [H2 [H3 H4]]].
    repeat split; try assumption; [lia|]. eapply IH; eassumption.
Qed.

Lemma chain_member (spans : list Span) :
  forall prev b sp,
    span_chain prev b spans -> In sp spans ->
    (span_start sp < span_end sp)%Z /\ (span_end sp <= b)%Z.
Proof.
  induction spans as [|sp0 rest IH]; intros prev b sp H Hin.
  - contradiction.
  - simpl in H. destruct H as [_ [H2 [H3 H4]]].
    destruct Hin as [<-|Hin]; [split; assumption|].
    eapply IH; eassumption.
Qed.

Lemma last_some_snoc (spans : list Span) (sp : Span) (d : option Span) :
  List.last (map Some (spans ++ [sp])) d = Some sp.
Proof. rewrite map_app. simpl. apply last_last. Qed.

Lemma last_some_member (spans : list Span) (p : Span) :
  List.last (map Some spans) None = Some p -> In p spans.
Proof.
  induction spans as [|sp rest IH]; [discriminate|].
  destruct rest as [|sp' rest'].
  - simpl. intros E. inversion E. now left.
  - intros E. right. apply IH. exact E.
Qed.

Lemma last_some_cons (spans : list Span) (sp : Span) (prev : option Span) :
  List.last (map Some (sp :: spans)) prev
  = List.last (map Some spans) (Some sp).
Proof.
  revert sp prev. induction spans as [|s rest IH]; intros sp prev.
  - reflexivity.
  - change (List.last (map Some (sp :: s :: rest)) prev)
      with (List.last (map Some (s :: rest)) prev).
    rewrite (IH s prev). symmetry. apply IH.
Qed.

Lemma chain_snoc (spans : list Span) :
  forall prev b sp,
    span_chain prev b spans ->
    follows_opt (List.last (map Some spans) prev) sp ->
    (span_start sp < span_end sp)%Z -> (span_end sp <= b)%Z ->
    span_chain prev b (spans ++ [sp]).
Proof.
  induction spans as [|s rest IH]; intros prev b sp H Hf H1 H2.
  - simpl in *. repeat split; assumption.
  - simpl in H. destruct H as [Ha [Hb [Hc Hd]]].
    rewrite last_some_cons in Hf.
    simpl. repeat split; try assumption. now apply IH.
Qed.

Lemma follows_opt_start (prev : option Span) (sp sp' : Span) :
  span_start sp = span_start sp' -> span_digit sp = span_digit sp' ->
  follows_opt prev sp -> follows_opt prev sp'.
Proof.
  intros Hs Hd. destruct prev as [p|]; simpl; [|trivial].
  unfold follows. now rewrite Hs, Hd.
Qed.

Lemma asm_spans_inv (rate : Z) (st : AsmState) (spans : list Span)
  (seen : list Classified) (b : Z) :
  asm_spans rate st spans seen b -> asm_inv st.
Proof.
  intros [_ [_ [[H|[d [s [Hd [Ht [Hs _]]]]]] _]]].
  - now left.
  - right. rewrite Hd. split; [exact Ht|now exists s].
Qed.

Lemma truthy_neq_none (d : option string) : truthy d = true -> d <> None.
Proof. destruct d; [discriminate|discriminate]. Qed.

(** One window more. *)
Lemma asm_spans_step (rate : Z) (st : AsmState) (spans : list Span)
  (seen : list Classified) (b i : Z) (digit : option string)
  (info : option DigitInfo) :
  asm_spans rate st spans seen b ->
  digit_ok digit -> (b < i)%Z ->
  exists spans',
    asm_spans rate (asm_step rate st (i, digit, info)) spans'
      (seen ++ [(i, digit, info)]) i.
Proof.
  intros Hinv Hok Hbi.
  pose proof (asm_spans_inv _ _ _ _ _ Hinv) as Hasm.
  destruct (asm_step_facts rate st i digit info Hasm Hok)
    as [Hasm' [Hlast [Hemit [Hkeep [Hopen Hsame]]]]].
  destruct Hinv as [Hdet [Hchain [Hcur [Hsrc [Hcov Hoff]]]]].
  assert (Hoff' : forall w, In w (seen ++ [(i, digit, info)]) ->
                            (offset_of w <= i)%Z).
  { intros w Hw. apply in_app_or in Hw. destruct Hw as [Hw|[<-|[]]].
    - specialize (Hoff w Hw). lia.
    - unfold offset_of. simpl. lia. }
  assert (Hseen : forall w, In w seen -> In w (seen ++ [(i, digit, info)]))
    by (intros w Hw; apply in_or_app; now left).
  destruct Hcur as [Hnone|[d [s [Hd [Ht [Hs [Hsb [Hsin Hfol]]]]]]]].
  - (* no event open *)
    assert (Hdet' : detected_digits (asm_step rate st (i, digit, info))
                    = map (span_event rate) spans).
    { rewrite Hkeep by now right. exact Hdet. }
    exists spans. split; [exact Hdet'|].
    split; [apply (chain_weaken spans None b i); [lia|exact Hchain]|].
    split.
    { destruct Hok as [->|Htr].
      - left. exact Hlast.
      - right. destruct (truthy_some digit Htr) as [d' ->].
        destruct (Hopen ltac:(discriminate) ltac:(congruence)) as [Hs' Hi'].
        exists d', i. rewrite Hlast, Hs', Hi'.
        split; [reflexivity|]. split; [exact Htr|]. split; [reflexivity|].
        split; [lia|]. split; [apply in_or_app; right; now left|].
        destruct (List.last (map Some spans) None) as [p|] eqn:El; [|exact I].
        apply last_some_member in El.
        destruct (chain_member spans None b p Hchain El) as [_ Hpe].
        simpl. unfold follows. simpl. split; [unfold span_start; simpl; lia|].
        unfold span_start. simpl. lia. }
    split; [intros sp Hsp; apply Hseen; now apply Hsrc|].
    split; [|exact Hoff'].
    intros i0 d0 info0 Hin0 Ht0. apply in_app_or in Hin0.
    destruct Hin0 as [Hin0|[E|[]]].
    + destruct (Hcov i0 d0 info0 Hin0 Ht0) as [Hc|[Hc _]]; [now left|].
      congruence.
    + inversion E; subst. right. rewrite Hlast. split; [reflexivity|].
      destruct (Hopen ltac:(discriminate) ltac:(congruence)) as [Hs' _].
      exists i0. split; [exact Hs'|lia].
  - (* an event for [d] is open since [s] *)
    destruct (opt_string_eqb digit (Some d)) eqn:Eq.
    + (* same digit: nothing changes *)
      apply opt_string_eqb_eq in Eq. subst digit.
      assert (Hdet' : detected_digits (asm_step rate st (i, Some d, info))
                      = map (span_event rate) spans).
      { rewrite Hkeep by (left; now symmetry). exact Hdet. }
      destruct (Hsame (or_intror (eq_sym Hd))) as [Hs' Hi'].
      exists spans. split; [exact Hdet'|].
      split; [apply (chain_weaken spans None b i); [lia|exact Hchain]|].
      split.
      { right. exists d, s. rewrite Hlast, Hs', Hi'.
        split; [reflexivity|]. split; [exact Ht|]. split; [exact Hs|].
        split; [lia|]. split; [now apply Hseen|exact Hfol]. }
      split; [intros sp Hsp; apply Hseen; now apply Hsrc|].
      split; [|exact Hoff'].
      intros i0 d0 info0 Hin0 Ht0. apply in_app_or in Hin0.
      destruct Hin0 as [Hin0|[E|[]]].
      * destruct (Hcov i0 d0 info0 Hin0 Ht0) as [Hc|[Hc [s0 [Hs0 Hle]]]];
          [now left|].
        right. rewrite Hlast. split; [congruence|].
        exists s0. rewrite Hs'. split; [exact Hs0|exact Hle].
      * inversion E; subst. right. rewrite Hlast. split; [reflexivity|].
        exists s. rewrite Hs'. split; [exact Hs|lia].
    + (* another digit or none: the open event is emitted *)
      apply opt_string_eqb_neq in Eq.
      set (sp := ((d, s, i, digit_info st) : Span)).
      assert (Hdet' : detected_digits (asm_step rate st (i, digit, info))
                      = map (span_event rate) (spans ++ [sp])).
      { rewrite (Hemit d s)
          by first [exact Hd | exact Hs | rewrite Hd; exact Eq].
        rewrite Hdet, map_app. reflexivity. }
      assert (Hchain' : span_chain None i (spans ++ [sp])).
      { apply chain_snoc.
        - apply (chain_weaken spans None b i); [lia|exact Hchain].
        - eapply follows_opt_start; [| |exact Hfol]; reflexivity.
        - unfold sp, span_start, span_end. simpl. lia.
        - unfold sp, span_end. simpl. lia. }
      exists (spans ++ [sp]). split; [exact Hdet'|].
      split; [exact Hchain'|].
      split.
      { destruct Hok as [->|Htr].
        - left. exact Hlast.
        - right. destruct (truthy_some digit Htr) as [d' ->].
          destruct (Hopen ltac:(discriminate) ltac:(congruence)) as [Hs' Hi'].
          exists d', i. rewrite Hlast, Hs', Hi'.
          split; [reflexivity|]. split; [exact Htr|]. split; [reflexivity|].
          split; [lia|]. split; [apply in_or_app; right; now left|].
          rewrite last_some_snoc. simpl. unfold follows, sp.
          unfold span_end, span_start, span_digit. simpl.
          split; [lia|]. intros _ E. apply Eq. now rewrite E. }
      split.
      { intros sp0 Hsp0. apply in_app_or in Hsp0.
        destruct Hsp0 as [Hsp0|[<-|[]]].
        - apply Hseen. now apply Hsrc.
        - apply Hseen. exact Hsin. }
      split; [|exact Hoff'].
      intros i0 d0 info0 Hin0 Ht0. apply in_app_or in Hin0.
      destruct Hin0 as [Hin0|[E|[]]].
      * left.
        destruct (Hcov i0 d0 info0 Hin0 Ht0)
          as [[sp0 [Hsp0 Hc]]|[Hc [s0 [Hs0 Hle]]]].
        -- exists sp0. split; [apply in_or_app; now left|exact Hc].
        -- exists sp. split; [apply in_or_app; right; now left|].
           rewrite Hd in Hc. inversion Hc; subst d0.
           rewrite Hs in Hs0. inversion Hs0; subst s0.
           unfold sp, span_digit, span_start, span_end. simpl.
           split; [reflexivity|].
           specialize (Hoff _ Hin0). unfold offset_of in Hoff.
           simpl in Hoff. lia.
      * inversion E; subst. right. rewrite Hlast. split; [reflexivity|].
        destruct (Hopen ltac:(discriminate) ltac:(congruence)) as [Hs' _].
        exists i0. split; [exact Hs'|lia].
Qed.

Lemma asm_spans_fold (rate : Z) (ws : list Classified) :
  forall st spans seen b,
    asm_spans rate st spans seen b ->
    Forall (fun w => digit_ok (digit_of w)) ws ->
    ascending (map offset_of ws) ->
    (forall w, In w ws -> (b < offset_of w)%Z) ->
    exists spans' b',
      asm_spans rate (fold_left (asm_step rate) ws st) spans' (seen ++ ws) b' /\
      forall bound, (b < bound)%Z ->
                    (forall w, In w ws -> (offset_of w < bound)%Z) ->
                    (b' < bound)%Z.
Proof.
  induction ws as [|[[i digit] info] ws IH];
    intros st spans seen b Hinv Hok Hasc Hb.
  - exists spans, b. rewrite app_nil_r. split; [exact Hinv|]. intros; lia.
  - inversion Hok as [|? ? Hok1 Hok2]; subst.
    simpl in Hasc. destruct Hasc as [Hlt Hasc].
    destruct (asm_spans_step rate st spans seen b i digit info Hinv Hok1)
      as [spans1 Hinv1].
    { apply (Hb (i, digit, info)). now left. }
    destruct (IH _ _ _ _ Hinv1 Hok2 Hasc) as [spans' [b' [Hinv' Hbound]]].
    { intros w Hw. apply Hlt. now apply in_map. }
    exists spans', b'. rewrite <- app_assoc in Hinv'. split; [exact Hinv'|].
    intros bound Hbb Hall. apply Hbound.
    + apply (Hall (i, digit, info)). now left.
    + intros w Hw. apply Hall. now right.
Qed.

Lemma asm_spans_init (rate b : Z) : asm_spans rate asm_init [] [] b.
Proof.
  unfold asm_spans. simpl.
  repeat split; try (now left); try (intros; contradiction).
Qed.

(** The events of a whole run, in sample units. *)
Lemma assemble_spans (rate len : Z) (ws : list Classified) :
  Forall (fun w => digit_ok (digit_of w)) ws ->
  ascending (map offset_of ws) ->
  (forall w, In w ws -> (offset_of w < len)%Z) ->
  exists spans,
    assemble rate len ws = map (span_event rate) spans /\
    span_chain None len spans /\
    (forall sp, In sp spans ->
       In (span_start sp, Some (span_digit sp), span_info sp) ws) /\
    (forall i d info, In (i, Some d, info) ws -> truthy (Some d) = true ->
       exists sp, In sp spans /\ span_digit sp = d /\
                  (span_start sp <= i < span_end sp)%Z).
Proof.
  intros Hok Hasc Hlen.
  set (b0 := (match ws with
              | [] => len
              | w0 :: _ => Z.min len (offset_of w0)
              end - 1)%Z).
  destruct (asm_spans_fold rate ws asm_init [] [] b0 (asm_spans_init rate b0)
              Hok Hasc) as [spans [b [Hinv Hbound]]].
  { unfold b0. destruct ws as [|w0 ws']; [intros w []|].
    simpl in Hasc. destruct Hasc as [Hlt _].
    intros w [<-|Hw]; [lia|].
    specialize (Hlt (offset_of w) (in_map offset_of _ _ Hw)). lia. }
  assert (Hb : (b < len)%Z).
  { apply Hbound; [|exact Hlen]. unfold b0. destruct ws; lia. }
  simpl app in Hinv.
  destruct Hinv as [Hdet [Hchain [Hcur [Hsrc [Hcov Hoff]]]]].
  unfold assemble.
  destruct Hcur as [Hnone|[d [s [Hd [Ht [Hs [Hsb [Hsin Hfol]]]]]]]].
  - rewrite Hnone. simpl truthy. cbv iota.
    exists spans. split; [exact Hdet|].
    split; [apply (chain_weaken spans None b len); [lia|exact Hchain]|].
    split; [exact Hsrc|].
    intros i d info Hin Htr.
    destruct (Hcov i d info Hin Htr) as [Hc|[Hc _]]; [exact Hc|congruence].
  - rewrite Hd, Ht.
    set (st := fold_left (asm_step rate) ws asm_init) in *.
    set (sp := ((d, s, len, digit_info st) : Span)).
    exists (spans ++ [sp]). split.
    { rewrite (emit_open rate st len d s Hd Hs), Hdet, map_app. reflexivity. }
    split.
    { apply chain_snoc.
      - apply (chain_weaken spans None b len); [lia|exact Hchain].
      - eapply follows_opt_start; [| |exact Hfol]; reflexivity.
      - unfold sp, span_start, span_end. simpl. lia.
      - unfold sp, span_end. simpl. lia. }
    split.
    { intros sp0 Hsp0. apply in_app_or in Hsp0.
      destruct Hsp0 as [Hsp0|[<-|[]]]; [now apply Hsrc|exact Hsin]. }
    intros i d0 info Hin Htr.
    destruct (Hcov i d0 info Hin Htr)
      as [[sp0 [Hsp0 Hc]]|[Hc [s0 [Hs0 Hle]]]].
    + exists sp0. split; [apply in_or_app; now left|exact Hc].
    + exists sp. split; [apply in_or_app; right; now left|].
      rewrite Hd in Hc. inversion Hc; subst d0.
      rewrite Hs in Hs0. inversion Hs0; subst s0.
      unfold sp, span_digit, span_start, span_end. simpl.
      split; [reflexivity|].
      specialize (Hlen _ Hin). unfold offset_of in Hlen. simpl in Hlen. lia.
Qed.

Lemma chain_starts_after (l : list Span) :
  forall p b sp,
    (span_start p < span_end p)%Z ->
    span_chain (Some p) b l -> In sp l ->
    (span_start p < span_start sp)%Z.
Proof.
  induction l as [|x l IH]; intros p b sp Hp Hc Hin; [contradiction|].
  simpl in Hc. destruct Hc as [[Hf _] [Hx [_ Hc]]].
  destruct Hin as [<-|Hin]; [lia|].
  specialize (IH x b sp Hx Hc Hin). lia.
Qed.

Lemma chain_starts_distinct (l : list Span) :
  forall prev b, span_chain prev b l -> NoDup (map span_start l).
Proof.
  induction l as [|sp l IH]; intros prev b Hc; [constructor|].
  simpl in Hc. destruct Hc as [_ [H1 [_ Hc]]].
  simpl. constructor; [|eapply IH; exact Hc].
  intros Hin. apply in_map_iff in Hin. destruct Hin as [sp' [Es Hsp']].
  pose proof (chain_starts_after l sp b sp' H1 Hc Hsp'). lia.
Qed.

(** X16. When the classified windows come at strictly increasing sample
    offsets below the buffer length, the digit events of a run are in
    time order and do not overlap: each event covers a non-empty sample
    range ending within the buffer, the next event does not start before
    the previous one ended, and two events that touch carry different
    digits.  An event of range [s, e) is stored with start [s / rate]
    and duration [(e - s) / rate * 1000]. *)
Theorem events_ordered_disjoint (rate len : Z) (ws : list Classified) :
  Forall (fun w => digit_ok (digit_of w)) ws ->
  ascending (map offset_of ws) ->
  (forall w, In w ws -> (offset_of w < len)%Z) ->
  exists spans,
    assemble rate len ws = map (span_event rate) spans /\
    span_chain None len spans /\
    (List.length (assemble rate len ws) <= List.length ws)%nat.
Proof.
  intros Hok Hasc Hlen.
  destruct (assemble_spans rate len ws Hok Hasc Hlen)
    as [spans [E [Hchain [Hsrc _]]]].
  exists spans. split; [exact E|]. split; [exact Hchain|].
  rewrite E, length_map.
  assert (Hinj : NoDup (map span_start spans))
    by (eapply chain_starts_distinct; exact Hchain).
  assert (Hincl : incl (map span_start spans) (map offset_of ws)).
  { intros z Hz. apply in_map_iff in Hz. destruct Hz as [sp [<- Hsp]].
    apply in_map_iff. eexists. split; [|apply (Hsrc sp Hsp)]. reflexivity. }
  pose proof (NoDup_incl_length Hinj Hincl) as Hle.
  now rewrite !length_map in Hle.
Qed.

Lemma demo_run_ok :
  Forall (fun w => digit_ok (digit_of w)) demo_run /\
  ascending (map offset_of demo_run) /\
  (forall w, In w demo_run -> (offset_of w < 600)%Z).
Proof.
  split; [|split].
  - unfold demo_run. repeat constructor; (now left) || (right; reflexivity).
  - simpl. repeat split; intros y Hy;
      repeat (destruct Hy as [<-|Hy]; [reflexivity|]); contradiction.
  - intros w Hw. unfold demo_run in Hw.
    repeat (destruct Hw as [<-|Hw]; [reflexivity|]). contradiction.
Qed.

Lemma events_ordered_disjoint_witness :
  exists spans,
    assemble 11025 600 demo_run = map (span_event 11025) spans /\
    span_chain None 600 spans /\
    (List.length (assemble 11025 600 demo_run) <= List.length demo_run)%nat.
Proof.
  apply (events_ordered_disjoint 11025 600 demo_run); apply demo_run_ok.
Defined.

(** X17. Under the same conditions no detection is lost and none is
    invented: every window that decoded a digit lies inside an event of
    that digit, and every event starts at a window that decoded the
    event's digit and carries that window's detection info.  If no window
    decodes a digit there is no event. *)
Theorem events_cover_decoded_windows (rate len : Z) (ws : list Classified) :
  Forall (fun w => digit_ok (digit_of w)) ws ->
  ascending (map offset_of ws) ->
  (forall w, In w ws -> (offset_of w < len)%Z) ->
  exists spans,
    assemble rate len ws = map (span_event rate) spans /\
    (forall i d info, In (i, Some d, info) ws -> truthy (Some d) = true ->
       exists sp, In sp spans /\ span_digit sp = d /\
                  (span_start sp <= i < span_end sp)%Z) /\
    (forall sp, In sp spans ->
       In (span_start sp, Some (span_digit sp), span_info sp) ws) /\
    ((forall w, In w ws -> digit_of w = None) -> assemble rate len ws = []).
Proof.
  intros Hok Hasc Hlen.
  destruct (assemble_spans rate len ws Hok Hasc Hlen)
    as [spans [E [_ [Hsrc Hcov]]]].
  exists spans. split; [exact E|]. split; [exact Hcov|].
  split; [exact Hsrc|].
  intros Hnone. rewrite E.
  destruct spans as [|sp spans']; [reflexivity|].
  specialize (Hsrc sp (or_introl eq_refl)).
  specialize (Hnone _ Hsrc). discriminate.
Qed.

Lemma events_cover_decoded_windows_witness :
  exists spans,
    assemble 11025 600 demo_run = map (span_event 11025) spans /\
    (forall i d info, In (i, Some d, info) demo_run ->
       truthy (Some d) = true ->
       exists sp, In sp spans /\ span_digit sp = d /\
                  (span_start sp <= i < span_end sp)%Z) /\
    (forall sp, In sp spans ->
       In (span_start sp, Some (span_digit sp), span_info sp) demo_run) /\
    ((forall w, In w demo_run -> digit_of w = None) ->
     assemble 11025 600 demo_run = []).
Proof.
  apply (events_cover_decoded_windows 11025 600 demo_run); apply demo_run_ok.
Defined.

(** ** The whole sweep *)

Lemma ascending_map_seq (f : nat -> Z) :
  (forall i j, (i < j)%nat -> (f i < f j)%Z) ->
  forall n a, ascending (map f (seq a n)).
Proof.
  intros Hmono. induction n as [|n IH]; intros a; simpl.
  - exact I.
  - split; [|apply IH].
    intros u Hu. apply in_map_iff in Hu. destruct Hu as [j [<- Hj]].
    apply in_seq in Hj. apply Hmono. lia.
Qed.

Lemma classify_all (goertzel : list Z -> Z -> Z -> option Q) (p : Params)
  (data : list Z) (offsets : list Z) :
  (forall i, In i offsets ->
     exists c, classify_window goertzel p
                 (slice data i (i + window_samples p)) = Some c) ->
  exists classified,
    map_opt (fun i =>
               c <- classify_window goertzel p
                      (slice data i (i + window_samples p)) ;;
               Some (i, fst c, snd c)) offsets = Some classified /\
    map offset_of classified = offsets /\
    Forall (fun w => digit_ok (digit_of w)) classified.
Proof.
  induction offsets as [|i rest IH]; intros Htot.
  - exists []. repeat split. constructor.
  - destruct (Htot i (or_introl eq_refl)) as [[d info] Ec].
    destruct IH as [cl [E [Hoff Hok]]];
      [intros j Hj; apply Htot; now right|].
    exists ((i, d, info) :: cl). simpl map_opt. rewrite Ec. cbn [bind fst snd].
    rewrite E. cbn [bind]. split; [reflexivity|].
    split; [simpl; now rewrite Hoff|].
    constructor; [|exact Hok].
    unfold digit_of. simpl. eapply classify_window_digit_ok. exact Ec.
Qed.

Lemma classify_window_total (goertzel : list Z -> Z -> Z -> option Q)
  (p : Params) (window : list Z) :
  window <> [] ->
  (forall f, exists m, goertzel window f rate = Some m) ->
  exists c, classify_window goertzel p window = Some c.
Proof.
  intros Hne Htot.
  destruct (best_of_band_total goertzel window low_freqs rate)
    as [low [lf [El Hlf]]]; [discriminate|intros f _; apply Htot|].
  destruct (best_of_band_total goertzel window high_freqs rate)
    as [high [hf [Eh Hhf]]]; [discriminate|intros f _; apply Htot|].
  unfold classify_window. rewrite El, Eh. cbn [bind].
  destruct (sweep_peak_amp window) as [peak|] eqn:Ep.
  2:{ unfold sweep_peak_amp in Ep. destruct window; [congruence|discriminate]. }
  cbn [bind].
  destruct (passes_threshold _ _ _); [|eexists; reflexivity].
  destruct (np_lt _ _); [|eexists; reflexivity].
  rewrite Hlf, Hhf. cbn [bind]. eexists. reflexivity.
Qed.

(** X18. A sweep with a window of at least one sample and a hop of at
    least one sample, over a filter that returns on every non-empty
    window, runs to the end without error; its events are ordered,
    non-overlapping and inside the buffer; a buffer no longer than one
    window gives no event.  With a hop of zero samples the loop header
    raises. *)
Theorem sweep_runs (goertzel : list Z -> Z -> Z -> option Q)
  (data : list Z) (p : Params) :
  (forall samples f, samples <> [] ->
     exists m, goertzel samples f rate = Some m) ->
  (1 <= window_samples p)%Z ->
  let len := Z.of_nat (List.length data) in
  (hop_samples p = 0%Z -> sweep goertzel data p = None) /\
  ((1 <= hop_samples p)%Z ->
   exists spans,
     sweep goertzel data p = Some (map (span_event rate) spans) /\
     span_chain None len spans /\
     ((len <= window_samples p)%Z -> spans = [])).
Proof.
  intros Htot Hws len. split.
  - intros Hz. unfold sweep. fold len. rewrite Hz. reflexivity.
  - intros Hhop.
    destruct (ToolsFacts.range_ascending (len - window_samples p)
                (hop_samples p) Hhop) as [n [Hr [Hlt Hall]]].
    set (offsets := map (fun j => (Z.of_nat j * hop_samples p)%Z) (seq 0 n))
      in *.
    destruct (classify_all goertzel p data offsets) as [cl [Ecl [Hoff Hok]]].
    { intros i Hi. apply classify_window_total.
      - unfold offsets in Hi. apply in_map_iff in Hi.
        destruct Hi as [j [<- Hj]]. apply in_seq in Hj.
        specialize (Hlt j ltac:(lia)).
        destruct (ToolsFacts.chunk_in_range data (window_samples p)
                    (Z.of_nat j * hop_samples p)) as [_ Hl];
          [nia|lia|fold len; lia|].
        unfold Tools.chunk_at in Hl. intros E. rewrite E in Hl.
        simpl in Hl. lia.
      - intros f. apply Htot.
        unfold offsets in Hi. apply in_map_iff in Hi.
        destruct Hi as [j [<- Hj]]. apply in_seq in Hj.
        specialize (Hlt j ltac:(lia)).
        destruct (ToolsFacts.chunk_in_range data (window_samples p)
                    (Z.of_nat j * hop_samples p)) as [_ Hl];
          [nia|lia|fold len; lia|].
        unfold Tools.chunk_at in Hl. intros E. rewrite E in Hl.
        simpl in Hl. lia. }
    destruct (assemble_spans rate len cl Hok) as [spans [E [Hchain [Hsrc _]]]].
    { rewrite Hoff. unfold offsets. apply ascending_map_seq.
      intros i j Hij. nia. }
    { intros w Hw. pose proof (in_map offset_of _ _ Hw) as Hin.
      rewrite Hoff in Hin. unfold offsets in Hin.
      apply in_map_iff in Hin. destruct Hin as [j [<- Hj]].
      apply in_seq in Hj. specialize (Hlt j ltac:(lia)). lia. }
    exists spans. split; [|split; [exact Hchain|]].
    + unfold sweep. fold len. rewrite Hr. cbn [bind]. fold offsets.
      rewrite Ecl. cbn [bind]. now rewrite E.
    + intros Hshort. destruct spans as [|sp spans']; [reflexivity|].
      exfalso. specialize (Hsrc sp (or_introl eq_refl)).
      pose proof (in_map offset_of _ _ Hsrc) as Hin.
      rewrite Hoff in Hin. unfold offsets in Hin.
      apply in_map_iff in Hin. destruct Hin as [j [_ Hj]].
      apply in_seq in Hj. specialize (Hlt j ltac:(lia)). nia.
Qed.

Lemma sweep_runs_witness :
  (hop_samples demo_params = 0%Z ->
   sweep (flat_goertzel 1) [10; -9; 9; -8]%Z demo_params = None) /\
  ((1 <= hop_samples demo_params)%Z ->
   exists spans,
     sweep (flat_goertzel 1) [10; -9; 9; -8]%Z demo_params
     = Some (map (span_event rate) spans) /\
     span_chain None (Z.of_nat (List.length [10; -9; 9; -8]%Z)) spans /\
     ((Z.of_nat (List.length [10; -9; 9; -8]%Z)
       <= window_samples demo_params)%Z -> spans = [])).
Proof.
  apply (sweep_runs (flat_goertzel 1) [10; -9; 9; -8]%Z demo_params).
  - intros samples f _. exists 1%Q. reflexivity.
  - vm_compute. discriminate.
Defined.

End EventFacts.

(* ====================================================================== *)
(** * The frequency bin and the digit table *)
(* ====================================================================== *)

Module TableFacts.

Import Goertzel Dtmf.
Local Open Scope Z_scope.

Lemma bin_index_floor (n f Fs : Z) :
  0 <= n -> 0 < Fs -> 0 <= f ->
  let k := bin_index n f Fs in
  2 * Fs * k <= Fs + 2 * (n * f) < 2 * Fs * k + 2 * Fs.
Proof.
  intros Hn HFs Hf k. unfold k, bin_index.
  rewrite Z.quot_div_nonneg by nia.
  pose proof (Z.div_mod (Fs + 2 * (n * f)) (2 * Fs) ltac:(lia)) as E.
  pose proof (Z.mod_pos_bound (Fs + 2 * (n * f)) (2 * Fs) ltac:(lia)) as B.
  lia.
Qed.

(** X19. For a window of [n >= 1] samples, a positive rate and a
    non-negative target frequency, the bin [k] the filter measures is never
    negative and its centre frequency [k * rate / n] lies within half a bin
    width, [rate / (2 n)], of the target; a target up to half the rate
    gives [k <= (n + 1) / 2]; the bin does not decrease when the target
    grows, and two targets at least one bin width [rate / n] apart are
    measured in different bins. *)
Theorem bin_index_resolution (n f Fs : Z) :
  1 <= n -> 0 < Fs -> 0 <= f ->
  let k := bin_index n f Fs in
  0 <= k /\
  - Fs < 2 * (k * Fs - n * f) <= Fs /\
  (2 * f <= Fs -> 2 * k <= n + 1) /\
  (forall f2, f <= f2 -> k <= bin_index n f2 Fs) /\
  (forall f2, Fs <= n * (f2 - f) -> k < bin_index n f2 Fs).
Proof.
  intros Hn HFs Hf k.
  pose proof (bin_index_floor n f Fs ltac:(lia) HFs Hf) as B. fold k in B.
  cbv zeta in B.
  split; [nia|]. split; [nia|]. split; [intros; nia|]. split.
  - intros f2 H2.
    pose proof (bin_index_floor n f2 Fs ltac:(lia) HFs ltac:(lia)) as B2.
    cbv zeta in B2. nia.
  - intros f2 H2.
    assert (0 <= f2) by nia.
    pose proof (bin_index_floor n f2 Fs ltac:(lia) HFs ltac:(lia)) as B2.
    cbv zeta in B2. nia.
Qed.

Lemma bin_index_resolution_witness :
  let k := bin_index 1102 697 22050 in
  0 <= k /\
  - 22050 < 2 * (k * 22050 - 1102 * 697) <= 22050 /\
  (2 * 697 <= 22050 -> 2 * k <= 1102 + 1) /\
  (forall f2, 697 <= f2 -> k <= bin_index 1102 f2 22050) /\
  (forall f2, 22050 <= 1102 * (f2 - 697) -> k < bin_index 1102 f2 22050).
Proof.
  apply (bin_index_resolution 1102 697 22050); lia.
Defined.

Lemma dict_get_DTMF_MAP_inv (key : Z * Z) (d : string) :
  dict_get DTMF_MAP key = Some d ->
  In (key, d) DTMF_MAP.
Proof.
  unfold DTMF_MAP. generalize
    [ ((697, 1209), "1"); ((697, 1336), "2"); ((697, 1477), "3");
      ((697, 1633), "A"); ((770, 1209), "4"); ((770, 1336), "5");
      ((770, 1477), "6"); ((770, 1633), "B"); ((852, 1209), "7");
      ((852, 1336), "8"); ((852, 1477), "9"); ((852, 1633), "C");
      ((941, 1209), "*"); ((941, 1336), "0"); ((941, 1477), "#");
      ((941, 1633), "D") ]%string as table.
  induction table as [|[k v] rest IH]; simpl; [discriminate|].
  destruct ((fst k =? fst key) && (snd k =? snd key))%bool eqn:E.
  - intros [= <-]. left. apply andb_true_iff in E. destruct E as [E1 E2].
    apply Z.eqb_eq in E1, E2. destruct k, key. simpl in *. now subst.
  - intros H. right. now apply IH.
Qed.

(** X20. The digit table is a one-to-one correspondence between the
    sixteen (low, high) frequency pairs and sixteen characters: a lookup
    succeeds exactly on the pairs of a low and a high DTMF frequency,
    two different pairs never give the same character, and no character
    is empty or ['?'] (the default the report generator passes to
    [get]). *)
Theorem DTMF_MAP_one_to_one :
  (forall key,
     (exists d, dict_get DTMF_MAP key = Some d) <->
     In (fst key) DTMF_LOW /\ In (snd key) DTMF_HIGH) /\
  (forall k1 k2 d,
     dict_get DTMF_MAP k1 = Some d -> dict_get DTMF_MAP k2 = Some d ->
     k1 = k2) /\
  (forall key d, dict_get DTMF_MAP key = Some d ->
     d <> "?"%string /\ d <> ""%string /\
     dict_get_default DTMF_MAP key "?" = d).
Proof.
  split; [|split].
  - intros key. split.
    + intros [d Hd]. apply dict_get_DTMF_MAP_inv in Hd.
      unfold DTMF_MAP in Hd. simpl in Hd.
      repeat (destruct Hd as [Hd|Hd];
              [inversion Hd; subst; simpl; split; tauto|]).
      contradiction.
    + destruct key as [l h]. simpl fst. simpl snd. intros [Hl Hh].
      destruct (DtmfFacts.DTMF_MAP_total l h Hl Hh) as [d [Hd _]].
      now exists d.
  - intros k1 k2 d H1 H2.
    apply dict_get_DTMF_MAP_inv in H1, H2.
    unfold DTMF_MAP in H1, H2. simpl in H1, H2.
    repeat (destruct H1 as [H1|H1]; [inversion H1; subst; clear H1|]);
      try contradiction;
      repeat (destruct H2 as [H2|H2];
              [inversion H2; subst; try reflexivity|]);
      contradiction.
  - intros key d Hd. unfold dict_get_default. rewrite Hd.
    apply dict_get_DTMF_MAP_inv in Hd.
    unfold DTMF_MAP in Hd. simpl in Hd.
    repeat (destruct Hd as [Hd|Hd];
            [inversion Hd; subst; repeat split; discriminate|]).
    contradiction.
Qed.

End TableFacts.
